(** * ARIMA-based CPU anomaly detection ([main.py])

    A shallow embedding of the pipeline of [main.py]:
    [generate_synthetic_data], [train_and_detect], [visualize_results] and
    [save_report].

    Python's [float] and numpy's [float64] are IEEE 754 binary64 numbers with
    round-to-nearest-even; they are modelled by Rocq's primitive [float],
    which is the same format with the same rounding.  Equality of two
    [float]s below is bit-for-bit equality (with a single NaN).

    The libraries the script calls are collaborators outside the repository.
    numpy's random generator and sine and statsmodels' ARIMA are parameters
    (the records [Numpy] and [Arima]); pandas' [mean] and [std], and numpy's
    sum beneath them, are modelled from what the spec says of them, in the
    order of operations the libraries use, and are measured against the mean
    and the sample variance in exact arithmetic. *)

From Stdlib Require Import ZArith List Bool Lia PeanoNat String Sorted Permutation.
From Stdlib Require Import Uint63 Floats.
From Stdlib Require Import Reals Lra.
Import ListNotations.

Set Warnings "-inexact-float".

(** ** Floating-point helpers *)

Module F.

(** Python's [x > y] and [x < y] on floats; both are false as soon as one
    side is NaN. *)
Definition gt (x y : float) : bool := (y <? x)%float.
Definition lt (x y : float) : bool := (x <? y)%float.

(** Python's [x <= y] and [x == y]. *)
Definition le (x y : float) : bool := (x <=? y)%float.
Definition eq (x y : float) : bool := (x =? y)%float.

(** Conversion of a non-negative machine integer to [float]. *)
Definition of_Z (z : Z) : float := of_uint63 (Uint63.of_Z z).
Definition of_nat (n : nat) : float := of_Z (Z.of_nat n).

(** Conversion of a signed machine integer to [float]. *)
Definition of_int (z : Z) : float :=
  if (z <? 0)%Z then (- of_Z (- z))%float else of_Z z.

(** [x] is a zero (of either sign) or NaN. *)
Definition zero_or_nan (x : float) : Prop :=
  Prim2SF x = S754_nan \/ exists s, Prim2SF x = S754_zero s.

(** [x] is a zero, or finite with at most [B] for the number of binary digits
    of its mantissa plus its exponent (so its magnitude is below [2^B]). *)
Definition within (B : Z) (x : spec_float) : Prop :=
  match x with
  | S754_zero _ => True
  | S754_finite _ m e => (Zpos (digits2_pos m) + e <= B)%Z
  | _ => False
  end.

End F.

(** ** The real value of a binary64 number *)

Module Real.

Local Open Scope R_scope.

(** [2^e], for an integer [e]. *)
Definition bpow (e : Z) : R := powerRZ 2 e.

(** The real number a finite number stands for.  Zeros give [0], and so do,
    by convention, the infinities and NaN. *)
Definition SF2R (x : spec_float) : R :=
  match x with
  | S754_finite s m e => IZR (cond_Zopp s (Zpos m)) * bpow e
  | _ => 0
  end.

Definition B2R (x : float) : R := SF2R (Prim2SF x).

(** A zero or a finite number: neither an infinity nor NaN. *)
Definition SFfinite (x : spec_float) : bool :=
  match x with
  | S754_zero _ | S754_finite _ _ _ => true
  | _ => false
  end.

(** The exponent of a finite binary64 number is at least [emin]. *)
Definition SFwf (x : spec_float) : Prop :=
  match x with
  | S754_finite _ _ e => (-1074 <= e)%Z
  | _ => True
  end.

(** The magnitude [m * 2^e]. *)
Definition mag (m : positive) (e : Z) : R := IZR (Zpos m) * bpow e.

Definition half (r : bool) : R := if r then / 2 else 0.

(** What the record of a right shift says of the value [x] it was shifted
    from: [x] is [m] (plus a half when the round bit is on) when the sticky
    bit is off, and strictly within the half unit above that when it is
    on. *)
Definition located (mrs : shr_record) (x : R) : Prop :=
  if shr_s mrs
  then IZR (shr_m mrs) + half (shr_r mrs) < x
       < IZR (shr_m mrs) + half (shr_r mrs) + / 2
  else x = IZR (shr_m mrs) + half (shr_r mrs).

(** The unit roundoff of binary64, [2^-53], and half of the smallest
    positive binary64 number, [2^-1075]. *)
Definition u : R := bpow (-53).
Definition eta : R := bpow (-1075).

(** [(1 + u)^k - 1]: the relative error that [k] roundings in a row can
    build up. *)
Definition gamma (k : nat) : R := (1 + u) ^ k - 1.

End Real.

(** ** Configuration (lines 23-31) *)

Record Config := {
  data_path : string;
  plot_path : string;
  report_path : string;
  days : Z;
  hours_per_day : Z;
  anomaly_threshold : float;
  arima_order : Z * Z * Z
}.

Definition CONFIG : Config := {|
  data_path := "data/cpu_data.csv";
  plot_path := "outputs/detection_plot.png";
  report_path := "outputs/anomaly_report.csv";
  days := 30;
  hours_per_day := 24;
  anomaly_threshold := 2.5%float;
  arima_order := (5, 1, 0)%Z
|}.

(** ** Errors raised by the script's stages *)

Inductive error :=
| ValueError      (* numpy: negative dimension *)
| IndexError      (* numpy: index out of bounds *)
| KeyError        (* pandas: missing column *)
| ModelFitError.  (* statsmodels: the fit fails *)

Inductive result (A : Type) :=
| Ok (a : A)
| Err (e : error).
Arguments Ok {A} a.
Arguments Err {A} e.

(** ** The data frame and the files of the pipeline *)

(** The three columns [train_and_detect] adds to the frame (lines 100, 101
    and 110); they are written together. *)
Record AnalysisColumns := {
  predicted : list float;
  residual : list float;
  is_anomaly : list bool
}.

(** The frame [df]: two columns from the generator, three more once
    [train_and_detect] has run.  A timestamp is a number of hours since
    2024-01-01 00:00. *)
Record DataFrame := {
  timestamp : list Z;
  cpu_percent : list float;
  analysis : option AnalysisColumns
}.

(** One row of the analysed frame. *)
Record AnnotatedRecord := {
  r_timestamp : Z;
  r_cpu_percent : float;
  r_predicted : float;
  r_residual : float;
  r_is_anomaly : bool
}.

(** What [visualize_results] draws. *)
Record Plot := {
  actual_curve : list (Z * float);
  predicted_curve : list (Z * float);
  anomaly_markers : list (Z * float);
  title_threshold : float;
  title_count : nat
}.

Inductive File :=
| DataCsv (rows : list (Z * float))
| ReportCsv (rows : list AnnotatedRecord)
| PlotPng (p : Plot).

(** ** numpy and statsmodels *)

(** numpy, as far as the script uses it: the global random generator, with
    one draw of [normal(loc, scale)] and one draw of [choice(options)], and
    the sine. *)
Record Numpy := {
  rng : Type;
  random_seed : Z -> rng;
  random_gauss : float -> float -> rng -> float * rng;
  random_choice : list Z -> rng -> Z * rng;
  np_sin : float -> float
}.

(** What the generator relies on from numpy: the sine of a finite number
    lies in [-1, 1], and a draw of [normal(0, 2)] is a finite number. *)
Record NumpyContract (np : Numpy) : Prop := {
  sin_range : forall x : float,
    is_finite x = true ->
    F.le (-1) (np_sin np x) = true /\ F.le (np_sin np x) 1 = true;
  normal_finite : forall g : rng np,
    is_finite (fst (random_gauss np 0 2 g)) = true
}.

(** statsmodels' ARIMA: a fit that may fail, and in-sample prediction over
    the index range [start..end]. *)
Record Arima := {
  FittedModel : Type;
  arima_fit : list float -> Z * Z * Z -> option FittedModel;
  arima_predict : FittedModel -> Z -> Z -> list float
}.

(** The state the stages act on: numpy's global generator and the files. *)
Record World (np : Numpy) := {
  np_random : rng np;
  files : string -> option File
}.
Arguments np_random {np} w.
Arguments files {np} w.

(** State and error monad of the stages. *)
Definition IO (np : Numpy) (A : Type) : Type := World np -> result A * World np.

Definition ret {np : Numpy} {A : Type} (a : A) : IO np A :=
  fun w => (Ok a, w).

Definition raise {np : Numpy} {A : Type} (e : error) : IO np A :=
  fun w => (Err e, w).

Definition bind {np : Numpy} {A B : Type} (c : IO np A) (k : A -> IO np B)
  : IO np B :=
  fun w =>
    match c w with
    | (Ok a, w') => k a w'
    | (Err e, w') => (Err e, w')
    end.

Notation "x <- c ;; k" := (bind c (fun x => k))
  (at level 61, c at next level, right associativity).

(** [np.random.seed(s)]. *)
Definition seed {np : Numpy} (s : Z) : IO np unit :=
  fun w => (Ok tt, {| np_random := random_seed np s; files := files w |}).

(** A step of the generator. *)
Definition draw {np : Numpy} {A : Type} (f : rng np -> A * rng np) : IO np A :=
  fun w =>
    let '(a, g) := f (np_random w) in
    (Ok a, {| np_random := g; files := files w |}).

(** [np.random.normal(loc, scale, size)]: [size] successive draws; a negative
    size is refused. *)
Fixpoint normal_draws {np : Numpy} (loc scale : float) (n : nat)
  : IO np (list float) :=
  match n with
  | O => ret []
  | S n' =>
      x <- draw (random_gauss np loc scale) ;;
      xs <- normal_draws loc scale n' ;;
      ret (x :: xs)
  end.

Definition random_normal {np : Numpy} (loc scale : float) (size : Z)
  : IO np (list float) :=
  if (size <? 0)%Z then raise ValueError
  else normal_draws loc scale (Z.to_nat size).

(** [df.to_csv(path)] and [plt.savefig(path)]. *)
Definition write_file {np : Numpy} (path : string) (f : File) : IO np unit :=
  fun w =>
    (Ok tt,
     {| np_random := np_random w;
        files := fun p => if String.eqb p path then Some f else files w p |}).

(** ** Part 1: data generation (lines 41-78) *)

Definition np_pi : float := 3.141592653589793%float.

(** [np.arange(n)]. *)
Definition np_arange (n : Z) : list Z :=
  map Z.of_nat (seq 0 (Z.to_nat n)).

(** [np.clip(x, lo, hi)] on one float: [min (max x lo) hi], NaN passed
    through. *)
Definition np_clip (lo hi x : float) : float :=
  if is_nan x then x
  else
    let m := if F.gt x lo then x else lo in
    if F.lt m hi then m else hi.

(** Line 61, one element of [40 + seasonality + trend + noise]. *)
Definition base_signal (np : Numpy) (t : Z) (noise : float) : float :=
  let seasonality := (10 * np_sin np (2 * np_pi * F.of_Z t / 24))%float in
  let trend := (0.05 * F.of_Z t)%float in
  (40 + seasonality + trend + noise)%float.

(** [a[idx] = v] on a list. *)
Fixpoint list_set {A : Type} (l : list A) (idx : nat) (v : A) : list A :=
  match l, idx with
  | [], _ => []
  | _ :: l', O => v :: l'
  | x :: l', S i => x :: list_set l' i v
  end.

(** Lines 65-66: [cpu_usage[idx] += np.random.choice([30, -25])] for each
    index, in order.  The element is read before the draw; an index outside
    the array raises. *)
Fixpoint inject_anomalies {np : Numpy} (indices : list nat)
  (cpu_usage : list float) : IO np (list float) :=
  match indices with
  | [] => ret cpu_usage
  | idx :: rest =>
      match nth_error cpu_usage idx with
      | None => raise IndexError
      | Some x =>
          c <- draw (random_choice np [30; -25]%Z) ;;
          inject_anomalies rest (list_set cpu_usage idx (x + F.of_int c)%float)
      end
  end.

Definition anomalies_indices : list nat := [50; 120; 300; 550; 680]%nat.

(** The array [cpu_usage] as it stands before line 69. *)
Definition unclipped_signal {np : Numpy} (cfg : Config) : IO np (list float) :=
  _ <- seed 42 ;;
  let total_hours := (days cfg * hours_per_day cfg)%Z in
  let time := np_arange total_hours in
  noise <- random_normal 0 2 total_hours ;;
  let cpu_usage :=
    map (fun tn => base_signal np (fst tn) (snd tn)) (combine time noise) in
  inject_anomalies anomalies_indices cpu_usage.

Definition generate_synthetic_data {np : Numpy} (cfg : Config)
  : IO np DataFrame :=
  cpu_usage <- unclipped_signal cfg ;;
  let cpu_usage := map (np_clip 0 100) cpu_usage in
  let total_hours := (days cfg * hours_per_day cfg)%Z in
  let dates := np_arange total_hours in
  let df :=
    {| timestamp := dates; cpu_percent := cpu_usage; analysis := None |} in
  _ <- write_file (data_path cfg) (DataCsv (combine dates cpu_usage)) ;;
  ret df.

(** ** Series statistics *)

(** Modelled from the spec: numpy's sum of a float64 array is library code
    outside the repository.  It is numpy's pairwise summation.  Up to 128
    values are added into eight running sums, eight values at a time; the
    eight sums are then added in pairs, and what is left of the array, fewer
    than eight values, is added to the result one by one. *)
Fixpoint block_sum (r0 r1 r2 r3 r4 r5 r6 r7 : float) (a : list float) : float :=
  match a with
  | a0 :: a1 :: a2 :: a3 :: a4 :: a5 :: a6 :: a7 :: rest =>
      block_sum (r0 + a0) (r1 + a1) (r2 + a2) (r3 + a3)
                (r4 + a4) (r5 + a5) (r6 + a6) (r7 + a7) rest
  | _ =>
      fold_left PrimFloat.add a
        (((r0 + r1) + (r2 + r3)) + ((r4 + r5) + (r6 + r7)))%float
  end.

(** Fewer than eight values are added left to right, starting from [-0.0]. *)
Definition unrolled_sum (a : list float) : float :=
  match a with
  | a0 :: a1 :: a2 :: a3 :: a4 :: a5 :: a6 :: a7 :: rest =>
      block_sum a0 a1 a2 a3 a4 a5 a6 a7 rest
  | _ => fold_left PrimFloat.add a neg_zero
  end.

(** More than 128 values are split in two, the first part a multiple of
    eight long, and the sums of the two parts are added.  [depth] bounds the
    number of nested splits; the length of the array is always enough. *)
Fixpoint pairwise_sum (depth : nat) (a : list float) : float :=
  match depth with
  | S depth' =>
      if (128 <? List.length a)%nat then
        let n2 := (List.length a / 2 - (List.length a / 2) mod 8)%nat in
        (pairwise_sum depth' (firstn n2 a) + pairwise_sum depth' (skipn n2 a))%float
      else unrolled_sum a
  | O => unrolled_sum a
  end.

(** [values.sum()]: the reduction starts from [0.0] and adds the pairwise
    sum of the array to it. *)
Definition np_sum (l : list float) : float :=
  (0 + pairwise_sum (List.length l) l)%float.

(** [s] comes from the values of [l], each used once, by additions nested at
    most [d] deep, in some order and grouping; an empty sum is a zero. *)
Inductive addition_tree : nat -> list float -> float -> Prop :=
| tree_zero (d : nat) (z : float) :
    z = 0%float \/ z = neg_zero -> addition_tree d [] z
| tree_leaf (d : nat) (x : float) : addition_tree d [x] x
| tree_node (d : nat) (l1 l2 : list float) (s1 s2 : float) :
    addition_tree d l1 s1 -> addition_tree d l2 s2 ->
    addition_tree (S d) (l1 ++ l2) (s1 + s2)%float
| tree_perm (d : nat) (l l' : list float) (s : float) :
    Permutation l l' -> addition_tree d l s -> addition_tree d l' s.

(** pandas' statistics leave the NaN entries of a column out ([skipna]): in
    the sums they are replaced by [0.0], and they are not counted. *)
Definition notna (x : float) : bool := negb (is_nan x).

Definition count_notna (l : list float) : nat :=
  List.length (filter notna l).

Definition fillna (l : list float) : list float :=
  map (fun x => if is_nan x then 0%float else x) l.

(** Modelled from the spec: pandas' [Series.mean] is library code outside the
    repository.  The spec asks for the mean over all residuals of the run;
    pandas computes it as the sum of the values that are numbers divided by
    their count, and gives NaN when there is none. *)
Definition Series_mean (l : list float) : float :=
  if Nat.eqb (count_notna l) 0 then nan
  else (np_sum (fillna l) / F.of_nat (count_notna l))%float.

(** The squared deviations from [avg], [0.0] where the value is NaN. *)
Definition squared_deviations (avg : float) (l : list float) : list float :=
  map (fun x => if is_nan x then 0%float
                else ((avg - x) * (avg - x))%float) l.

(** Modelled from the spec: pandas' [Series.std] is library code outside the
    repository.  The spec asks for the sample standard deviation over all
    residuals of the run: the square root of the sum of squared deviations
    from the mean, divided by [N - 1], where [N] counts the values that are
    numbers.  With fewer than two such values there is no sample standard
    deviation; the result is then NaN. *)
Definition Series_std (l : list float) : float :=
  if Nat.leb (count_notna l) 1 then nan
  else
    let avg := Series_mean l in
    let sqr := squared_deviations avg l in
    PrimFloat.sqrt (np_sum sqr / (F.of_nat (count_notna l) - 1))%float.

(** The same statistics in exact arithmetic, to measure the computed ones
    against: the values of a column that are numbers, as real numbers, their
    mean, and their sample variance about a centre [c]. *)
Definition Rsum (l : list R) : R := fold_right Rplus 0%R l.

Definition numbers (l : list float) : list R :=
  map Real.B2R (filter notna l).

Definition Rmean (xs : list R) : R := (Rsum xs / INR (List.length xs))%R.

Definition Rvar (c : R) (xs : list R) : R :=
  (Rsum (map (fun x => (c - x) * (c - x)) xs) / (INR (List.length xs) - 1))%R.

(** A value that is a number, neither an infinity nor NaN; and a value that
    is one or is left out of the statistics. *)
Definition finite (x : float) : Prop := is_finite x = true.

Definition number_or_nan (x : float) : Prop :=
  is_nan x = true \/ is_finite x = true.

(** ** Part 2: residual analysis (lines 101-113 of [train_and_detect]) *)

(** The three arithmetic operations of lines 106-107, so that the threshold
    formula can be read both in binary64 and in exact arithmetic. *)
Class Num (A : Type) := {
  nadd : A -> A -> A;
  nsub : A -> A -> A;
  nmul : A -> A -> A
}.

#[export] Instance Num_float : Num float := {|
  nadd := PrimFloat.add;
  nsub := PrimFloat.sub;
  nmul := PrimFloat.mul
|}.

#[export] Instance Num_R : Num R := {|
  nadd := Rplus;
  nsub := Rminus;
  nmul := Rmult
|}.

(** Lines 106-107:
    [upper_threshold = residual_mean + (k * residual_std)],
    [lower_threshold = residual_mean - (k * residual_std)]. *)
Definition thresholds {A : Type} `{Num A} (k residual_mean residual_std : A)
  : A * A :=
  (nadd residual_mean (nmul k residual_std),
   nsub residual_mean (nmul k residual_std)).

(** Line 101: element-wise [df['cpu_percent'] - df['predicted']] on two
    columns of one frame. *)
Definition series_sub (observed predicted : list float) : list float :=
  map (fun op => (fst op - snd op)%float) (combine observed predicted).

(** Lines 110-111 for one residual. *)
Definition flag (upper lower r : float) : bool :=
  F.gt r upper || F.lt r lower.

(** Line 113: [df['is_anomaly'].sum()]. *)
Definition count_true (flags : list bool) : nat :=
  List.length (filter (fun b => b) flags).

Record Analysis := {
  an_residual : list float;
  residual_mean : float;
  residual_std : float;
  upper_threshold : float;
  lower_threshold : float;
  an_is_anomaly : list bool;
  anomaly_count : nat
}.

Definition analyze (k : float) (observed predicted : list float) : Analysis :=
  let residual := series_sub observed predicted in
  let mu := Series_mean residual in
  let sigma := Series_std residual in
  let '(upper, lower) := thresholds k mu sigma in
  let is_anomaly := map (flag upper lower) residual in
  {| an_residual := residual;
     residual_mean := mu;
     residual_std := sigma;
     upper_threshold := upper;
     lower_threshold := lower;
     an_is_anomaly := is_anomaly;
     anomaly_count := count_true is_anomaly |}.

(** The analyzer as the pipeline runs it, with [CONFIG['anomaly_threshold']]. *)
Definition residual_analyzer : list float -> list float -> Analysis :=
  analyze (anomaly_threshold CONFIG).

(** [train_and_detect] (lines 83-116): fit, predict in sample over
    [0 .. len(df)-1], analyse, and store the three columns in the frame. *)
Definition train_and_detect (ar : Arima) (cfg : Config) (df : DataFrame)
  : result (DataFrame * FittedModel ar) :=
  let series := cpu_percent df in
  match arima_fit ar series (arima_order cfg) with
  | None => Err ModelFitError
  | Some model_fit =>
      let len_df := Z.of_nat (List.length (timestamp df)) in
      let pred := arima_predict ar model_fit 0 (len_df - 1) in
      let a := analyze (anomaly_threshold cfg) (cpu_percent df) pred in
      Ok ({| timestamp := timestamp df;
             cpu_percent := cpu_percent df;
             analysis := Some {| predicted := pred;
                                 residual := an_residual a;
                                 is_anomaly := an_is_anomaly a |} |},
          model_fit)
  end.

(** ** Part 3: visualisation and report (lines 121-158) *)

(** [col[mask]]: the entries of a column at which the mask is true. *)
Fixpoint mask_select {A : Type} (l : list A) (mask : list bool) : list A :=
  match l, mask with
  | x :: l', b :: mask' =>
      if b then x :: mask_select l' mask' else mask_select l' mask'
  | _, _ => []
  end.

(** [df[df['is_anomaly']]]: a new frame; [df] itself is left as it is. *)
Definition select_anomalies (df : DataFrame) : result DataFrame :=
  match analysis df with
  | None => Err KeyError
  | Some a =>
      let mask := is_anomaly a in
      Ok {| timestamp := mask_select (timestamp df) mask;
            cpu_percent := mask_select (cpu_percent df) mask;
            analysis := Some {| predicted := mask_select (predicted a) mask;
                                residual := mask_select (residual a) mask;
                                is_anomaly := mask_select (is_anomaly a) mask |} |}
  end.

(** The rows of an analysed frame, in index order. *)
Definition records (ts : list Z) (cpu : list float) (a : AnalysisColumns)
  : list AnnotatedRecord :=
  map (fun r =>
         {| r_timestamp := fst r;
            r_cpu_percent := fst (snd r);
            r_predicted := fst (snd (snd r));
            r_residual := fst (snd (snd (snd r)));
            r_is_anomaly := snd (snd (snd (snd r))) |})
      (combine ts (combine cpu (combine (predicted a)
         (combine (residual a) (is_anomaly a))))).

(** [df.to_csv(path, index=False)]: every column of the frame, row by row. *)
Definition to_csv (df : DataFrame) : File :=
  match analysis df with
  | None => DataCsv (combine (timestamp df) (cpu_percent df))
  | Some a => ReportCsv (records (timestamp df) (cpu_percent df) a)
  end.

Definition lift {np : Numpy} {A : Type} (r : result A) : IO np A :=
  fun w => (r, w).

Definition visualize_results {np : Numpy} (cfg : Config) (df : DataFrame)
  : IO np unit :=
  match analysis df with
  | None => raise KeyError
  | Some a =>
      anomalies <- lift (select_anomalies df) ;;
      write_file (plot_path cfg)
        (PlotPng
           {| actual_curve := combine (timestamp df) (cpu_percent df);
              predicted_curve := combine (timestamp df) (predicted a);
              anomaly_markers :=
                combine (timestamp anomalies) (cpu_percent anomalies);
              title_threshold := anomaly_threshold cfg;
              title_count := List.length (timestamp anomalies) |})
  end.

Definition save_report {np : Numpy} (cfg : Config) (df : DataFrame)
  : IO np unit :=
  anomalies <- lift (select_anomalies df) ;;
  write_file (report_path cfg) (to_csv anomalies).

(** The working directory, as far as [ensure_directories] sees it: what each
    name is, if it exists. *)
Inductive entry := Directory | RegularFile.

Inductive os_error := FileExistsError.

(** [os.makedirs(name, exist_ok=True)] for a single path component: the
    folder is created unless the name exists; an existing folder is accepted
    and an existing regular file is refused. *)
Definition makedirs_exist_ok (name : string) (tree : string -> option entry)
  : (string -> option entry) + os_error :=
  match tree name with
  | None =>
      inl (fun p => if String.eqb p name then Some Directory else tree p)
  | Some Directory => inl tree
  | Some RegularFile => inr FileExistsError
  end.

(** [ensure_directories] (lines 33-36). *)
Definition ensure_directories (tree : string -> option entry)
  : (string -> option entry) + os_error :=
  match makedirs_exist_ok "data" tree with
  | inl tree' => makedirs_exist_ok "outputs" tree'
  | inr e => inr e
  end.



(** The report a run leaves behind, if any. *)
Definition report_of {np : Numpy} (cfg : Config) (w : World np)
  : option (list AnnotatedRecord) :=
  match files w (report_path cfg) with
  | Some (ReportCsv rows) => Some rows
  | _ => None
  end.

(** The frames a run builds have columns of one length. *)
Definition frame_wf (df : DataFrame) (a : AnalysisColumns) : Prop :=
  List.length (cpu_percent df) = List.length (timestamp df) /\
  List.length (predicted a) = List.length (timestamp df) /\
  List.length (residual a) = List.length (timestamp df) /\
  List.length (is_anomaly a) = List.length (timestamp df).

(** A stage that reads nothing of the world but numpy's generator. *)
Definition rng_only (np : Numpy) {A : Type} (c : IO np A) : Prop :=
  forall w1 w2 : World np,
    np_random w1 = np_random w2 ->
    fst (c w1) = fst (c w2) /\
    np_random (snd (c w1)) = np_random (snd (c w2)).

(** ** Stand-ins for the collaborators, to run the stages on *)

(** A stand-in for statsmodels: the model remembers the series and predicts
    each point by the one before it. *)
Definition toy_arima : Arima := {|
  FittedModel := list float;
  arima_fit := fun series _ =>
    match series with [] => None | _ :: _ => Some series end;
  arima_predict := fun m start stop =>
    firstn (Z.to_nat (stop - start + 1)) (hd 0%float m :: m)
|}.

(** A stand-in for numpy: a linear congruential generator, five-valued noise
    and a flat sine. *)
Definition toy_numpy : Numpy := {|
  rng := Z;
  random_seed := fun s => s;
  random_gauss := fun loc scale g =>
    ((loc + scale * F.of_int (g mod 5 - 2))%float,
     ((g * 1103515245 + 12345) mod 2147483648)%Z);
  random_choice := fun options g =>
    (nth (Z.to_nat (g mod Z.of_nat (List.length options))) options 0%Z,
     ((g * 1103515245 + 12345) mod 2147483648)%Z);
  np_sin := fun _ => 0%float
|}.

Definition toy_world : World toy_numpy :=
  Build_World toy_numpy 7%Z (fun _ => None).

(** Ten hours of steady load with a spike in the last one. *)
Definition toy_frame : DataFrame := {|
  timestamp := np_arange 10;
  cpu_percent := [10; 10; 10; 10; 10; 10; 10; 10; 10; 100]%float;
  analysis := None
|}.

Definition toy_columns : AnalysisColumns := {|
  predicted := [10; 10; 10; 10; 10; 10; 10; 10; 10; 10]%float;
  residual := [0; 0; 0; 0; 0; 0; 0; 0; 0; 90]%float;
  is_anomaly :=
    [false; false; false; false; false; false; false; false; false; true]
|}.

Definition toy_analysed : DataFrame := {|
  timestamp := timestamp toy_frame;
  cpu_percent := cpu_percent toy_frame;
  analysis := Some toy_columns
|}.

(** ** Further contracts *)

(** What [train_and_detect] relies on from statsmodels: the in-sample
    prediction over [0 .. len(series)-1] has one value per observation. *)
Record ArimaContract (ar : Arima) : Prop := {
  predict_length : forall (series : list float) (order : Z * Z * Z)
                          (m : FittedModel ar),
    arima_fit ar series order = Some m ->
    List.length
      (arima_predict ar m 0 (Z.of_nat (List.length series) - 1)) =
    List.length series
}.

(** [np.random.choice] returns one of the options it is given. *)
Definition ChoiceContract (np : Numpy) : Prop :=
  forall (options : list Z) (g : rng np),
    options <> [] -> In (fst (random_choice np options g)) options.

(** A stage that leaves every file as it is. *)
Definition keeps_files (np : Numpy) {A : Type} (c : IO np A) : Prop :=
  forall w : World np, files (snd (c w)) = files w.

(** * Facts about binary64 arithmetic *)

Module FloatFacts.

(** ** Comparison *)

Lemma SFcompare_antisym (a b : spec_float) :
  SFcompare b a = option_map CompOpp (SFcompare a b).
Proof.
  destruct a as [sa|sa| |sa ma ea], b as [sb|sb| |sb mb eb]; simpl;
    try reflexivity;
    try (destruct sa; reflexivity);
    try (destruct sb; reflexivity);
    try (destruct sa, sb; reflexivity).
  destruct sa, sb; simpl; try reflexivity.
  - rewrite (Z.compare_antisym ea eb).
    destruct (ea ?= eb)%Z; simpl; try reflexivity.
    rewrite (Pos.compare_cont_antisym ma mb Eq). reflexivity.
  - rewrite (Z.compare_antisym ea eb).
    destruct (ea ?= eb)%Z; simpl; try reflexivity.
    rewrite (Pos.compare_cont_antisym ma mb Eq). reflexivity.
Qed.

Lemma SFcompare_refl (a : spec_float) :
  SFcompare a a = None \/ SFcompare a a = Some Eq.
Proof.
  destruct a as [s|s| |s m e]; simpl; auto.
  - destruct s; auto.
  - right. rewrite Z.compare_refl, Pos.compare_cont_refl.
    destruct s; reflexivity.
Qed.

Lemma SFcompare_finite_eq s1 m1 e1 s2 m2 e2 :
  SFcompare (S754_finite s1 m1 e1) (S754_finite s2 m2 e2) = Some Eq ->
  s1 = s2 /\ m1 = m2 /\ e1 = e2.
Proof.
  simpl. destruct s1, s2; try discriminate;
    destruct (e1 ?= e2)%Z eqn:He; try discriminate;
    apply Z.compare_eq in He; subst e2; intros H.
  - destruct (Pos.compare_cont Eq m1 m2) eqn:Hm; try discriminate.
    apply Pos.compare_eq in Hm. now subst.
  - injection H as H. apply Pos.compare_eq in H. now subst.
Qed.

(** Two floats that compare equal compare alike with any third one. *)
Lemma SFcompare_eq_l (a b c : spec_float) :
  SFcompare a b = Some Eq -> SFcompare a c = SFcompare b c.
Proof.
  intros H.
  destruct a as [sa|sa| |sa ma ea], b as [sb|sb| |sb mb eb];
    try (simpl in H; discriminate);
    try (destruct sa; simpl in H; discriminate);
    try (destruct sb; simpl in H; discriminate).
  - destruct c; reflexivity.
  - destruct sa, sb; simpl in H; try discriminate; reflexivity.
  - apply SFcompare_finite_eq in H. destruct H as (-> & -> & ->). reflexivity.
Qed.

Lemma SFcompare_eq_r (a b c : spec_float) :
  SFcompare a b = Some Eq -> SFcompare c a = SFcompare c b.
Proof.
  intros H. rewrite (SFcompare_antisym a c), (SFcompare_antisym b c).
  now rewrite (SFcompare_eq_l a b c H).
Qed.

Lemma ltb_irrefl (x : float) : (x <? x)%float = false.
Proof.
  rewrite ltb_spec. unfold SFltb.
  destruct (SFcompare_refl (Prim2SF x)) as [-> | ->]; reflexivity.
Qed.

Lemma ltb_leb (x y : float) : (x <? y)%float = true -> (x <=? y)%float = true.
Proof.
  rewrite ltb_spec, leb_spec. unfold SFltb, SFleb.
  destruct (SFcompare (Prim2SF x) (Prim2SF y)) as [[ | | ]|]; auto.
Qed.

Lemma leb_not_gt (x y : float) : (x <=? y)%float = true -> (y <? x)%float = false.
Proof.
  rewrite ltb_spec, leb_spec. unfold SFltb, SFleb.
  rewrite (SFcompare_antisym (Prim2SF x) (Prim2SF y)).
  destruct (SFcompare (Prim2SF x) (Prim2SF y)) as [[ | | ]|];
    simpl; auto; discriminate.
Qed.

Lemma eqb_ltb_l (x y z : float) :
  (x =? y)%float = true -> (x <? z)%float = (y <? z)%float.
Proof.
  rewrite eqb_spec, !ltb_spec. unfold SFeqb, SFltb. intros H.
  destruct (SFcompare (Prim2SF x) (Prim2SF y)) as [[ | | ]|] eqn:E;
    try discriminate.
  now rewrite (SFcompare_eq_l _ _ _ E).
Qed.

Lemma eqb_ltb_r (x y z : float) :
  (x =? y)%float = true -> (z <? x)%float = (z <? y)%float.
Proof.
  rewrite eqb_spec, !ltb_spec. unfold SFeqb, SFltb. intros H.
  destruct (SFcompare (Prim2SF x) (Prim2SF y)) as [[ | | ]|] eqn:E;
    try discriminate.
  now rewrite (SFcompare_eq_r _ _ _ E).
Qed.

(** For two numbers, [x < y or y < x] is [x != y]. *)
Lemma ltb_or_ltb (x y : float) :
  is_nan x = false -> is_nan y = false ->
  ((y <? x) || (x <? y))%float = negb (x =? y)%float.
Proof.
  unfold is_nan. rewrite !eqb_spec, !ltb_spec. unfold SFeqb, SFltb.
  rewrite (SFcompare_antisym (Prim2SF x) (Prim2SF y)).
  destruct (Prim2SF x) as [sa|sa| |sa ma ea] eqn:Ex;
    destruct (Prim2SF y) as [sb|sb| |sb mb eb] eqn:Ey;
    try (simpl; discriminate); intros _ _;
    match goal with
    | |- context [SFcompare ?a ?b] => destruct (SFcompare a b) as [[ | | ]|] eqn:E
    end; try reflexivity.
  all: exfalso; revert E; simpl;
    try (destruct sa; discriminate); try (destruct sb; discriminate);
    try (destruct sa, sb; discriminate); discriminate.
Qed.

(** ** NaN *)

Lemma is_nan_true (x : float) : is_nan x = true <-> Prim2SF x = S754_nan.
Proof.
  unfold is_nan. rewrite eqb_spec. unfold SFeqb.
  destruct (Prim2SF x) as [s|s| |s m e] eqn:E; simpl.
  - split; discriminate.
  - destruct s; split; discriminate.
  - split; reflexivity.
  - rewrite Z.compare_refl, Pos.compare_cont_refl.
    destruct s; split; discriminate.
Qed.

Lemma is_nan_false (x : float) : is_nan x = false <-> Prim2SF x <> S754_nan.
Proof.
  rewrite <- is_nan_true. destruct (is_nan x); split; congruence.
Qed.

Lemma eq_nan (x : float) : Prim2SF x = S754_nan -> x = nan.
Proof. intros H. apply Prim2SF_inj. rewrite H. reflexivity. Qed.

Lemma ltb_nan_l (x y : float) : Prim2SF x = S754_nan -> (x <? y)%float = false.
Proof. intros H. rewrite ltb_spec, H. reflexivity. Qed.

Lemma ltb_nan_r (x y : float) : Prim2SF y = S754_nan -> (x <? y)%float = false.
Proof.
  intros H. rewrite ltb_spec, H. unfold SFltb.
  destruct (Prim2SF x) as [s|s| |s m e]; reflexivity.
Qed.

Lemma add_nan_l (x y : float) : Prim2SF x = S754_nan -> Prim2SF (x + y) = S754_nan.
Proof. intros H. rewrite add_spec, H. reflexivity. Qed.

Lemma add_nan_r (x y : float) : Prim2SF y = S754_nan -> Prim2SF (x + y) = S754_nan.
Proof.
  intros H. rewrite add_spec, H. destruct (Prim2SF x) as [s|s| |s m e]; reflexivity.
Qed.

Lemma sub_nan_l (x y : float) : Prim2SF x = S754_nan -> Prim2SF (x - y) = S754_nan.
Proof. intros H. rewrite sub_spec, H. reflexivity. Qed.

Lemma sub_nan_r (x y : float) : Prim2SF y = S754_nan -> Prim2SF (x - y) = S754_nan.
Proof.
  intros H. rewrite sub_spec, H. destruct (Prim2SF x) as [s|s| |s m e]; reflexivity.
Qed.

Lemma mul_nan_l (x y : float) : Prim2SF x = S754_nan -> Prim2SF (x * y) = S754_nan.
Proof. intros H. rewrite mul_spec, H. reflexivity. Qed.

Lemma mul_nan_r (x y : float) : Prim2SF y = S754_nan -> Prim2SF (x * y) = S754_nan.
Proof.
  intros H. rewrite mul_spec, H. destruct (Prim2SF x) as [s|s| |s m e]; reflexivity.
Qed.

Lemma div_nan_l (x y : float) : Prim2SF x = S754_nan -> Prim2SF (x / y) = S754_nan.
Proof. intros H. rewrite div_spec, H. reflexivity. Qed.

Lemma sqrt_nan (x : float) : Prim2SF x = S754_nan -> Prim2SF (PrimFloat.sqrt x) = S754_nan.
Proof. intros H. rewrite sqrt_spec, H. reflexivity. Qed.

(** ** Zeros *)

Lemma zn_add (x y : float) :
  F.zero_or_nan x -> F.zero_or_nan y -> F.zero_or_nan (x + y).
Proof.
  intros [Hx|[sx Hx]] [Hy|[sy Hy]]; unfold F.zero_or_nan;
    rewrite add_spec, Hx, Hy; simpl; auto.
  destruct sx, sy; eauto.
Qed.

Lemma zn_sub (x y : float) :
  F.zero_or_nan x -> F.zero_or_nan y -> F.zero_or_nan (x - y).
Proof.
  intros [Hx|[sx Hx]] [Hy|[sy Hy]]; unfold F.zero_or_nan;
    rewrite sub_spec, Hx, Hy; simpl; auto.
  destruct sx, sy; eauto.
Qed.

Lemma zn_mul_r (x y : float) : F.zero_or_nan y -> F.zero_or_nan (x * y).
Proof.
  intros [Hy|[sy Hy]]; unfold F.zero_or_nan; rewrite mul_spec, Hy;
    destruct (Prim2SF x); simpl; eauto.
Qed.

Lemma zn_div_l (x y : float) : F.zero_or_nan x -> F.zero_or_nan (x / y).
Proof.
  intros [Hx|[sx Hx]]; unfold F.zero_or_nan; rewrite div_spec, Hx;
    destruct (Prim2SF y); simpl; eauto.
Qed.

Lemma zn_sqrt (x : float) : F.zero_or_nan x -> F.zero_or_nan (PrimFloat.sqrt x).
Proof.
  intros [Hx|[sx Hx]]; unfold F.zero_or_nan; rewrite sqrt_spec, Hx;
    simpl; eauto.
Qed.

(** [x - x] is [+0] for a finite [x] and NaN otherwise. *)
Lemma zn_sub_diag (x : float) : F.zero_or_nan (x - x).
Proof.
  unfold F.zero_or_nan. rewrite sub_spec. unfold SF64sub.
  destruct (Prim2SF x) as [s|s| |s m e]; simpl.
  - destruct s; eauto.
  - destruct s; auto.
  - auto.
  - rewrite Z.sub_diag. simpl. eauto.
Qed.

Lemma zn_ltb (x y : float) :
  F.zero_or_nan x -> F.zero_or_nan y -> (x <? y)%float = false.
Proof.
  intros [Hx|[sx Hx]] [Hy|[sy Hy]]; rewrite ltb_spec, Hx, Hy; reflexivity.
Qed.

Lemma zn_zero : F.zero_or_nan 0%float.
Proof. right. exists false. reflexivity. Qed.

End FloatFacts.

(** * Magnitudes: which operations stay finite *)

Module Magnitude.

Local Open Scope Z_scope.

Lemma digits2_size (p : positive) : digits2_pos p = Pos.size p.
Proof. induction p; simpl; congruence. Qed.

Lemma Zdigits2_log2 (p : positive) :
  Zpos (digits2_pos p) = Z.log2 (Zpos p) + 1.
Proof.
  destruct p; simpl; rewrite ?digits2_size, ?Pos2Z.inj_succ; lia.
Qed.

Lemma Zdigits2_nonneg (m : Z) : 0 <= Zdigits2 m.
Proof. destruct m; simpl; lia. Qed.

Lemma Zdigits2_le (a b : Z) : 0 <= a <= b -> Zdigits2 a <= Zdigits2 b.
Proof.
  intros [Ha Hab]. destruct a as [|a|a]; [apply Zdigits2_nonneg| |lia].
  destruct b as [|b|b]; try lia.
  simpl. rewrite !Zdigits2_log2.
  pose proof (Z.log2_le_mono (Zpos a) (Zpos b) Hab). lia.
Qed.

Lemma Zdigits2_succ (m : Z) : 0 <= m -> Zdigits2 (m + 1) <= Zdigits2 m + 1.
Proof.
  intros Hm. destruct m as [|m|m]; [simpl; lia| |lia].
  change (Zpos m + 1) with (Zpos (m + 1)).
  unfold Zdigits2. rewrite !Zdigits2_log2.
  pose proof (Z.log2_succ_le (Zpos m)) as H.
  replace (Z.succ (Zpos m)) with (Zpos (m + 1)) in H by lia. lia.
Qed.

(** One step of right shift takes one digit off. *)
Lemma shr_1_digits (r : shr_record) :
  0 <= shr_m r ->
  0 <= shr_m (shr_1 r) /\
  Zdigits2 (shr_m (shr_1 r)) = Z.max 0 (Zdigits2 (shr_m r) - 1).
Proof.
  destruct r as [m r s]. cbn [shr_m]. intros Hm.
  destruct m as [|[p|p|]|p];
    cbn [shr_1 shr_m Zdigits2 digits2_pos];
    rewrite ?Pos2Z.inj_succ; lia.
Qed.

Lemma iter_shr_1_digits (n : positive) (r : shr_record) :
  0 <= shr_m r ->
  0 <= shr_m (SpecFloat.iter_pos shr_1 n r) /\
  Zdigits2 (shr_m (SpecFloat.iter_pos shr_1 n r)) = Z.max 0 (Zdigits2 (shr_m r) - Zpos n).
Proof.
  revert r. induction n as [n IH|n IH|]; intros r Hr; simpl.
  - destruct (shr_1_digits r Hr) as [H0 D0].
    destruct (IH _ H0) as [H1 D1].
    destruct (IH _ H1) as [H2 D2].
    split; [exact H2|]. rewrite D2, D1, D0. lia.
  - destruct (IH _ Hr) as [H1 D1].
    destruct (IH _ H1) as [H2 D2].
    split; [exact H2|]. rewrite D2, D1. lia.
  - apply shr_1_digits, Hr.
Qed.

Lemma shr_record_of_loc_m (m : Z) (l : location) :
  shr_m (shr_record_of_loc m l) = m.
Proof. destruct l as [|[ | | ]]; reflexivity. Qed.

(** [shr_fexp]: the new exponent, and digits plus exponent of the result. *)
Lemma shr_fexp_digits (m e : Z) (l : location) :
  0 <= m ->
  let '(r, e') := shr_fexp prec emax m e l in
  0 <= shr_m r /\
  e' = Z.max e (fexp prec emax (Zdigits2 m + e)) /\
  Zdigits2 (shr_m r) + e' = Z.max e' (Zdigits2 m + e).
Proof.
  intros Hm. unfold shr_fexp, shr.
  pose proof (Zdigits2_nonneg m) as Hd.
  destruct (fexp prec emax (Zdigits2 m + e) - e) as [|n|n] eqn:En.
  - rewrite shr_record_of_loc_m. lia.
  - destruct (iter_shr_1_digits n (shr_record_of_loc m l)) as [H0 D0].
    { now rewrite shr_record_of_loc_m. }
    rewrite shr_record_of_loc_m in D0. lia.
  - rewrite shr_record_of_loc_m. lia.
Qed.

Lemma round_nearest_even_digits (m : Z) (l : location) :
  0 <= m ->
  0 <= round_nearest_even m l /\
  Zdigits2 (round_nearest_even m l) <= Zdigits2 m + 1.
Proof.
  intros Hm. pose proof (Zdigits2_succ m Hm).
  unfold round_nearest_even.
  destruct l as [|[ | | ]]; try destruct (Z.even m); split; lia.
Qed.

Lemma binary_round_aux_within (sx : bool) (mx ex : Z) (lx : location) (B : Z) :
  0 <= mx -> ex <= 971 -> Zdigits2 mx + ex <= B -> -1074 <= B <= 1023 ->
  F.within (B + 1) (binary_round_aux prec emax sx mx ex lx).
Proof.
  intros Hm He Hd HB. unfold binary_round_aux.
  pose proof (shr_fexp_digits mx ex lx Hm) as H1.
  destruct (shr_fexp prec emax mx ex lx) as [r1 e1].
  destruct H1 as (Hr1 & He1 & Hd1).
  destruct (round_nearest_even_digits (shr_m r1) (loc_of_shr_record r1) Hr1)
    as [Hm2 Hd2].
  set (m2 := round_nearest_even (shr_m r1) (loc_of_shr_record r1)) in *.
  pose proof (shr_fexp_digits m2 e1 loc_Exact Hm2) as H2.
  destruct (shr_fexp prec emax m2 e1 loc_Exact) as [r2 e2].
  destruct H2 as (Hr2 & He2 & Hd3).
  pose proof (Zdigits2_nonneg mx) as Hn.
  unfold fexp, emin, prec, emax in *.
  assert (Hle : e2 <= 971) by lia.
  assert (Hw : Zdigits2 (shr_m r2) + e2 <= B + 1) by lia.
  clear - Hle Hw Hr2.
  destruct (shr_m r2) as [|m|m]; cbn [F.within].
  - exact I.
  - apply Z.leb_le in Hle. change (1024 - 53) with 971. rewrite Hle.
    exact Hw.
  - lia.
Qed.

Lemma binary_round_aux_number (sx : bool) (mx ex : Z) (lx : location) :
  0 <= mx -> binary_round_aux prec emax sx mx ex lx <> S754_nan.
Proof.
  intros Hm. unfold binary_round_aux.
  pose proof (shr_fexp_digits mx ex lx Hm) as H1.
  destruct (shr_fexp prec emax mx ex lx) as [r1 e1].
  destruct H1 as (Hr1 & _ & _).
  destruct (round_nearest_even_digits (shr_m r1) (loc_of_shr_record r1) Hr1)
    as [Hm2 _].
  set (m2 := round_nearest_even (shr_m r1) (loc_of_shr_record r1)) in *.
  pose proof (shr_fexp_digits m2 e1 loc_Exact Hm2) as H2.
  destruct (shr_fexp prec emax m2 e1 loc_Exact) as [r2 e2].
  destruct H2 as (Hr2 & _ & _).
  destruct (shr_m r2) as [|m|m]; try discriminate; try lia.
  destruct (e2 <=? emax - prec); discriminate.
Qed.

Lemma binary_normalize_number (m e : Z) (s : bool) :
  binary_normalize prec emax m e s <> S754_nan.
Proof.
  unfold binary_normalize, binary_round.
  destruct m as [|p|p]; try discriminate.
  - destruct (shl_align p e _) as [mz ez]. now apply binary_round_aux_number.
  - destruct (shl_align p e _) as [mz ez]. now apply binary_round_aux_number.
Qed.

Lemma within_le (B B' : Z) (x : spec_float) :
  B <= B' -> F.within B x -> F.within B' x.
Proof. destruct x; cbn [F.within]; auto. lia. Qed.

Lemma within_number (B : Z) (x : spec_float) : F.within B x -> x <> S754_nan.
Proof. destruct x; simpl; try discriminate; contradiction. Qed.

(** ** Multiplication *)

Lemma digits2_mul (a b : positive) :
  Zpos (digits2_pos (a * b)) <= Zpos (digits2_pos a) + Zpos (digits2_pos b).
Proof.
  rewrite !Zdigits2_log2.
  pose proof (Z.log2_mul_above (Zpos a) (Zpos b)).
  change (Zpos (a * b)) with (Zpos a * Zpos b). lia.
Qed.

Lemma SFmul_within (Bx By : Z) (x y : spec_float) :
  F.within Bx x -> F.within By y -> -1074 <= Bx + By <= 973 ->
  F.within (Bx + By + 1) (SFmul prec emax x y).
Proof.
  intros Hx Hy HB.
  destruct x as [sx|sx| |sx mx ex], y as [sy|sy| |sy my ey];
    cbn [F.within] in Hx, Hy; try contradiction; try exact I.
  unfold SFmul.
  pose proof (digits2_mul mx my).
  apply binary_round_aux_within; try lia.
  cbn [Zdigits2]. lia.
Qed.

(** ** Conversion from an integer *)

Lemma digits2_iter_xO (m : positive) (k : positive) :
  Zpos (digits2_pos (Pos.iter xO m k)) = Zpos (digits2_pos m) + Zpos k.
Proof.
  induction k as [|k IH] using Pos.peano_ind.
  - simpl. lia.
  - rewrite Pos.iter_succ. cbn [digits2_pos]. lia.
Qed.

Lemma shl_align_digits (mx : positive) (ex ex' : Z) :
  let '(mz, ez) := shl_align mx ex ex' in
  Zpos (digits2_pos mz) + ez = Zpos (digits2_pos mx) + ex /\ ez <= ex.
Proof.
  unfold shl_align. destruct (ex' - ex) as [|d|d] eqn:E; try lia.
  rewrite digits2_iter_xO. lia.
Qed.

Lemma binary_round_within (s : bool) (m : positive) (e B : Z) :
  e <= 971 -> Zpos (digits2_pos m) + e <= B -> -1074 <= B <= 1023 ->
  F.within (B + 1) (binary_round prec emax s m e).
Proof.
  intros He Hd HB. unfold binary_round.
  pose proof (shl_align_digits m e (fexp prec emax (Zpos (digits2_pos m) + e))) as H.
  destruct (shl_align m e _) as [mz ez]. destruct H as [H1 H2].
  apply binary_round_aux_within; try lia.
  cbn [Zdigits2]. lia.
Qed.

Lemma of_uint63_within (n : int) : F.within 64 (Prim2SF (of_uint63 n)).
Proof.
  rewrite of_uint63_spec.
  pose proof (Uint63.to_Z_bounded n) as Hb.
  unfold binary_normalize.
  destruct (Uint63.to_Z n) as [|p|p] eqn:E; try exact I; try lia.
  apply (binary_round_within false p 0 63); try lia.
  rewrite Zdigits2_log2.
  assert (Z.log2 (Zpos p) < 63); [|lia].
  apply Z.log2_lt_pow2; [lia|]. exact (proj2 Hb).
Qed.

(** ** Division *)

Lemma SFdiv_core_binary_digits (m1 m2 : positive) (e1 e2 : Z) :
  let '(q, e', l) := SFdiv_core_binary prec emax (Zpos m1) e1 (Zpos m2) e2 in
  0 <= q /\ e' <= e1 - e2 /\
  Zdigits2 q + e' <= Zpos (digits2_pos m1) + e1 - e2.
Proof.
  unfold SFdiv_core_binary.
  set (e' := Z.min _ (e1 - e2)).
  assert (He' : e' <= e1 - e2) by apply Z.le_min_r.
  set (s := e1 - e2 - e').
  set (m' := match s with Zpos _ => Z.shiftl (Zpos m1) s | Z0 => Zpos m1 | Zneg _ => 0 end).
  assert (Hm' : 0 < m' /\ Zdigits2 m' = Zpos (digits2_pos m1) + s).
  { unfold m'. destruct s as [|p|p] eqn:Es; try lia.
    - cbn [Zdigits2]. lia.
    - rewrite Z.shiftl_mul_pow2 by lia.
      assert (0 < 2 ^ Zpos p) by (apply Z.pow_pos_nonneg; lia).
      split; [lia|].
      destruct (Zpos m1 * 2 ^ Zpos p) as [|q|q] eqn:Eq; try lia.
      cbn [Zdigits2]. rewrite !Zdigits2_log2, <- Eq.
      rewrite <- Z.shiftl_mul_pow2 by lia.
      rewrite Z.log2_shiftl by lia. lia. }
  destruct Hm' as [Hpos Hdig].
  pose proof (Z_div_mod m' (Zpos m2) ltac:(lia)) as Hdm.
  destruct (Z.div_eucl m' (Zpos m2)) as [q r]. destruct Hdm as [Heq Hr].
  assert (Hq : 0 <= q <= m') by nia.
  pose proof (Zdigits2_le q m' Hq). cbv beta iota zeta. unfold s in *. lia.
Qed.

Lemma SFdiv_within (Bx : Z) (x : spec_float) (sy : bool) (my : positive) (ey : Z) :
  F.within Bx x -> -1074 <= Bx - ey <= 972 ->
  F.within (Bx - ey + 1) (SFdiv prec emax x (S754_finite sy my ey)).
Proof.
  intros Hx HB.
  destruct x as [sx|sx| |sx mx ex]; cbn [F.within] in Hx; try contradiction; try exact I.
  unfold SFdiv.
  pose proof (SFdiv_core_binary_digits mx my ex ey) as H.
  destruct (SFdiv_core_binary prec emax (Zpos mx) ex (Zpos my) ey) as [[q e'] l].
  destruct H as (Hq & He & Hd).
  apply binary_round_aux_within; lia.
Qed.

(** ** Addition *)

Lemma SFadd_number (x y : spec_float) (B : Z) :
  x <> S754_nan -> F.within B y -> SFadd prec emax x y <> S754_nan.
Proof.
  intros Hx Hy.
  destruct x as [sx|sx| |sx mx ex], y as [sy|sy| |sy my ey];
    simpl in Hy; try contradiction; try congruence; simpl; try discriminate.
  - destruct sx, sy; discriminate.
  - apply binary_normalize_number.
Qed.

Lemma valid_finite (x : float) (s : bool) (m : positive) (e : Z) :
  Prim2SF x = S754_finite s m e ->
  Zpos (digits2_pos m) <= 53 /\ e <= 971.
Proof.
  intros H. pose proof (Prim2SF_valid x) as V. rewrite H in V.
  cbn [valid_binary] in V. unfold bounded, canonical_mantissa in V.
  apply andb_prop in V. destruct V as [V1 V2].
  apply Z.eqb_eq in V1. apply Z.leb_le in V2.
  unfold fexp, emin, prec, emax in *. lia.
Qed.

Lemma range_within (v : float) :
  (-1 <=? v)%float = true -> (v <=? 1)%float = true -> F.within 1 (Prim2SF v).
Proof.
  rewrite !leb_spec. unfold SFleb.
  change (Prim2SF (-1)) with (S754_finite true 4503599627370496 (-52)).
  change (Prim2SF 1) with (S754_finite false 4503599627370496 (-52)).
  destruct (Prim2SF v) as [s|s| |s m e] eqn:E; cbn [F.within].
  - auto.
  - destruct s; simpl; discriminate.
  - simpl. discriminate.
  - destruct (valid_finite v s m e E) as [Hd He].
    destruct s; cbn [SFcompare].
    + intros H _. destruct (-52 ?= e) eqn:C; try discriminate H.
      * apply Z.compare_eq in C. clear H. lia.
      * rewrite Z.compare_gt_iff in C. lia.
    + intros _ H. destruct (e ?= -52) eqn:C; try discriminate H.
      * apply Z.compare_eq in C. clear H. lia.
      * rewrite Z.compare_lt_iff in C. lia.
Qed.

Lemma is_finite_within (x : float) :
  is_finite x = true <-> F.within 1024 (Prim2SF x).
Proof.
  unfold is_finite, is_nan, is_infinity.
  rewrite !eqb_spec, abs_spec. unfold SFeqb.
  change (Prim2SF infinity) with (S754_infinity false).
  destruct (Prim2SF x) as [s|s| |s m e] eqn:E; cbn [F.within SFabs].
  - simpl. tauto.
  - destruct s; simpl; split; (discriminate || contradiction).
  - simpl. split; (discriminate || contradiction).
  - destruct (valid_finite x s m e E) as [Hd He].
    assert (Hw : Zpos (digits2_pos m) + e <= 1024) by lia.
    cbn [SFcompare]. rewrite Z.compare_refl, Pos.compare_cont_refl.
    split; [intros _; exact Hw | intros _; destruct s; reflexivity].
Qed.

(** ** The same on primitive floats *)

Lemma mul_within (Bx By : Z) (x y : float) :
  F.within Bx (Prim2SF x) -> F.within By (Prim2SF y) ->
  -1074 <= Bx + By <= 973 ->
  F.within (Bx + By + 1) (Prim2SF (x * y)).
Proof. intros. rewrite mul_spec. now apply SFmul_within. Qed.

Lemma div_within (Bx : Z) (x y : float) (sy : bool) (my : positive) (ey : Z) :
  F.within Bx (Prim2SF x) -> Prim2SF y = S754_finite sy my ey ->
  -1074 <= Bx - ey <= 972 ->
  F.within (Bx - ey + 1) (Prim2SF (x / y)).
Proof. intros Hx Hy HB. rewrite div_spec, Hy. now apply SFdiv_within. Qed.

Lemma opp_within (B : Z) (x : float) :
  F.within B (Prim2SF x) -> F.within B (Prim2SF (- x)).
Proof. rewrite opp_spec. destruct (Prim2SF x); cbn [SFopp F.within]; auto. Qed.

Lemma of_Z_within (z : Z) : F.within 64 (Prim2SF (F.of_Z z)).
Proof. apply of_uint63_within. Qed.

Lemma of_int_within (z : Z) : F.within 64 (Prim2SF (F.of_int z)).
Proof.
  unfold F.of_int. destruct (z <? 0).
  - apply opp_within, of_Z_within.
  - apply of_Z_within.
Qed.

(** A number plus a finite number is a number. *)
Lemma add_number (B : Z) (x y : float) :
  is_nan x = false -> F.within B (Prim2SF y) -> is_nan (x + y) = false.
Proof.
  rewrite !FloatFacts.is_nan_false, add_spec. intros Hx Hy.
  now apply (SFadd_number _ _ B).
Qed.

End Magnitude.

(** * Rounding: the error of each operation *)

Module Rounding.

Import Real.

Local Open Scope R_scope.


(** ** Powers of two *)

Lemma bpow_pos (e : Z) : 0 < bpow e.
Proof. apply powerRZ_lt. lra. Qed.

Lemma bpow_add (a b : Z) : bpow (a + b) = bpow a * bpow b.
Proof. apply powerRZ_add. lra. Qed.

Lemma bpow_1 : bpow 1 = 2.
Proof. unfold bpow. simpl. lra. Qed.

Lemma bpow_IZR (n : Z) : (0 <= n)%Z -> bpow n = IZR (2 ^ n).
Proof.
  intros Hn. destruct n as [|p|p]; [reflexivity| |lia].
  unfold bpow. cbn [powerRZ].
  rewrite (pow_IZR 2 (Pos.to_nat p)), positive_nat_Z. reflexivity.
Qed.

Lemma bpow_ge_1 (n : Z) : (0 <= n)%Z -> 1 <= bpow n.
Proof.
  intros Hn. rewrite bpow_IZR by exact Hn. apply IZR_le.
  assert (0 < 2 ^ n)%Z by (apply Z.pow_pos_nonneg; lia). lia.
Qed.

Lemma bpow_le (a b : Z) : (a <= b)%Z -> bpow a <= bpow b.
Proof.
  intros H. replace b with (a + (b - a))%Z by lia. rewrite bpow_add.
  pose proof (bpow_pos a). pose proof (bpow_ge_1 (b - a) ltac:(lia)).
  rewrite <- (Rmult_1_r (bpow a)) at 1.
  apply Rmult_le_compat_l; lra.
Qed.

Lemma bpow_succ (a : Z) : bpow (a + 1) = 2 * bpow a.
Proof. rewrite bpow_add, bpow_1. lra. Qed.

Lemma bpow_pred (a : Z) : bpow (a - 1) = bpow a / 2.
Proof.
  replace a with ((a - 1) + 1)%Z at 2 by lia. rewrite bpow_succ. lra.
Qed.

(** ** The value of a float *)

(** ** Right shifts keep track of where the value lies *)

Lemma IZR_xO (p : positive) : IZR (Zpos p~0) = 2 * IZR (Zpos p).
Proof. change (Zpos p~0) with (2 * Zpos p)%Z. now rewrite mult_IZR. Qed.

Lemma IZR_xI (p : positive) : IZR (Zpos p~1) = 2 * IZR (Zpos p) + 1.
Proof.
  change (Zpos p~1) with (2 * Zpos p + 1)%Z. now rewrite plus_IZR, mult_IZR.
Qed.

Lemma shr_1_located (mrs : shr_record) (x : R) :
  (0 <= shr_m mrs)%Z -> located mrs x -> located (shr_1 mrs) (x / 2).
Proof.
  destruct mrs as [m r s]. unfold located. cbn [shr_m shr_r shr_s].
  intros Hm H.
  destruct m as [|[p|p|]|p]; try lia;
    destruct r, s; cbn [shr_1 orb shr_m shr_r shr_s half] in *;
    try rewrite (IZR_xO p) in H; try rewrite (IZR_xI p) in H; lra.
Qed.

Lemma iter_shr_1_located (p : positive) :
  forall (mrs : shr_record) (x : R),
    (0 <= shr_m mrs)%Z -> located mrs x ->
    located (SpecFloat.iter_pos shr_1 p mrs) (x / bpow (Zpos p)).
Proof.
  induction p as [p IH|p IH|]; intros mrs x Hm H; cbn [SpecFloat.iter_pos].
  - pose proof (bpow_pos (Zpos p)) as Hp.
    replace (x / bpow (Zpos p~1))
      with (x / 2 / bpow (Zpos p) / bpow (Zpos p)).
    + apply IH.
      * apply Magnitude.iter_shr_1_digits, Magnitude.shr_1_digits, Hm.
      * apply IH; [apply Magnitude.shr_1_digits, Hm|].
        now apply shr_1_located.
    + replace (Zpos p~1) with (Zpos p + Zpos p + 1)%Z by lia.
      rewrite !bpow_add, bpow_1. field. lra.
  - pose proof (bpow_pos (Zpos p)) as Hp.
    replace (x / bpow (Zpos p~0)) with (x / bpow (Zpos p) / bpow (Zpos p)).
    + apply IH; [apply Magnitude.iter_shr_1_digits, Hm|].
      now apply IH.
    + replace (Zpos p~0) with (Zpos p + Zpos p)%Z by lia.
      rewrite !bpow_add. field. lra.
  - rewrite bpow_1. now apply shr_1_located.
Qed.

(** After [shr_fexp] the record locates the same value, counted in units of
    the new exponent. *)
Lemma shr_fexp_located (m e : Z) (l : location) (v : R) :
  (0 <= m)%Z ->
  located (shr_record_of_loc m l) (v / bpow e) ->
  located (fst (shr_fexp prec emax m e l))
          (v / bpow (snd (shr_fexp prec emax m e l))).
Proof.
  intros Hm H. unfold shr_fexp, shr.
  destruct (fexp prec emax (Zdigits2 m + e) - e)%Z as [|n|n]; cbn [fst snd];
    try exact H.
  pose proof (bpow_pos e). pose proof (bpow_pos (Zpos n)).
  replace (v / bpow (e + Zpos n)) with (v / bpow e / bpow (Zpos n)).
  - apply iter_shr_1_located; [|exact H].
    now rewrite Magnitude.shr_record_of_loc_m.
  - rewrite bpow_add. field. lra.
Qed.

(** ** Rounding to nearest *)

Lemma round_nearest_even_error (mrs : shr_record) (x : R) :
  located mrs x ->
  Rabs (IZR (round_nearest_even (shr_m mrs) (loc_of_shr_record mrs)) - x) <= / 2.
Proof.
  destruct mrs as [m r s]. unfold located. cbn [shr_m shr_r shr_s].
  intros H. apply Rabs_le.
  destruct r, s; cbn [loc_of_shr_record round_nearest_even half] in *;
    try (destruct (Z.even m)); rewrite ?plus_IZR; lra.
Qed.

(** A value that is a whole number of units is kept as it is. *)
Lemma round_nearest_even_exact (mrs : shr_record) (k : Z) :
  located mrs (IZR k) ->
  round_nearest_even (shr_m mrs) (loc_of_shr_record mrs) = k.
Proof.
  destruct mrs as [m r s]. unfold located. cbn [shr_m shr_r shr_s].
  intros H.
  destruct r, s; cbn [loc_of_shr_record round_nearest_even half] in *.
  - exfalso. destruct H as [H1 H2].
    assert (IZR m < IZR k) by lra. apply lt_IZR in H.
    assert (IZR k < IZR (m + 1)) by (rewrite plus_IZR; lra).
    apply lt_IZR in H0. lia.
  - exfalso.
    assert (E : IZR (2 * k) = IZR (2 * m + 1))
      by (rewrite plus_IZR, !mult_IZR; lra).
    apply eq_IZR in E. lia.
  - exfalso. destruct H as [H1 H2].
    assert (IZR m < IZR k) by lra. apply lt_IZR in H.
    assert (IZR k < IZR (m + 1)) by (rewrite plus_IZR; lra).
    apply lt_IZR in H0. lia.
  - apply eq_IZR. lra.
Qed.


Lemma located_bounds (m : Z) (l : location) (x : R) :
  located (shr_record_of_loc m l) x -> IZR m <= x < IZR m + 1.
Proof.
  destruct l as [|[ | | ]]; unfold located; cbn [shr_record_of_loc shr_m shr_r shr_s half]; lra.
Qed.

Lemma digits2_bounds (m : Z) :
  (0 < m)%Z -> (2 ^ (Zdigits2 m - 1) <= m < 2 ^ Zdigits2 m)%Z.
Proof.
  destruct m as [|p|p]; try lia. intros _. cbn [Zdigits2].
  rewrite Magnitude.Zdigits2_log2.
  pose proof (Z.log2_spec (Zpos p) ltac:(lia)) as H.
  replace (Z.log2 (Zpos p) + 1 - 1)%Z with (Z.log2 (Zpos p)) by lia.
  replace (Z.log2 (Zpos p) + 1)%Z with (Z.succ (Z.log2 (Zpos p))) by lia.
  exact H.
Qed.

Lemma carry_pow2 (m : Z) :
  (0 <= m)%Z -> (Zdigits2 m <= 53)%Z -> (Zdigits2 (m + 1) = 54)%Z ->
  (m + 1 = 2 ^ 53)%Z.
Proof.
  intros Hm Hd Hd'.
  pose proof (digits2_bounds (m + 1) ltac:(lia)) as H1.
  rewrite Hd' in H1. change (54 - 1)%Z with 53%Z in H1.
  destruct (Z.eq_dec m 0) as [->|Hz]; [simpl in Hd'; lia|].
  pose proof (digits2_bounds m ltac:(lia)) as H2.
  assert (2 ^ Zdigits2 m <= 2 ^ 53)%Z by (apply Z.pow_le_mono_r; lia).
  lia.
Qed.

Lemma round_nearest_even_cases (m : Z) (l : location) :
  round_nearest_even m l = m \/ round_nearest_even m l = (m + 1)%Z.
Proof. destruct l as [|[ | | ]]; simpl; try destruct (Z.even m); auto. Qed.

(** The result of [binary_round_aux] on a value [v] located by [mx], [lx] in
    units of [2^ex]: unless it overflows, it is within half a unit of the
    exponent it rounds at, and equal to [v] when [v] is a whole number of
    such units. *)
Lemma binary_round_aux_spec (sx : bool) (mx ex : Z) (lx : location) (v : R) :
  (0 <= mx)%Z ->
  located (shr_record_of_loc mx lx) (v / bpow ex) ->
  (lx = loc_Exact \/ (ex <= fexp prec emax (Zdigits2 mx + ex))%Z) ->
  let e1 := Z.max ex (fexp prec emax (Zdigits2 mx + ex)) in
  let res := binary_round_aux prec emax sx mx ex lx in
  res <> S754_nan /\
  (SFfinite res = true ->
   exists w : R,
     SF2R res = (if sx then - w else w) /\
     0 <= w /\
     Rabs (w - v) <= bpow e1 / 2 /\
     ((exists k : Z, v = IZR k * bpow e1) -> w = v)).
Proof.
  intros Hm Hloc Hn e1 res.
  split; [now apply Magnitude.binary_round_aux_number|].
  subst res. unfold binary_round_aux.
  pose proof (Magnitude.shr_fexp_digits mx ex lx Hm) as H1.
  pose proof (shr_fexp_located mx ex lx v Hm Hloc) as L1.
  destruct (shr_fexp prec emax mx ex lx) as [r1 e1'].
  cbn [fst snd] in L1. destruct H1 as (Hr1 & He1 & Hd1).
  fold e1 in He1. subst e1'.
  destruct (Magnitude.round_nearest_even_digits (shr_m r1) (loc_of_shr_record r1) Hr1)
    as [Hmr Hdr].
  pose proof (round_nearest_even_error r1 _ L1) as E1.
  pose proof (round_nearest_even_exact r1) as X1.
  pose proof (round_nearest_even_cases (shr_m r1) (loc_of_shr_record r1)) as C1.
  set (mr := round_nearest_even (shr_m r1) (loc_of_shr_record r1)) in *.
  clearbody mr.
  pose proof (bpow_pos e1) as Hb.
  (* the second shift loses nothing *)
  assert (H2 : (0 <= shr_m (fst (shr_fexp prec emax mr e1 loc_Exact)))%Z /\
               IZR (shr_m (fst (shr_fexp prec emax mr e1 loc_Exact))) *
               bpow (snd (shr_fexp prec emax mr e1 loc_Exact)) =
               IZR mr * bpow e1).
  { unfold shr_fexp, shr.
    destruct (fexp prec emax (Zdigits2 mr + e1) - e1)%Z as [|n|n] eqn:En;
      cbn [fst snd shr_record_of_loc shr_m]; try (split; [exact Hmr | reflexivity]).
    pose proof (Magnitude.Zdigits2_nonneg mx) as Hd0.
    pose proof (Magnitude.Zdigits2_nonneg (shr_m r1)) as Hd2.
    assert (Hcase : (Zpos n = 1 /\ Zdigits2 mr = 54 /\ Zdigits2 (shr_m r1) = 53)%Z).
    { unfold e1, fexp, SpecFloat.emin, prec, emax in *.
      assert (Hex : (ex <= -1074 \/ ex > -1074)%Z) by lia.
      destruct Hn as [_ | Hn]; destruct Hex;
        [clear - Hd1 Hdr En Hd0 Hd2 H | clear - Hd1 Hdr En Hd0 Hd2 H
        |clear - Hd1 Hdr En Hd0 Hd2 H Hn | clear - Hd1 Hdr En Hd0 Hd2 H Hn];
        generalize dependent (Zdigits2 mr);
        generalize dependent (Zdigits2 (shr_m r1));
        generalize dependent (Zdigits2 mx); intros; lia. }
    destruct Hcase as (Hn1 & Hdm & Hd53).
    assert (Hmr53 : mr = (2 ^ 53)%Z).
    { destruct C1 as [C1 | C1].
      - rewrite C1 in Hdm. lia.
      - rewrite C1 in *. apply carry_pow2; lia. }
    injection Hn1 as ->. rewrite Hmr53.
    split; [vm_compute; discriminate|].
    change (shr_m (SpecFloat.iter_pos shr_1 1 {| shr_m := 2 ^ 53; shr_r := false; shr_s := false |}))
      with 4503599627370496%Z.
    change (2 ^ 53)%Z with 9007199254740992%Z.
    rewrite bpow_succ. lra. }
  destruct (shr_fexp prec emax mr e1 loc_Exact) as [r2 e2].
  cbn [fst snd] in H2. destruct H2 as [Hr2 Hv2].
  intros Hfin.
  assert (Hw : Rabs (IZR mr * bpow e1 - v) <= bpow e1 / 2).
  { replace (IZR mr * bpow e1 - v) with ((IZR mr - v / bpow e1) * bpow e1)
      by (field; lra).
    rewrite Rabs_mult, (Rabs_pos_eq (bpow e1)) by lra.
    apply Rmult_le_compat_r with (r := bpow e1) in E1; lra. }
  assert (Hx : (exists k : Z, v = IZR k * bpow e1) -> IZR mr * bpow e1 = v).
  { intros [k Hk]. rewrite Hk. f_equal. f_equal. apply X1.
    replace (IZR k) with (v / bpow e1); [exact L1|].
    rewrite Hk. field. lra. }
  assert (Hw0 : 0 <= IZR mr * bpow e1).
  { apply Rmult_le_pos; [apply IZR_le; lia | lra]. }
  set (w := IZR mr * bpow e1) in *. clearbody w.
  exists w. split; [|repeat split; assumption].
  destruct (shr_m r2) as [|m|m] eqn:Em; try lia.
  - cbn [SF2R]. assert (w = 0) by (rewrite <- Hv2; cbn [IZR]; lra).
    destruct sx; lra.
  - destruct (e2 <=? emax - prec)%Z; [|discriminate Hfin].
    cbn [SF2R]. rewrite <- Hv2.
    destruct sx; cbn [cond_Zopp]; [|reflexivity].
    change (- Z.pos m)%Z with (Z.opp (Z.pos m)). rewrite opp_IZR. lra.
Qed.


(** ** Unit roundoff and the underflow threshold *)

Lemma u_pos : 0 < u.
Proof. apply bpow_pos. Qed.

Lemma eta_pos : 0 < eta.
Proof. apply bpow_pos. Qed.

Lemma IZR_digits_le (m : Z) :
  (0 < m)%Z -> bpow (Zdigits2 m - 1) <= IZR m.
Proof.
  intros Hm. destruct (digits2_bounds m Hm) as [H _].
  assert (0 < Zdigits2 m)%Z by (destruct m; simpl in *; lia).
  rewrite bpow_IZR by lia. now apply IZR_le.
Qed.

(** Half a unit of the exponent rounded at is a relative error of at most
    [u], or, below the normal range, an absolute error of at most [eta]. *)
Lemma half_unit_bound (mx ex : Z) (lx : location) (v w : R) :
  (0 <= mx)%Z ->
  located (shr_record_of_loc mx lx) (v / bpow ex) ->
  (lx = loc_Exact \/ (ex <= fexp prec emax (Zdigits2 mx + ex))%Z) ->
  Rabs (w - v) <= bpow (Z.max ex (fexp prec emax (Zdigits2 mx + ex))) / 2 ->
  ((exists k : Z,
      v = IZR k * bpow (Z.max ex (fexp prec emax (Zdigits2 mx + ex)))) ->
   w = v) ->
  0 <= v /\
  Rabs (w - v) <= u * v + eta /\
  ((lx = loc_Exact /\ (-1074 <= ex)%Z \/ (-1074 <= Zdigits2 mx + ex - 53)%Z) ->
   Rabs (w - v) <= u * v).
Proof.
  intros Hm Hloc Hn Hw Hx.
  pose proof (bpow_pos ex) as Hbe.
  pose proof u_pos as Hu. pose proof eta_pos as Heta.
  destruct (located_bounds mx lx _ Hloc) as [Hlo _].
  assert (Hv : IZR mx * bpow ex <= v).
  { apply Rmult_le_compat_r with (r := bpow ex) in Hlo; [|lra].
    replace (v / bpow ex * bpow ex) with v in Hlo by (field; lra). exact Hlo. }
  assert (Hv0 : 0 <= v).
  { apply Rle_trans with (2 := Hv). apply Rmult_le_pos; [apply IZR_le; lia | lra]. }
  split; [exact Hv0|].
  assert (Hexact : lx = loc_Exact ->
            (fexp prec emax (Zdigits2 mx + ex) <= ex)%Z -> Rabs (w - v) = 0).
  { intros -> Hf. rewrite Hx; [replace (v - v) with 0 by lra; apply Rabs_R0|].
    exists mx. rewrite Z.max_l by lia.
    unfold located in Hloc. cbn [shr_record_of_loc shr_m shr_r shr_s half] in Hloc.
    rewrite Rplus_0_r in Hloc. rewrite <- Hloc. field. lra. }
  assert (Hmul : 0 <= u * v) by (apply Rmult_le_pos; lra).
  destruct (Z_lt_le_dec (fexp prec emax (Zdigits2 mx + ex)) ex) as [Hlt | Hge].
  - (* no shift: the value is exact *)
    destruct Hn as [Hn | Hn]; [|lia].
    rewrite (Hexact Hn ltac:(lia)). split; [lra | intros _; lra].
  - rewrite Z.max_r in Hw by lia.
    destruct (Z_lt_le_dec (Zdigits2 mx + ex - 53) (-1074)) as [Hsub | Hnorm].
    + (* below the normal range *)
      assert (Hf : fexp prec emax (Zdigits2 mx + ex) = (-1074)%Z).
      { unfold fexp, SpecFloat.emin, prec, emax. lia. }
      rewrite Hf in Hw, Hge.
      replace (bpow (-1074) / 2) with eta in Hw
        by (unfold eta; rewrite <- bpow_pred; reflexivity).
      split; [lra|].
      intros [[Hl He] | Hc]; [|lia].
      rewrite (Hexact Hl ltac:(lia)). lra.
    + (* the normal range *)
      assert (Hf : fexp prec emax (Zdigits2 mx + ex) = (Zdigits2 mx + ex - 53)%Z).
      { unfold fexp, SpecFloat.emin, prec, emax. lia. }
      rewrite Hf in Hw, Hge.
      assert (Hpos : (0 < mx)%Z).
      { destruct (Z.eq_dec mx 0) as [E|E]; [|lia].
        rewrite E in Hge. cbn [Zdigits2] in Hge. lia. }
      pose proof (IZR_digits_le mx Hpos) as Hd.
      assert (Hrel : bpow (Zdigits2 mx + ex - 53) / 2 <= u * v).
      { rewrite <- bpow_pred.
        replace (Zdigits2 mx + ex - 53 - 1)%Z
          with (-53 + ((Zdigits2 mx - 1) + ex))%Z by lia.
        rewrite !bpow_add. fold u.
        apply Rmult_le_compat_l; [lra|].
        apply Rle_trans with (2 := Hv).
        apply Rmult_le_compat_r; lra. }
      split; [lra | intros _; lra].
Qed.

(** [binary_round_aux] with its error. *)
Lemma binary_round_aux_error (sx : bool) (mx ex : Z) (lx : location) (v : R) :
  (0 <= mx)%Z ->
  located (shr_record_of_loc mx lx) (v / bpow ex) ->
  (lx = loc_Exact \/ (ex <= fexp prec emax (Zdigits2 mx + ex))%Z) ->
  let res := binary_round_aux prec emax sx mx ex lx in
  res <> S754_nan /\
  (SFfinite res = true ->
   exists w : R,
     SF2R res = (if sx then - w else w) /\
     0 <= w /\ 0 <= v /\
     Rabs (w - v) <= u * v + eta /\
     ((lx = loc_Exact /\ (-1074 <= ex)%Z \/ (-1074 <= Zdigits2 mx + ex - 53)%Z) ->
      Rabs (w - v) <= u * v) /\
     ((exists k : Z,
         v = IZR k * bpow (Z.max ex (fexp prec emax (Zdigits2 mx + ex)))) ->
      w = v)).
Proof.
  intros Hm Hloc Hn res.
  destruct (binary_round_aux_spec sx mx ex lx v Hm Hloc Hn) as [Hnan Hfin].
  split; [exact Hnan|]. intros Hf.
  destruct (Hfin Hf) as (w & Hw & Hw0 & Herr & Hx).
  destruct (half_unit_bound mx ex lx v w Hm Hloc Hn Herr Hx) as (Hv0 & Ha & Hb).
  exists w. repeat split; assumption.
Qed.

(** ** Alignment *)

Lemma Pos_iter_xO (m d : positive) :
  Zpos (Pos.iter xO m d) = (Zpos m * 2 ^ Zpos d)%Z.
Proof.
  induction d as [|d IH] using Pos.peano_ind.
  - simpl. lia.
  - rewrite Pos.iter_succ, Pos2Z.inj_xO, IH, Pos2Z.inj_succ, Z.pow_succ_r by lia.
    lia.
Qed.

Lemma shl_align_value (mx : positive) (ex ex' : Z) :
  IZR (Zpos (fst (shl_align mx ex ex'))) * bpow (snd (shl_align mx ex ex')) =
  IZR (Zpos mx) * bpow ex /\
  snd (shl_align mx ex ex') = Z.min ex ex'.
Proof.
  unfold shl_align. destruct (ex' - ex)%Z as [|d|d] eqn:E; cbn [fst snd].
  - split; [reflexivity | lia].
  - split; [reflexivity | lia].
  - split; [|lia].
    rewrite Pos_iter_xO, mult_IZR, <- bpow_IZR by lia.
    rewrite Rmult_assoc, <- bpow_add. f_equal. f_equal. lia.
Qed.

(** [binary_round] with its error: [v = m * 2^e] is rounded at the exponent
    [fexp (digits m + e)]. *)
Lemma binary_round_error (s : bool) (m : positive) (e : Z) :
  let v := IZR (Zpos m) * bpow e in
  let res := binary_round prec emax s m e in
  res <> S754_nan /\
  (SFfinite res = true ->
   exists w : R,
     SF2R res = (if s then - w else w) /\
     0 <= w /\
     Rabs (w - v) <= u * v + eta /\
     ((-1074 <= e)%Z -> Rabs (w - v) <= u * v) /\
     ((exists k : Z,
         v = IZR k * bpow (fexp prec emax (Zpos (digits2_pos m) + e))) ->
      w = v)).
Proof.
  intros v res. subst res. unfold binary_round.
  pose proof (Magnitude.shl_align_digits m e
                (fexp prec emax (Zpos (digits2_pos m) + e))) as Hd.
  pose proof (shl_align_value m e
                (fexp prec emax (Zpos (digits2_pos m) + e))) as Hv.
  destruct (shl_align m e (fexp prec emax (Zpos (digits2_pos m) + e)))
    as [mz ez].
  cbn [fst snd] in Hv. destruct Hd as [Hd Hle]. destruct Hv as [Hv Hez].
  fold v in Hv.
  pose proof (bpow_pos ez) as Hb.
  assert (Hloc : located (shr_record_of_loc (Zpos mz) loc_Exact) (v / bpow ez)).
  { unfold located. cbn [shr_record_of_loc shr_m shr_r shr_s half].
    rewrite <- Hv. field. lra. }
  destruct (binary_round_aux_error s (Zpos mz) ez loc_Exact v ltac:(lia) Hloc
              (or_introl eq_refl)) as [Hnan Hfin].
  split; [exact Hnan|]. intros Hf.
  destruct (Hfin Hf) as (w & Hw & Hw0 & Hv0 & Ha & Hb' & Hx).
  exists w. repeat split; try assumption.
  - intros He. apply Hb'. left. split; [reflexivity|].
    rewrite Hez. unfold fexp, SpecFloat.emin, prec, emax. lia.
  - intros Hk. apply Hx. cbn [Zdigits2]. rewrite Hd.
    replace (Z.max ez (fexp prec emax (Zpos (digits2_pos m) + e)))
      with (fexp prec emax (Zpos (digits2_pos m) + e)) by lia.
    exact Hk.
Qed.

(** [binary_normalize] on an integer [M] at exponent [e]. *)
Lemma binary_normalize_error (M e : Z) (sz : bool) :
  let v := IZR M * bpow e in
  let res := binary_normalize prec emax M e sz in
  res <> S754_nan /\
  (SFfinite res = true ->
   Rabs (SF2R res - v) <= u * Rabs v + eta /\
   ((-1074 <= e)%Z -> Rabs (SF2R res - v) <= u * Rabs v) /\
   ((exists k : Z, v = IZR k * bpow (fexp prec emax (Zdigits2 M + e))) ->
    SF2R res = v)).
Proof.
  intros v res. subst res v. pose proof eta_pos as Heta.
  pose proof (bpow_pos e) as Hb.
  destruct M as [|m|m]; cbn [binary_normalize].
  - split; [discriminate|]. intros _. cbn [SF2R].
    rewrite Rmult_0_l, Rminus_0_r, Rabs_R0. repeat split; try lra.
  - destruct (binary_round_error false m e) as [Hnan Hfin].
    split; [exact Hnan|]. intros Hf.
    destruct (Hfin Hf) as (w & Hw & Hw0 & Ha & Hb' & Hx).
    rewrite Hw.
    assert (Hv : 0 <= IZR (Zpos m) * bpow e).
    { apply Rmult_le_pos; [apply IZR_le; lia | lra]. }
    rewrite (Rabs_pos_eq _ Hv). cbn [Zdigits2]. repeat split; assumption.
  - destruct (binary_round_error true m e) as [Hnan Hfin].
    split; [exact Hnan|]. intros Hf.
    destruct (Hfin Hf) as (w & Hw & Hw0 & Ha & Hb' & Hx).
    rewrite Hw.
    assert (Hv : 0 <= IZR (Zpos m) * bpow e).
    { apply Rmult_le_pos; [apply IZR_le; lia | lra]. }
    assert (Hneg : IZR (Zneg m) * bpow e = - (IZR (Zpos m) * bpow e)).
    { change (Zneg m) with (Z.opp (Zpos m)). rewrite opp_IZR. lra. }
    rewrite Hneg, Rabs_Ropp, (Rabs_pos_eq _ Hv).
    replace (- w - - (IZR (Zpos m) * bpow e))
      with (- (w - IZR (Zpos m) * bpow e)) by lra.
    rewrite Rabs_Ropp. cbn [Zdigits2]. repeat split; try assumption.
    intros [k Hk]. f_equal. apply Hx. exists (- k)%Z.
    rewrite opp_IZR. lra.
Qed.

(** ** The operations, on [spec_float] *)

Lemma Prim2SF_wf (x : float) : SFwf (Prim2SF x).
Proof.
  pose proof (Prim2SF_valid x) as V.
  destruct (Prim2SF x) as [s|s| |s m e]; cbn [SFwf]; auto.
  cbn [valid_binary] in V. unfold bounded, canonical_mantissa in V.
  apply andb_prop in V. destruct V as [V _]. apply Z.eqb_eq in V.
  unfold fexp, SpecFloat.emin, prec, emax in V. lia.
Qed.

Lemma mag_pos (m : positive) (e : Z) : 0 < mag m e.
Proof.
  unfold mag. apply Rmult_lt_0_compat; [apply IZR_lt; lia | apply bpow_pos].
Qed.

Lemma SF2R_finite (s : bool) (m : positive) (e : Z) :
  SF2R (S754_finite s m e) = if s then - mag m e else mag m e.
Proof.
  unfold mag. cbn [SF2R]. destruct s; cbn [cond_Zopp]; [|reflexivity].
  change (- Z.pos m)%Z with (Z.opp (Z.pos m)). rewrite opp_IZR. lra.
Qed.

Lemma IZR_cond_Zopp (s : bool) (z : Z) :
  IZR (cond_Zopp s z) = if s then - IZR z else IZR z.
Proof. destruct s; cbn [cond_Zopp]; [apply opp_IZR | reflexivity]. Qed.

Lemma aligned_value (s : bool) (m : positive) (e ez : Z) :
  (ez <= e)%Z ->
  IZR (cond_Zopp s (Zpos (fst (shl_align m e ez)))) * bpow ez =
  SF2R (S754_finite s m e).
Proof.
  intros H. destruct (shl_align_value m e ez) as [Hv Hs].
  rewrite Z.min_r in Hs by lia. rewrite Hs in Hv.
  rewrite IZR_cond_Zopp, SF2R_finite. unfold mag.
  destruct s; lra.
Qed.

Lemma exact_rel (a : R) : Rabs (a - a) <= u * Rabs a.
Proof.
  replace (a - a) with 0 by lra. rewrite Rabs_R0.
  apply Rmult_le_pos; [pose proof u_pos; lra | apply Rabs_pos].
Qed.

Lemma exact_abs (a : R) : Rabs (a - a) <= u * Rabs a + eta.
Proof. pose proof (exact_rel a). pose proof eta_pos. lra. Qed.

Lemma SFadd_error (x y : spec_float) :
  SFwf x -> SFwf y -> SFfinite (SFadd prec emax x y) = true ->
  SFfinite x = true /\ SFfinite y = true /\
  Rabs (SF2R (SFadd prec emax x y) - (SF2R x + SF2R y)) <=
  u * Rabs (SF2R x + SF2R y).
Proof.
  intros Hx Hy.
  destruct x as [sx|sx| |sx mx ex], y as [sy|sy| |sy my ey];
    cbn [SFadd SFfinite]; try discriminate;
    try (destruct sx, sy; discriminate).
  - intros _. repeat split.
    replace (SF2R (if sx then if sy then S754_zero sx else S754_zero false
                   else if sy then S754_zero false else S754_zero sx))
      with (SF2R (S754_zero sx) + SF2R (S754_zero sy))
      by (destruct sx, sy; cbn [SF2R]; lra).
    apply exact_rel.
  - intros _. repeat split.
    replace (SF2R (S754_zero sx) + SF2R (S754_finite sy my ey))
      with (SF2R (S754_finite sy my ey)) by (cbn [SF2R]; lra).
    apply exact_rel.
  - intros _. repeat split.
    replace (SF2R (S754_finite sx mx ex) + SF2R (S754_zero sy))
      with (SF2R (S754_finite sx mx ex)) by (cbn [SF2R]; lra).
    apply exact_rel.
  - cbn [SFwf] in Hx, Hy. intros Hf.
    set (ez := Z.min ex ey) in *.
    destruct (binary_normalize_error
                (cond_Zopp sx (Zpos (fst (shl_align mx ex ez))) +
                 cond_Zopp sy (Zpos (fst (shl_align my ey ez)))) ez false)
      as [_ H].
    destruct (H Hf) as (_ & Hrel & _).
    rewrite plus_IZR, Rmult_plus_distr_r in Hrel.
    rewrite !aligned_value in Hrel by (unfold ez; lia).
    repeat split. apply Hrel. unfold ez. lia.
Qed.

Lemma SFsub_error (x y : spec_float) :
  SFwf x -> SFwf y -> SFfinite (SFsub prec emax x y) = true ->
  SFfinite x = true /\ SFfinite y = true /\
  Rabs (SF2R (SFsub prec emax x y) - (SF2R x - SF2R y)) <=
  u * Rabs (SF2R x - SF2R y).
Proof.
  intros Hx Hy.
  destruct x as [sx|sx| |sx mx ex], y as [sy|sy| |sy my ey];
    cbn [SFsub SFfinite]; try discriminate;
    try (destruct sx, sy; discriminate).
  - intros _. repeat split.
    replace (SF2R (if sx then if sy then S754_zero false else S754_zero sx
                   else if sy then S754_zero sx else S754_zero false))
      with (SF2R (S754_zero sx) - SF2R (S754_zero sy))
      by (destruct sx, sy; cbn [SF2R]; lra).
    apply exact_rel.
  - intros _. repeat split.
    replace (SF2R (S754_finite (negb sy) my ey))
      with (SF2R (S754_zero sx) - SF2R (S754_finite sy my ey))
      by (rewrite !SF2R_finite; cbn [SF2R]; destruct sy; cbn [negb]; lra).
    apply exact_rel.
  - intros _. repeat split.
    replace (SF2R (S754_finite sx mx ex) - SF2R (S754_zero sy))
      with (SF2R (S754_finite sx mx ex)) by (cbn [SF2R]; lra).
    apply exact_rel.
  - cbn [SFwf] in Hx, Hy. intros Hf.
    set (ez := Z.min ex ey) in *.
    destruct (binary_normalize_error
                (cond_Zopp sx (Zpos (fst (shl_align mx ex ez))) -
                 cond_Zopp sy (Zpos (fst (shl_align my ey ez)))) ez false)
      as [_ H].
    destruct (H Hf) as (_ & Hrel & _).
    rewrite minus_IZR, Rmult_minus_distr_r in Hrel.
    rewrite !aligned_value in Hrel by (unfold ez; lia).
    repeat split. apply Hrel. unfold ez. lia.
Qed.

Lemma SFmul_error (x y : spec_float) :
  SFfinite (SFmul prec emax x y) = true ->
  SFfinite x = true /\ SFfinite y = true /\
  Rabs (SF2R (SFmul prec emax x y) - SF2R x * SF2R y) <=
  u * Rabs (SF2R x * SF2R y) + eta.
Proof.
  destruct x as [sx|sx| |sx mx ex], y as [sy|sy| |sy my ey];
    cbn [SFmul SFfinite]; try discriminate.
  - intros _. repeat split.
    replace (SF2R (S754_zero (xorb sx sy)))
      with (SF2R (S754_zero sx) * SF2R (S754_zero sy)) by (cbn [SF2R]; lra).
    apply exact_abs.
  - intros _. repeat split.
    replace (SF2R (S754_zero (xorb sx sy)))
      with (SF2R (S754_zero sx) * SF2R (S754_finite sy my ey))
      by (cbn [SF2R]; lra).
    apply exact_abs.
  - intros _. repeat split.
    replace (SF2R (S754_zero (xorb sx sy)))
      with (SF2R (S754_finite sx mx ex) * SF2R (S754_zero sy))
      by (cbn [SF2R]; lra).
    apply exact_abs.
  - intros Hf.
    pose proof (mag_pos mx ex) as Hmx. pose proof (mag_pos my ey) as Hmy.
    pose proof (bpow_pos (ex + ey)) as Hb.
    assert (Hv : mag mx ex * mag my ey = IZR (Zpos (mx * my)) * bpow (ex + ey)).
    { unfold mag. rewrite Pos2Z.inj_mul, mult_IZR, bpow_add. ring. }
    assert (Hloc : located (shr_record_of_loc (Zpos (mx * my)) loc_Exact)
                     (mag mx ex * mag my ey / bpow (ex + ey))).
    { unfold located. cbn [shr_record_of_loc shr_m shr_r shr_s half].
      rewrite Hv. field. lra. }
    destruct (binary_round_aux_error (xorb sx sy) (Zpos (mx * my)) (ex + ey)
                loc_Exact _ ltac:(lia) Hloc (or_introl eq_refl)) as [_ H].
    destruct (H Hf) as (w & Hw & Hw0 & Hv0 & Ha & _).
    rewrite Hw, !SF2R_finite. repeat split.
    assert (Hp : 0 < mag mx ex * mag my ey) by (apply Rmult_lt_0_compat; lra).
    destruct sx, sy; cbn [xorb].
    + replace (- mag mx ex * - mag my ey) with (mag mx ex * mag my ey) by ring.
      rewrite (Rabs_pos_eq (mag mx ex * mag my ey)) by lra. exact Ha.
    + replace (- w - - mag mx ex * mag my ey)
        with (- (w - mag mx ex * mag my ey)) by ring.
      replace (- mag mx ex * mag my ey) with (- (mag mx ex * mag my ey)) by ring.
      rewrite !Rabs_Ropp, (Rabs_pos_eq (mag mx ex * mag my ey)) by lra. exact Ha.
    + replace (- w - mag mx ex * - mag my ey)
        with (- (w - mag mx ex * mag my ey)) by ring.
      replace (mag mx ex * - mag my ey) with (- (mag mx ex * mag my ey)) by ring.
      rewrite !Rabs_Ropp, (Rabs_pos_eq (mag mx ex * mag my ey)) by lra. exact Ha.
    + rewrite (Rabs_pos_eq (mag mx ex * mag my ey)) by lra. exact Ha.
Qed.

(** ** Division *)

Lemma signed_error (s : bool) (w v E : R) :
  0 <= v -> Rabs (w - v) <= u * v + E ->
  Rabs ((if s then - w else w) - (if s then - v else v)) <=
  u * Rabs (if s then - v else v) + E.
Proof.
  intros Hv H. destruct s.
  - replace (- w - - v) with (- (w - v)) by lra.
    now rewrite !Rabs_Ropp, (Rabs_pos_eq v Hv).
  - now rewrite (Rabs_pos_eq v Hv).
Qed.

Lemma new_location_located (m2 q r : Z) :
  (0 < m2)%Z -> (0 <= r < m2)%Z ->
  located (shr_record_of_loc q (new_location m2 r)) (IZR q + IZR r / IZR m2).
Proof.
  intros Hm Hr.
  assert (Hm' : 0 < IZR m2) by (apply IZR_lt; lia).
  set (t := IZR r / IZR m2).
  assert (Ht : t * IZR m2 = IZR r) by (unfold t; field; lra).
  assert (Hzero : r = 0%Z ->
            located (shr_record_of_loc q loc_Exact) (IZR q + t)).
  { intros E. assert (t = 0) by (unfold t; rewrite E; unfold Rdiv; apply Rmult_0_l).
    unfold located. cbn [shr_record_of_loc shr_m shr_r shr_s half]. lra. }
  assert (Hcmp : forall c : comparison,
             r <> 0%Z -> (2 * r ?= m2)%Z = c ->
             located (shr_record_of_loc q (loc_Inexact c)) (IZR q + t)).
  { intros c Hr0 Hc.
    assert (Hrpos : 0 < IZR r) by (apply IZR_lt; lia).
    assert (Htpos : 0 < t) by (unfold t; apply Rdiv_lt_0_compat; lra).
    unfold located. destruct c.
    - apply Z.compare_eq in Hc.
      assert (E : 2 * IZR r = IZR m2) by (rewrite <- Hc, mult_IZR; lra).
      cbn [shr_record_of_loc shr_m shr_r shr_s half]. nra.
    - rewrite Z.compare_lt_iff in Hc. apply IZR_lt in Hc.
      rewrite mult_IZR in Hc.
      cbn [shr_record_of_loc shr_m shr_r shr_s half]. nra.
    - rewrite Z.compare_gt_iff in Hc. apply IZR_lt in Hc.
      rewrite mult_IZR in Hc.
      assert (IZR r < IZR m2) by (apply IZR_lt; lia).
      cbn [shr_record_of_loc shr_m shr_r shr_s half]. nra. }
  unfold new_location. destruct (Z.even m2) eqn:Ev.
  - unfold new_location_even.
    destruct (Z.eqb_spec r 0) as [E0 | E0]; [now apply Hzero|].
    now apply Hcmp.
  - unfold new_location_odd.
    destruct (Z.eqb_spec r 0) as [E0 | E0]; [now apply Hzero|].
    destruct (2 * r + 1 ?= m2)%Z eqn:C.
    + apply Z.compare_eq in C. apply Hcmp; [exact E0|].
      rewrite Z.compare_lt_iff. lia.
    + rewrite Z.compare_lt_iff in C. apply Hcmp; [exact E0|].
      rewrite Z.compare_lt_iff. lia.
    + rewrite Z.compare_gt_iff in C. apply Hcmp; [exact E0|].
      rewrite Z.compare_gt_iff.
      assert (2 * r <> m2)%Z.
      { intros E. rewrite <- E, Z.even_mul in Ev. discriminate. }
      lia.
Qed.

Lemma digits2_div (a b q r : Z) :
  (0 < a)%Z -> (0 < b)%Z -> a = (b * q + r)%Z -> (0 <= r < b)%Z ->
  (Zdigits2 a - Zdigits2 b <= Zdigits2 q)%Z.
Proof.
  intros Ha Hb E Hr.
  assert (Hq : (0 <= q)%Z) by nia.
  pose proof (Magnitude.Zdigits2_nonneg q) as Hdq.
  destruct (digits2_bounds a Ha) as [Hal _].
  destruct (digits2_bounds b Hb) as [_ Hbu].
  assert (Hda : (0 < Zdigits2 a)%Z) by (destruct a; simpl in *; lia).
  assert (Hdb : (0 < Zdigits2 b)%Z) by (destruct b; simpl in *; lia).
  destruct (Z_lt_le_dec (Zdigits2 q) (Zdigits2 a - Zdigits2 b)) as [Hlt|];
    [exfalso | assumption].
  assert (Hqu : (q + 1 <= 2 ^ Zdigits2 q)%Z).
  { destruct (Z.eq_dec q 0) as [->|]; [simpl; lia|].
    destruct (digits2_bounds q ltac:(lia)). lia. }
  assert (H1 : (a < b * (q + 1))%Z) by nia.
  assert (H2 : (b * (q + 1) <= 2 ^ Zdigits2 b * 2 ^ Zdigits2 q)%Z).
  { apply Z.mul_le_mono_nonneg; lia. }
  rewrite <- Z.pow_add_r in H2 by lia.
  assert (H3 : (2 ^ (Zdigits2 b + Zdigits2 q) <= 2 ^ (Zdigits2 a - 1))%Z).
  { apply Z.pow_le_mono_r; lia. }
  lia.
Qed.

Lemma SFdiv_core_binary_located (m1 m2 : positive) (e1 e2 : Z) :
  let '(q, e', l) := SFdiv_core_binary prec emax (Zpos m1) e1 (Zpos m2) e2 in
  (0 <= q)%Z /\
  located (shr_record_of_loc q l) (mag m1 e1 / mag m2 e2 / bpow e') /\
  (e' <= fexp prec emax (Zdigits2 q + e'))%Z.
Proof.
  unfold SFdiv_core_binary.
  set (e' := Z.min _ (e1 - e2)).
  assert (He' : (e' <= e1 - e2)%Z) by apply Z.le_min_r.
  assert (He'' : (e' <= fexp prec emax
                          (Zdigits2 (Zpos m1) + e1 - (Zdigits2 (Zpos m2) + e2)))%Z)
    by apply Z.le_min_l.
  set (s := (e1 - e2 - e')%Z).
  set (m' := match s with
             | Zpos _ => Z.shiftl (Zpos m1) s
             | Z0 => Zpos m1
             | Zneg _ => 0%Z
             end).
  assert (Hm' : m' = (Zpos m1 * 2 ^ s)%Z).
  { unfold m'. destruct s as [|p|p] eqn:Es; try lia.
    rewrite Z.shiftl_mul_pow2 by lia. reflexivity. }
  assert (Hs : (0 <= s)%Z) by (unfold s; lia).
  assert (Hp : (0 < 2 ^ s)%Z) by (apply Z.pow_pos_nonneg; lia).
  assert (Hpos : (0 < m')%Z) by (rewrite Hm'; lia).
  assert (Hdig : Zdigits2 m' = (Zpos (digits2_pos m1) + s)%Z).
  { rewrite Hm'. destruct (Zpos m1 * 2 ^ s)%Z as [|q|q] eqn:Eq; try lia.
    cbn [Zdigits2]. rewrite !Magnitude.Zdigits2_log2, <- Eq.
    rewrite <- Z.shiftl_mul_pow2 by lia.
    rewrite Z.log2_shiftl by lia. lia. }
  pose proof (Z_div_mod m' (Zpos m2) ltac:(lia)) as Hdm.
  destruct (Z.div_eucl m' (Zpos m2)) as [q r]. destruct Hdm as [Heq Hr].
  assert (Hq : (0 <= q)%Z) by nia.
  pose proof (digits2_div m' (Zpos m2) q r Hpos ltac:(lia) Heq Hr) as Hdq.
  split; [exact Hq|]. split.
  - pose proof (new_location_located (Zpos m2) q r ltac:(lia) Hr) as L.
    replace (mag m1 e1 / mag m2 e2 / bpow e')
      with (IZR q + IZR r / IZR (Zpos m2)); [exact L|].
    pose proof (bpow_pos e1). pose proof (bpow_pos e2). pose proof (bpow_pos e').
    assert (0 < IZR (Zpos m2)) by (apply IZR_lt; lia).
    assert (Hm1 : IZR (Zpos m1) * bpow s = IZR (Zpos m2) * IZR q + IZR r).
    { rewrite bpow_IZR by lia.
      rewrite <- mult_IZR, <- Hm', Heq, plus_IZR, mult_IZR. reflexivity. }
    assert (Hb : bpow e1 = bpow s * bpow e2 * bpow e').
    { rewrite <- !bpow_add. f_equal. unfold s. lia. }
    replace (IZR q + IZR r / IZR (Zpos m2))
      with ((IZR (Zpos m2) * IZR q + IZR r) / IZR (Zpos m2)) by (field; lra).
    rewrite <- Hm1. unfold mag. rewrite Hb. field. lra.
  - cbn [Zdigits2] in Hdq, He''. rewrite Hdig in Hdq.
    unfold fexp, SpecFloat.emin, prec, emax in *.
    assert (Hc : (e' <= -1074 \/ -1074 < e')%Z) by lia.
    destruct Hc; lia.
Qed.

Lemma SFdiv_error (x : spec_float) (sy : bool) (my : positive) (ey : Z) :
  SFfinite (SFdiv prec emax x (S754_finite sy my ey)) = true ->
  SFfinite x = true /\
  Rabs (SF2R (SFdiv prec emax x (S754_finite sy my ey)) -
        SF2R x / SF2R (S754_finite sy my ey)) <=
  u * Rabs (SF2R x / SF2R (S754_finite sy my ey)) + eta.
Proof.
  destruct x as [sx|sx| |sx mx ex]; cbn [SFdiv SFfinite]; try discriminate.
  - intros _. split; [reflexivity|].
    replace (SF2R (S754_zero (xorb sx sy)))
      with (SF2R (S754_zero sx) / SF2R (S754_finite sy my ey))
      by (cbn [SF2R]; unfold Rdiv; now rewrite Rmult_0_l).
    apply exact_abs.
  - pose proof (SFdiv_core_binary_located mx my ex ey) as H.
    destruct (SFdiv_core_binary prec emax (Zpos mx) ex (Zpos my) ey)
      as [[q e'] l].
    destruct H as (Hq & Hloc & Hn).
    destruct (binary_round_aux_error (xorb sx sy) q e' l _ Hq Hloc (or_intror Hn))
      as [_ H].
    intros Hf. destruct (H Hf) as (w & Hw & Hw0 & Hv0 & Ha & _).
    split; [reflexivity|].
    rewrite Hw, !SF2R_finite.
    pose proof (mag_pos mx ex). pose proof (mag_pos my ey).
    replace ((if sx then - mag mx ex else mag mx ex) /
             (if sy then - mag my ey else mag my ey))
      with (if xorb sx sy then - (mag mx ex / mag my ey)
            else mag mx ex / mag my ey)
      by (destruct sx, sy; cbn [xorb]; field; lra).
    now apply signed_error.
Qed.

(** ** Square root *)

Lemma digits2_unique (q k : Z) :
  (2 ^ (k - 1) <= q < 2 ^ k)%Z -> (0 < q)%Z -> Zdigits2 q = k.
Proof.
  intros [Hl Hu] Hq.
  destruct (digits2_bounds q Hq) as [Hl' Hu'].
  assert (Hd : (0 < Zdigits2 q)%Z) by (destruct q; simpl in *; lia).
  assert (Hk : (0 < k)%Z).
  { destruct (Z_lt_le_dec 0 k) as [|Hk]; [assumption|].
    assert (2 ^ k <= 2 ^ 0)%Z by (apply Z.pow_le_mono_r; lia).
    simpl in *. lia. }
  destruct (Z.lt_trichotomy (Zdigits2 q) k) as [H | [H | H]]; [|exact H|].
  - assert (2 ^ Zdigits2 q <= 2 ^ (k - 1))%Z by (apply Z.pow_le_mono_r; lia).
    lia.
  - assert (2 ^ k <= 2 ^ (Zdigits2 q - 1))%Z by (apply Z.pow_le_mono_r; lia).
    lia.
Qed.

Lemma half_bounds (a : Z) : (2 * (a / 2) <= a <= 2 * (a / 2) + 1)%Z.
Proof.
  pose proof (Z_div_mod_eq_full a 2). pose proof (Z.mod_pos_bound a 2). lia.
Qed.

Lemma digits2_sqrt (m : Z) :
  (0 < m)%Z -> Zdigits2 (Z.sqrt m) = ((Zdigits2 m + 1) / 2)%Z.
Proof.
  intros Hm.
  destruct (digits2_bounds m Hm) as [Hl Hu].
  assert (Hd : (0 < Zdigits2 m)%Z) by (destruct m; simpl in *; lia).
  set (k := ((Zdigits2 m + 1) / 2)%Z).
  pose proof (half_bounds (Zdigits2 m + 1)) as Hk. fold k in Hk.
  assert (Hq : (0 < Z.sqrt m)%Z) by (apply Z.sqrt_pos; lia).
  apply digits2_unique; [|exact Hq]. split.
  - apply Z.sqrt_le_square; [lia | apply Z.pow_nonneg; lia |].
    rewrite <- Z.pow_add_r by lia.
    apply Z.le_trans with (2 := Hl). apply Z.pow_le_mono_r; lia.
  - apply Z.sqrt_lt_square; [lia | apply Z.pow_nonneg; lia |].
    rewrite <- Z.pow_add_r by lia.
    apply Z.lt_le_trans with (1 := Hu). apply Z.pow_le_mono_r; lia.
Qed.

Lemma SFsqrt_core_binary_located (m : positive) (e : Z) :
  (-1074 <= e)%Z ->
  let '(q, e', l) := SFsqrt_core_binary prec emax (Zpos m) e in
  (0 <= q)%Z /\
  located (shr_record_of_loc q l) (sqrt (mag m e) / bpow e') /\
  (e' <= fexp prec emax (Zdigits2 q + e'))%Z /\
  (-1074 <= Zdigits2 q + e' - 53)%Z.
Proof.
  intros He. unfold SFsqrt_core_binary.
  rewrite !Z.div2_div.
  set (d := Zdigits2 (Zpos m)).
  assert (Hd : (0 < d)%Z) by (unfold d; simpl; lia).
  set (e' := Z.min (fexp prec emax ((d + e + 1) / 2)) (e / 2)).
  assert (He1 : (e' <= fexp prec emax ((d + e + 1) / 2))%Z) by apply Z.le_min_l.
  assert (He2 : (e' <= e / 2)%Z) by apply Z.le_min_r.
  pose proof (half_bounds e) as Hhe.
  set (s := (e - 2 * e')%Z).
  assert (Hs : (0 <= s)%Z) by (unfold s; lia).
  set (m' := match s with
             | Zpos _ => Z.shiftl (Zpos m) s
             | Z0 => Zpos m
             | Zneg _ => 0%Z
             end).
  assert (Hm' : m' = (Zpos m * 2 ^ s)%Z).
  { unfold m'. destruct s as [|p|p] eqn:Es; try lia.
    rewrite Z.shiftl_mul_pow2 by lia. reflexivity. }
  assert (Hp : (0 < 2 ^ s)%Z) by (apply Z.pow_pos_nonneg; lia).
  assert (Hpos : (0 < m')%Z) by (rewrite Hm'; lia).
  assert (Hdig : Zdigits2 m' = (d + s)%Z).
  { rewrite Hm'. destruct (Zpos m * 2 ^ s)%Z as [|q|q] eqn:Eq; try lia.
    unfold d. cbn [Zdigits2]. rewrite !Magnitude.Zdigits2_log2, <- Eq.
    rewrite <- Z.shiftl_mul_pow2 by lia.
    rewrite Z.log2_shiftl by lia. lia. }
  pose proof (Z.sqrtrem_spec m' ltac:(lia)) as Hspec.
  pose proof (Z.sqrtrem_sqrt m') as Hsq.
  destruct (Z.sqrtrem m') as [q r]. cbn [fst] in Hsq.
  destruct Hspec as [Heq Hr].
  assert (Hq : (0 < q)%Z) by (rewrite Hsq; apply Z.sqrt_pos; lia).
  pose proof (digits2_sqrt m' Hpos) as Hdq. rewrite <- Hsq, Hdig in Hdq.
  assert (Hsum : (Zdigits2 q + e' = (d + e + 1) / 2)%Z).
  { rewrite Hdq. unfold s.
    replace (d + (e - 2 * e') + 1)%Z with ((d + e + 1) + (- e') * 2)%Z by lia.
    rewrite Z.div_add by lia. lia. }
  split; [lia|]. split; [|split].
  - pose proof (bpow_pos e') as Hb.
    assert (HQ : 0 < IZR q) by (apply IZR_lt; lia).
    assert (HR : 0 <= IZR r <= 2 * IZR q).
    { split; [apply IZR_le; lia|]. rewrite <- mult_IZR. apply IZR_le; lia. }
    assert (HM : IZR m' = IZR q * IZR q + IZR r)
      by (rewrite Heq, plus_IZR, mult_IZR; reflexivity).
    assert (HM0 : 0 <= IZR m') by (apply IZR_le; lia).
    assert (Hv : sqrt (mag m e) / bpow e' = sqrt (IZR m')).
    { assert (E : mag m e = IZR m' * (bpow e' * bpow e')).
      { unfold mag. rewrite Hm', mult_IZR, <- bpow_IZR by lia.
        rewrite <- bpow_add, Rmult_assoc, <- bpow_add. f_equal. f_equal.
        unfold s. lia. }
      rewrite E, sqrt_mult by nra.
      rewrite sqrt_square by lra. field. lra. }
    rewrite Hv.
    pose proof (sqrt_sqrt (IZR m') HM0) as Hx.
    pose proof (sqrt_pos (IZR m')) as Hx0.
    set (x := sqrt (IZR m')) in *.
    destruct (Z.eqb_spec r 0) as [E0 | E0].
    + unfold located. cbn [shr_record_of_loc shr_m shr_r shr_s half].
      rewrite E0 in HM. nra.
    + assert (Hrp : 1 <= IZR r) by (apply IZR_le; lia).
      destruct (Z.leb_spec r q) as [C | C].
      * apply IZR_le in C.
        unfold located. cbn [shr_record_of_loc shr_m shr_r shr_s half]. nra.
      * assert (C' : IZR q + 1 <= IZR r)
          by (rewrite <- plus_IZR; apply IZR_le; lia).
        unfold located. cbn [shr_record_of_loc shr_m shr_r shr_s half]. nra.
  - rewrite Hsum. exact He1.
  - rewrite Hsum.
    pose proof (half_bounds (d + e + 1)). lia.
Qed.

Lemma SFsqrt_error (x : spec_float) :
  SFwf x -> SFfinite (SFsqrt prec emax x) = true ->
  SFfinite x = true /\ 0 <= SF2R x /\
  Rabs (SF2R (SFsqrt prec emax x) - sqrt (SF2R x)) <= u * sqrt (SF2R x).
Proof.
  intros Hwf.
  destruct x as [sx|sx| |sx mx ex]; cbn [SFsqrt SFfinite];
    try discriminate; try (destruct sx; discriminate).
  - intros _. cbn [SF2R]. rewrite sqrt_0.
    repeat split; try lra.
    replace (0 - 0) with 0 by lra. rewrite Rabs_R0. lra.
  - destruct sx; [discriminate|].
    cbn [SFwf] in Hwf.
    pose proof (SFsqrt_core_binary_located mx ex Hwf) as H.
    destruct (SFsqrt_core_binary prec emax (Zpos mx) ex) as [[q e'] l].
    destruct H as (Hq & Hloc & Hn & Hnorm).
    destruct (binary_round_aux_error false q e' l _ Hq Hloc (or_intror Hn))
      as [_ H].
    intros Hf. destruct (H Hf) as (w & Hw & Hw0 & Hv0 & _ & Hb & _).
    pose proof (mag_pos mx ex).
    rewrite Hw, SF2R_finite. repeat split; try lra.
    apply Hb. right. exact Hnorm.
Qed.

(** ** The operations, on binary64 numbers *)

Lemma is_finite_SF (x : float) :
  is_finite x = true <-> SFfinite (Prim2SF x) = true.
Proof.
  rewrite Magnitude.is_finite_within.
  destruct (Prim2SF x) as [s|s| |s m e] eqn:E; cbn [F.within SFfinite];
    split; auto; try discriminate; try contradiction.
  intros _. destruct (Magnitude.valid_finite x s m e E). lia.
Qed.

Lemma B2R_zero (x : float) (s : bool) : Prim2SF x = S754_zero s -> B2R x = 0.
Proof. unfold B2R. now intros ->. Qed.

Lemma B2R_nan (x : float) : is_nan x = true -> B2R x = 0.
Proof.
  intros H. apply FloatFacts.is_nan_true in H. unfold B2R. now rewrite H.
Qed.

Theorem add_error (x y : float) :
  is_finite (x + y) = true ->
  is_finite x = true /\ is_finite y = true /\
  Rabs (B2R (x + y) - (B2R x + B2R y)) <= u * Rabs (B2R x + B2R y).
Proof.
  rewrite !is_finite_SF. unfold B2R. rewrite add_spec.
  apply SFadd_error; apply Prim2SF_wf.
Qed.

Theorem sub_error (x y : float) :
  is_finite (x - y) = true ->
  is_finite x = true /\ is_finite y = true /\
  Rabs (B2R (x - y) - (B2R x - B2R y)) <= u * Rabs (B2R x - B2R y).
Proof.
  rewrite !is_finite_SF. unfold B2R. rewrite sub_spec.
  apply SFsub_error; apply Prim2SF_wf.
Qed.

Theorem mul_error (x y : float) :
  is_finite (x * y) = true ->
  is_finite x = true /\ is_finite y = true /\
  Rabs (B2R (x * y) - B2R x * B2R y) <= u * Rabs (B2R x * B2R y) + eta.
Proof.
  rewrite !is_finite_SF. unfold B2R. rewrite mul_spec.
  apply SFmul_error.
Qed.

Theorem div_error (x y : float) :
  is_finite y = true -> B2R y <> 0 ->
  is_finite (x / y) = true ->
  is_finite x = true /\
  Rabs (B2R (x / y) - B2R x / B2R y) <= u * Rabs (B2R x / B2R y) + eta.
Proof.
  rewrite !is_finite_SF. unfold B2R. rewrite div_spec.
  destruct (Prim2SF y) as [sy|sy| |sy my ey]; cbn [SFfinite SF2R];
    try discriminate; try (intros _ H; now elim H).
  intros _ _. apply SFdiv_error.
Qed.

Theorem sqrt_error (x : float) :
  is_finite (PrimFloat.sqrt x) = true ->
  is_finite x = true /\ 0 <= B2R x /\
  Rabs (B2R (PrimFloat.sqrt x) - sqrt (B2R x)) <= u * sqrt (B2R x).
Proof.
  rewrite !is_finite_SF. unfold B2R. rewrite sqrt_spec.
  apply SFsqrt_error, Prim2SF_wf.
Qed.

(** ** Whole numbers *)

Lemma bpow_lt_inv (a b : Z) : bpow a < bpow b -> (a < b)%Z.
Proof.
  intros H. destruct (Z_lt_le_dec a b) as [|Hle]; [assumption|].
  apply bpow_le in Hle. lra.
Qed.

(** A whole number below [2^53] in magnitude is normalised exactly. *)
Lemma binary_normalize_integer (M e N : Z) (sz : bool) :
  (e <= 971)%Z -> IZR M * bpow e = IZR N -> (Z.abs N < 2 ^ 53)%Z ->
  SFfinite (binary_normalize prec emax M e sz) = true /\
  SF2R (binary_normalize prec emax M e sz) = IZR N.
Proof.
  intros He Hv HN.
  pose proof (bpow_pos e) as Hb.
  destruct (Z.eq_dec M 0) as [->|HM].
  { cbn [binary_normalize SFfinite SF2R]. split; [reflexivity|]. lra. }
  assert (Hd : (Zdigits2 M + e <= 53)%Z).
  { assert (Hd : (Zdigits2 M = Zdigits2 (Z.abs M))%Z) by (destruct M; reflexivity).
    pose proof (IZR_digits_le (Z.abs M) ltac:(lia)) as Hlow.
    rewrite <- Hd in Hlow.
    assert (Habs : IZR (Z.abs M) * bpow e = IZR (Z.abs N)).
    { rewrite !abs_IZR, <- Hv, Rabs_mult, (Rabs_pos_eq (bpow e)); lra. }
    assert (Hlt : bpow (Zdigits2 M - 1 + e) < bpow 53).
    { rewrite bpow_add, (bpow_IZR 53) by lia.
      apply Rle_lt_trans with (IZR (Z.abs M) * bpow e).
      - apply Rmult_le_compat_r; lra.
      - rewrite Habs. now apply IZR_lt. }
    apply bpow_lt_inv in Hlt. lia. }
  assert (Hfin : SFfinite (binary_normalize prec emax M e sz) = true).
  { destruct M as [|m|m]; [reflexivity| |].
    - pose proof (Magnitude.binary_round_within false m e 53 He Hd ltac:(lia)) as W.
      cbn [binary_normalize]. destruct (binary_round prec emax false m e);
        cbn [F.within] in W; try contradiction; reflexivity.
    - pose proof (Magnitude.binary_round_within true m e 53 He Hd ltac:(lia)) as W.
      cbn [binary_normalize]. destruct (binary_round prec emax true m e);
        cbn [F.within] in W; try contradiction; reflexivity. }
  split; [exact Hfin|].
  destruct (binary_normalize_error M e sz) as [_ H].
  destruct (H Hfin) as (_ & _ & Hx). rewrite Hx; [exact Hv|].
  set (f := fexp prec emax (Zdigits2 M + e)).
  assert (Hf : (f <= 0)%Z) by (unfold f, fexp, SpecFloat.emin, prec, emax; lia).
  exists (N * 2 ^ (- f))%Z.
  rewrite Hv, mult_IZR, <- bpow_IZR by lia.
  rewrite Rmult_assoc, <- bpow_add.
  replace (- f + f)%Z with 0%Z by lia. change (bpow 0) with 1. lra.
Qed.

Lemma of_Z_exact (z : Z) :
  (0 <= z < 2 ^ 53)%Z ->
  is_finite (F.of_Z z) = true /\ B2R (F.of_Z z) = IZR z.
Proof.
  intros Hz. rewrite is_finite_SF. unfold B2R, F.of_Z.
  rewrite of_uint63_spec, Uint63.of_Z_spec.
  rewrite Z.mod_small
    by (change wB with (2 ^ 63)%Z;
        assert (2 ^ 53 < 2 ^ 63)%Z by (apply Z.pow_lt_mono_r; lia); lia).
  apply binary_normalize_integer; [lia | |lia].
  change (bpow 0) with 1. lra.
Qed.

Lemma SFvalid_bounds (x : float) (s : bool) (m : positive) (e : Z) :
  Prim2SF x = S754_finite s m e -> (-1074 <= e <= 971)%Z.
Proof.
  intros H. pose proof (Prim2SF_wf x) as W. rewrite H in W. cbn [SFwf] in W.
  destruct (Magnitude.valid_finite x s m e H). lia.
Qed.

(** The difference of two whole numbers, when below [2^53] in magnitude, is
    computed exactly. *)
Lemma sub_integer (x y : float) (a b : Z) :
  is_finite x = true -> is_finite y = true ->
  B2R x = IZR a -> B2R y = IZR b -> (Z.abs (a - b) < 2 ^ 53)%Z ->
  is_finite (x - y) = true /\ B2R (x - y) = IZR (a - b).
Proof.
  rewrite !is_finite_SF. unfold B2R. rewrite sub_spec. unfold SF64sub.
  intros Hx Hy Ha Hb Hab.
  destruct (Prim2SF x) as [sx|sx| |sx mx ex] eqn:Ex,
           (Prim2SF y) as [sy|sy| |sy my ey] eqn:Ey;
    try discriminate Hx; try discriminate Hy; cbn [SFsub].
  - cbn [SF2R] in Ha, Hb. rewrite minus_IZR, <- Ha, <- Hb.
    destruct sx, sy; cbn [SFfinite SF2R]; split; (reflexivity || lra).
  - cbn [SF2R] in Ha. rewrite minus_IZR, <- Ha, <- Hb.
    split; [reflexivity|]. rewrite !SF2R_finite.
    destruct sy; cbn [negb]; lra.
  - cbn [SF2R] in Hb. rewrite minus_IZR, <- Ha, <- Hb.
    split; [reflexivity|]. lra.
  - destruct (SFvalid_bounds x _ _ _ Ex), (SFvalid_bounds y _ _ _ Ey).
    apply binary_normalize_integer; [lia | | exact Hab].
    rewrite minus_IZR, Rmult_minus_distr_r, !aligned_value by lia.
    rewrite Ha, Hb, minus_IZR. reflexivity.
Qed.

Lemma B2R_one : is_finite 1 = true /\ B2R 1 = 1.
Proof.
  split; [reflexivity|]. unfold B2R.
  change (Prim2SF 1) with (S754_finite false 4503599627370496 (-52)).
  rewrite SF2R_finite. unfold mag.
  change 4503599627370496%Z with (2 ^ 52)%Z.
  rewrite <- bpow_IZR, <- bpow_add by lia. reflexivity.
Qed.

(** [F.of_nat c - 1], the divisor of the sample variance. *)
Lemma of_nat_pred_exact (c : nat) :
  (Z.of_nat c < 2 ^ 53)%Z ->
  is_finite (F.of_nat c - 1) = true /\
  B2R (F.of_nat c - 1) = INR c - 1.
Proof.
  intros Hc. unfold F.of_nat.
  destruct (of_Z_exact (Z.of_nat c) ltac:(lia)) as [Hf Hv].
  destruct B2R_one as [Hf1 Hv1].
  destruct (sub_integer (F.of_Z (Z.of_nat c)) 1 (Z.of_nat c) 1 Hf Hf1 Hv Hv1
              ltac:(lia)) as [H1 H2].
  split; [exact H1|]. rewrite H2, minus_IZR, <- INR_IZR_INZ. reflexivity.
Qed.

Lemma of_nat_exact (c : nat) :
  (Z.of_nat c < 2 ^ 53)%Z ->
  is_finite (F.of_nat c) = true /\ B2R (F.of_nat c) = INR c.
Proof.
  intros Hc. unfold F.of_nat.
  destruct (of_Z_exact (Z.of_nat c) ltac:(lia)) as [Hf Hv].
  split; [exact Hf|]. rewrite Hv, <- INR_IZR_INZ. reflexivity.
Qed.

End Rounding.

(** * Summation *)

Lemma addition_tree_le (d d' : nat) (l : list float) (s : float) :
  addition_tree d l s -> (d <= d')%nat -> addition_tree d' l s.
Proof.
  intros H. revert d'. induction H; intros d' Hd.
  - now constructor.
  - constructor.
  - destruct d' as [|d']; [lia|]. constructor; [apply IHaddition_tree1 | apply IHaddition_tree2]; lia.
  - eapply tree_perm; eauto.
Qed.

Lemma fold_left_tree (a : list float) (d : nat) (l : list float) (acc : float) :
  addition_tree d l acc ->
  addition_tree (d + List.length a) (l ++ a) (fold_left PrimFloat.add a acc).
Proof.
  revert d l acc. induction a as [|x a IH]; intros d l acc H; simpl.
  - rewrite app_nil_r, Nat.add_0_r. exact H.
  - replace (d + S (List.length a))%nat with (S d + List.length a)%nat by lia.
    replace (l ++ x :: a) with ((l ++ [x]) ++ a) by (now rewrite <- app_assoc).
    apply IH. constructor; [exact H | constructor].
Qed.

Lemma float_eq_dec (x y : float) : {x = y} + {x <> y}.
Proof.
  destruct (PrimFloat.Leibniz.eqb x y) eqn:E.
  - left. now apply Leibniz.eqb_spec.
  - right. intros H. apply Leibniz.eqb_spec in H. congruence.
Qed.

Lemma count_occ_cons_app (x a : float) (l : list float) :
  count_occ float_eq_dec (a :: l) x =
  (count_occ float_eq_dec [a] x + count_occ float_eq_dec l x)%nat.
Proof. simpl. destruct (float_eq_dec a x); reflexivity. Qed.

Ltac perm_count :=
  apply (Permutation_count_occ float_eq_dec); intro;
  repeat (rewrite count_occ_app ||
          match goal with
          | |- context [count_occ _ (?a :: ?l) ?x] =>
              lazymatch l with
              | [] => fail
              | _ => rewrite (count_occ_cons_app x a l)
              end
          end);
  rewrite ?count_occ_nil; lia.

Lemma block_sum_tree (n : nat) :
  forall (a : list float) (d : nat) (l0 l1 l2 l3 l4 l5 l6 l7 : list float)
         (r0 r1 r2 r3 r4 r5 r6 r7 : float),
    (List.length a <= n)%nat ->
    addition_tree d l0 r0 -> addition_tree d l1 r1 ->
    addition_tree d l2 r2 -> addition_tree d l3 r3 ->
    addition_tree d l4 r4 -> addition_tree d l5 r5 ->
    addition_tree d l6 r6 -> addition_tree d l7 r7 ->
    addition_tree (d + 3 + List.length a)
      (l0 ++ l1 ++ l2 ++ l3 ++ l4 ++ l5 ++ l6 ++ l7 ++ a)
      (block_sum r0 r1 r2 r3 r4 r5 r6 r7 a).
Proof.
  induction n as [|n IH]; intros a d l0 l1 l2 l3 l4 l5 l6 l7
    r0 r1 r2 r3 r4 r5 r6 r7 Hn H0 H1 H2 H3 H4 H5 H6 H7.
  - destruct a; [|simpl in Hn; lia]. simpl.
    rewrite Nat.add_0_r.
    replace (l0 ++ l1 ++ l2 ++ l3 ++ l4 ++ l5 ++ l6 ++ l7 ++ [])
      with (((l0 ++ l1) ++ (l2 ++ l3)) ++ ((l4 ++ l5) ++ (l6 ++ l7)))
      by (now rewrite app_nil_r, <- !app_assoc).
    replace (d + 3)%nat with (S (S (S d))) by lia.
    repeat constructor; assumption.
  - assert (Hbase : forall rest, a = rest ->
              addition_tree (d + 3 + List.length rest)
                (l0 ++ l1 ++ l2 ++ l3 ++ l4 ++ l5 ++ l6 ++ l7 ++ rest)
                (fold_left PrimFloat.add rest
                   (((r0 + r1) + (r2 + r3)) + ((r4 + r5) + (r6 + r7)))%float)).
    { intros rest _.
      replace (l0 ++ l1 ++ l2 ++ l3 ++ l4 ++ l5 ++ l6 ++ l7 ++ rest)
        with ((((l0 ++ l1) ++ (l2 ++ l3)) ++ ((l4 ++ l5) ++ (l6 ++ l7))) ++ rest)
        by (now rewrite <- !app_assoc).
      apply fold_left_tree.
      replace (d + 3)%nat with (S (S (S d))) by lia.
      repeat constructor; assumption. }
    destruct a as [|a0 [|a1 [|a2 [|a3 [|a4 [|a5 [|a6 [|a7 rest]]]]]]]];
      try (apply Hbase; reflexivity).
    clear Hbase. cbn [block_sum].
    eapply tree_perm;
      [| eapply addition_tree_le;
         [apply (IH rest (S d) (l0 ++ [a0]) (l1 ++ [a1]) (l2 ++ [a2]) (l3 ++ [a3])
                    (l4 ++ [a4]) (l5 ++ [a5]) (l6 ++ [a6]) (l7 ++ [a7]));
          [simpl in Hn; lia | constructor; [assumption | constructor] ..]
         | simpl; lia]].
    perm_count.
Qed.

Lemma unrolled_sum_tree (a : list float) :
  addition_tree (List.length a) a (unrolled_sum a).
Proof.
  assert (Hsmall : addition_tree (List.length a) a (fold_left PrimFloat.add a neg_zero)).
  { apply (fold_left_tree a 0 [] neg_zero). constructor. now right. }
  destruct a as [|a0 [|a1 [|a2 [|a3 [|a4 [|a5 [|a6 [|a7 rest]]]]]]]];
    try exact Hsmall.
  clear Hsmall. unfold unrolled_sum.
  eapply tree_perm;
    [| eapply addition_tree_le;
       [apply (block_sum_tree (List.length rest) rest 0 [a0] [a1] [a2] [a3] [a4] [a5] [a6] [a7]);
        [lia | constructor ..]
       | simpl; lia]].
  perm_count.
Qed.

Lemma split_point (n : nat) :
  (128 < n)%nat -> (0 < n / 2 - (n / 2) mod 8 < n)%nat.
Proof.
  intros H.
  assert (H8 : (8 <> 0)%nat) by lia.
  pose proof (Nat.mod_upper_bound (n / 2) 8 H8).
  assert (n / 2 < n)%nat by (apply Nat.div_lt; lia).
  assert (64 <= n / 2)%nat by (apply Nat.div_le_lower_bound; lia).
  lia.
Qed.

Lemma pairwise_sum_tree (depth : nat) :
  forall a : list float, addition_tree (List.length a) a (pairwise_sum depth a).
Proof.
  induction depth as [|depth IH]; intros a; cbn [pairwise_sum].
  - apply unrolled_sum_tree.
  - destruct (128 <? List.length a)%nat eqn:E; [|apply unrolled_sum_tree].
    apply Nat.ltb_lt in E.
    set (n2 := (List.length a / 2 - (List.length a / 2) mod 8)%nat).
    assert (Hn2 : (0 < n2 < List.length a)%nat) by (apply (split_point _ E)).
    rewrite <- (firstn_skipn n2 a) at 2.
    destruct (List.length a) as [|k] eqn:Ek; [lia|].
    constructor.
    + eapply addition_tree_le; [apply IH|]. rewrite length_firstn. lia.
    + eapply addition_tree_le; [apply IH|]. rewrite length_skipn. lia.
Qed.

Lemma np_sum_tree (l : list float) :
  addition_tree (S (List.length l)) l (np_sum l).
Proof.
  unfold np_sum.
  apply (tree_node (List.length l) [] l).
  - constructor. now left.
  - apply pairwise_sum_tree.
Qed.

Lemma pairwise_sum_fuel (d1 : nat) :
  forall (d2 : nat) (a : list float),
    (List.length a <= d1)%nat -> (List.length a <= d2)%nat ->
    pairwise_sum d1 a = pairwise_sum d2 a.
Proof.
  induction d1 as [|d1 IH]; intros d2 a H1 H2.
  - destruct a; [|simpl in H1; lia]. destruct d2; reflexivity.
  - cbn [pairwise_sum]. destruct (128 <? List.length a)%nat eqn:E.
    + destruct d2 as [|d2]; [apply Nat.ltb_lt in E; lia|].
      cbn [pairwise_sum]. rewrite E. apply Nat.ltb_lt in E.
      set (n2 := (List.length a / 2 - (List.length a / 2) mod 8)%nat).
      assert (Hn2 : (0 < n2 < List.length a)%nat) by (apply (split_point _ E)).
      f_equal; apply IH; rewrite ?length_firstn, ?length_skipn; lia.
    + destruct d2 as [|d2]; cbn [pairwise_sum]; [reflexivity|]. now rewrite E.
Qed.

(** * The statistics, against exact arithmetic *)

Module Accuracy.

Import Real.

Local Open Scope R_scope.

(** ** Accumulated roundings *)

Lemma u_le_1 : u <= 1.
Proof. apply (Rounding.bpow_le (-53) 0). lia. Qed.

Lemma pow_u_ge_1 (k : nat) : 1 <= (1 + u) ^ k.
Proof. apply pow_R1_Rle. pose proof Rounding.u_pos. lra. Qed.

Lemma gamma_nonneg (k : nat) : 0 <= gamma k.
Proof. unfold gamma. pose proof (pow_u_ge_1 k). lra. Qed.

Lemma gamma_S (k : nat) : gamma (S k) = (1 + u) * (1 + gamma k) - 1.
Proof. unfold gamma. simpl. ring. Qed.

Lemma gamma_add (j k : nat) : 1 + gamma (j + k) = (1 + gamma j) * (1 + gamma k).
Proof. unfold gamma. rewrite pow_add. ring. Qed.

Lemma gamma_le (j k : nat) : (j <= k)%nat -> gamma j <= gamma k.
Proof.
  intros H. unfold gamma.
  assert ((1 + u) ^ j <= (1 + u) ^ k); [|lra].
  apply Rle_pow; [pose proof Rounding.u_pos; lra | exact H].
Qed.

(** A value [x] within relative error [r] and absolute error [e] of [s],
    which is itself within [g * a' + e0] of [a]. *)
Lemma compose_error (r g x s a a' e0 e : R) :
  0 <= r -> 0 <= g ->
  Rabs (s - a) <= g * a' + e0 -> Rabs a <= a' ->
  Rabs (x - s) <= r * Rabs s + e ->
  Rabs (x - a) <= ((1 + r) * (1 + g) - 1) * a' + (1 + r) * e0 + e.
Proof.
  intros Hr Hg Hs Ha Hx.
  assert (Hs' : Rabs s <= (1 + g) * a' + e0).
  { replace s with ((s - a) + a) by lra.
    eapply Rle_trans; [apply Rabs_triang|]. lra. }
  assert (Hus : r * Rabs s <= r * ((1 + g) * a' + e0)).
  { apply Rmult_le_compat_l; lra. }
  replace (x - a) with ((x - s) + (s - a)) by lra.
  eapply Rle_trans; [apply Rabs_triang|].
  replace (((1 + r) * (1 + g) - 1) * a' + (1 + r) * e0 + e)
    with (r * ((1 + g) * a' + e0) + e + (g * a' + e0)) by ring.
  lra.
Qed.

(** One more rounding, of relative error [u] and absolute error [e], of a
    value [s] that approximates [a] within [g * a']. *)
Lemma one_more_rounding (g x s a a' e : R) :
  0 <= g -> Rabs (s - a) <= g * a' -> Rabs a <= a' ->
  Rabs (x - s) <= u * Rabs s + e ->
  Rabs (x - a) <= ((1 + u) * (1 + g) - 1) * a' + e.
Proof.
  intros Hg Hs Ha Hx. pose proof Rounding.u_pos as Hu.
  pose proof (compose_error u g x s a a' 0 e ltac:(lra) Hg ltac:(lra) Ha Hx).
  lra.
Qed.

(** Squaring a value known within relative error [u]. *)
Lemma square_close (D d : R) :
  Rabs (d - D) <= u * Rabs D -> Rabs (d * d - D * D) <= gamma 2 * (D * D).
Proof.
  intros H. pose proof Rounding.u_pos as Hu.
  pose proof (Rabs_pos D) as HD. pose proof (Rabs_pos (d - D)) as Hd.
  assert (H2 : Rabs (d + D) <= (2 + u) * Rabs D).
  { replace (d + D) with ((d - D) + 2 * D) by lra.
    eapply Rle_trans; [apply Rabs_triang|].
    rewrite Rabs_mult, (Rabs_pos_eq 2) by lra. lra. }
  replace (d * d - D * D) with ((d - D) * (d + D)) by ring.
  rewrite Rabs_mult.
  assert (HDD : Rabs D * Rabs D = D * D).
  { rewrite <- Rabs_mult. apply Rabs_pos_eq. nra. }
  replace (gamma 2 * (D * D)) with ((u * Rabs D) * ((2 + u) * Rabs D))
    by (rewrite <- HDD; unfold gamma; simpl; ring).
  apply Rmult_le_compat; try assumption. apply Rabs_pos.
Qed.

(** ** Sums of real numbers *)

Lemma Rsum_app (l l' : list R) : Rsum (l ++ l') = Rsum l + Rsum l'.
Proof. induction l as [|x l IH]; simpl; [lra | rewrite IH; lra]. Qed.

Lemma Rsum_perm (l l' : list R) : Permutation l l' -> Rsum l = Rsum l'.
Proof. induction 1; simpl; lra. Qed.

Lemma Rsum_abs (l : list R) : Rabs (Rsum l) <= Rsum (map Rabs l).
Proof.
  induction l as [|x l IH]; simpl.
  - rewrite Rabs_R0. lra.
  - eapply Rle_trans; [apply Rabs_triang|]. lra.
Qed.

Lemma Rsum_nonneg (l : list R) : Forall (fun x => 0 <= x) l -> 0 <= Rsum l.
Proof. induction 1; simpl; lra. Qed.

(** ** The sum of a column *)

Lemma tree_error (d : nat) (l : list float) (s : float) :
  addition_tree d l s -> is_finite s = true ->
  Forall finite l /\
  Rabs (B2R s - Rsum (map B2R l)) <=
  gamma d * Rsum (map Rabs (map B2R l)).
Proof.
  intros T.
  induction T as [d z Hz|d x|d l1 l2 s1 s2 T1 IH1 T2 IH2|d l l' s Hp T IH];
    intros Hs.
  - split; [constructor|]. simpl.
    assert (E : B2R z = 0).
    { destruct Hz as [-> | ->]; unfold B2R.
      - now change (Prim2SF 0) with (S754_zero false).
      - now change (Prim2SF neg_zero) with (S754_zero true). }
    rewrite E, Rmult_0_r, Rminus_0_r, Rabs_R0. lra.
  - split; [now repeat constructor|]. simpl.
    replace (B2R x - (B2R x + 0)) with 0 by lra. rewrite Rabs_R0.
    apply Rmult_le_pos; [apply gamma_nonneg|].
    pose proof (Rabs_pos (B2R x)). lra.
  - destruct (Rounding.add_error s1 s2 Hs) as (H1 & H2 & E).
    destruct (IH1 H1) as [F1 E1]. destruct (IH2 H2) as [F2 E2].
    split; [apply Forall_app; now split|].
    rewrite !map_app, !Rsum_app, gamma_S.
    replace (((1 + u) * (1 + gamma d) - 1) *
             (Rsum (map Rabs (map B2R l1)) + Rsum (map Rabs (map B2R l2))))
      with (((1 + u) * (1 + gamma d) - 1) *
            (Rsum (map Rabs (map B2R l1)) + Rsum (map Rabs (map B2R l2))) + 0)
      by lra.
    apply one_more_rounding with (s := B2R s1 + B2R s2).
    + apply gamma_nonneg.
    + replace (B2R s1 + B2R s2 - (Rsum (map B2R l1) + Rsum (map B2R l2)))
        with ((B2R s1 - Rsum (map B2R l1)) + (B2R s2 - Rsum (map B2R l2)))
        by lra.
      eapply Rle_trans; [apply Rabs_triang|]. lra.
    + eapply Rle_trans; [apply Rabs_triang|].
      pose proof (Rsum_abs (map B2R l1)). pose proof (Rsum_abs (map B2R l2)).
      lra.
    + lra.
  - destruct (IH Hs) as [F E]. split.
    + apply Permutation_Forall with (1 := Hp). exact F.
    + rewrite <- (Rsum_perm _ _ (Permutation_map B2R Hp)).
      rewrite <- (Rsum_perm _ _ (Permutation_map Rabs (Permutation_map B2R Hp))).
      exact E.
Qed.


(** ** The mean *)

Lemma B2R_0 : B2R 0 = 0.
Proof. unfold B2R. now change (Prim2SF 0) with (S754_zero false). Qed.

Lemma Rsum_cons (x : R) (l : list R) : Rsum (x :: l) = x + Rsum l.
Proof. reflexivity. Qed.

Lemma fillna_sums (rs : list float) :
  Rsum (map B2R (fillna rs)) = Rsum (numbers rs) /\
  Rsum (map Rabs (map B2R (fillna rs))) = Rsum (map Rabs (numbers rs)).
Proof.
  unfold fillna, numbers, notna.
  induction rs as [|x rs [IH1 IH2]]; [split; reflexivity|].
  cbn [map filter]. rewrite !Rsum_cons, IH1, IH2.
  destruct (is_nan x); cbn [negb map]; rewrite ?Rsum_cons.
  - rewrite B2R_0, Rabs_R0. split; lra.
  - split; reflexivity.
Qed.

Lemma fillna_finite (rs : list float) :
  Forall finite (fillna rs) -> Forall number_or_nan rs.
Proof.
  unfold fillna. induction rs as [|x rs IH]; intros H; [constructor|].
  cbn [map] in H. inversion H as [|? ? Hx Hrs]; subst.
  constructor; [|now apply IH].
  unfold number_or_nan. destruct (is_nan x); [now left | now right].
Qed.

Lemma numbers_length (rs : list float) :
  List.length (numbers rs) = count_notna rs.
Proof. unfold numbers, count_notna. apply length_map. Qed.

Lemma count_notna_le (rs : list float) :
  (count_notna rs <= List.length rs)%nat.
Proof. apply filter_length_le. Qed.

Lemma Rabs_div_pos (a c : R) : 0 < c -> Rabs (a / c) = Rabs a / c.
Proof.
  intros Hc. unfold Rdiv. rewrite Rabs_mult, (Rabs_pos_eq (/ c)); [reflexivity|].
  apply Rlt_le, Rinv_0_lt_compat, Hc.
Qed.

Lemma div_le_compat (a b c : R) : 0 < c -> a <= b -> a / c <= b / c.
Proof.
  intros Hc H. unfold Rdiv. apply Rmult_le_compat_r; [|exact H].
  apply Rlt_le, Rinv_0_lt_compat, Hc.
Qed.

(** The computed mean is the mean of the values that are numbers, up to the
    roundings of the sum and of the division. *)
Lemma Series_mean_error (rs : list float) :
  (Z.of_nat (List.length rs) < 2 ^ 53)%Z ->
  is_finite (Series_mean rs) = true ->
  (1 <= count_notna rs)%nat /\
  Forall number_or_nan rs /\
  Rabs (B2R (Series_mean rs) - Rmean (numbers rs)) <=
  gamma (List.length rs + 2) *
    (Rsum (map Rabs (numbers rs)) / INR (count_notna rs)) + eta.
Proof.
  intros Hlen Hf. unfold Series_mean in *.
  destruct (Nat.eqb (count_notna rs) 0) eqn:Ec; [discriminate Hf|].
  apply Nat.eqb_neq in Ec.
  pose proof (count_notna_le rs) as Hle.
  destruct (Rounding.of_nat_exact (count_notna rs) ltac:(lia)) as [Hcf Hcv].
  assert (Hc : 0 < INR (count_notna rs)) by (apply lt_0_INR; lia).
  destruct (Rounding.div_error _ _ Hcf ltac:(rewrite Hcv; lra) Hf) as [Hsf E].
  rewrite Hcv in E.
  destruct (tree_error _ _ _ (np_sum_tree (fillna rs)) Hsf) as [HF Es].
  destruct (fillna_sums rs) as [S1 S2]. rewrite S1, S2 in Es.
  split; [lia|]. split; [now apply fillna_finite|].
  unfold Rmean. rewrite numbers_length.
  replace (List.length rs + 2)%nat with (S (S (List.length (fillna rs))))
    by (unfold fillna; rewrite length_map; lia).
  rewrite (gamma_S (S _)).
  apply one_more_rounding with (s := B2R (np_sum (fillna rs)) / INR (count_notna rs)).
  - apply gamma_nonneg.
  - replace (B2R (np_sum (fillna rs)) / INR (count_notna rs) -
             Rsum (numbers rs) / INR (count_notna rs))
      with ((B2R (np_sum (fillna rs)) - Rsum (numbers rs)) / INR (count_notna rs))
      by (field; lra).
    rewrite Rabs_div_pos by exact Hc.
    replace (gamma (S (List.length (fillna rs))) *
             (Rsum (map Rabs (numbers rs)) / INR (count_notna rs)))
      with (gamma (S (List.length (fillna rs))) *
            Rsum (map Rabs (numbers rs)) / INR (count_notna rs))
      by (field; lra).
    now apply div_le_compat.
  - rewrite Rabs_div_pos by exact Hc. apply div_le_compat; [exact Hc|].
    apply Rsum_abs.
  - exact E.
Qed.


(** ** The standard deviation *)

Lemma squared_deviation_error (avg x : float) :
  is_finite ((avg - x) * (avg - x)) = true ->
  is_finite avg = true /\ is_finite x = true /\
  Rabs (B2R ((avg - x) * (avg - x)) -
        (B2R avg - B2R x) * (B2R avg - B2R x)) <=
  gamma 3 * ((B2R avg - B2R x) * (B2R avg - B2R x)) + eta.
Proof.
  intros H.
  destruct (Rounding.mul_error _ _ H) as (Hd & _ & Em).
  destruct (Rounding.sub_error _ _ Hd) as (Ha & Hx & Es).
  split; [exact Ha|]. split; [exact Hx|].
  set (D := B2R avg - B2R x) in *.
  rewrite (gamma_S 2).
  apply one_more_rounding with (s := B2R (avg - x) * B2R (avg - x)).
  - apply gamma_nonneg.
  - now apply square_close.
  - rewrite Rabs_pos_eq; [lra | nra].
  - exact Em.
Qed.

Lemma squared_deviations_error (avg : float) (rs : list float) :
  Forall finite (squared_deviations avg rs) ->
  let W := Rsum (map (fun x => (B2R avg - x) * (B2R avg - x)) (numbers rs)) in
  Forall number_or_nan rs /\
  ((1 <= count_notna rs)%nat -> is_finite avg = true) /\
  0 <= W /\
  Rabs (Rsum (map B2R (squared_deviations avg rs)) - W) <=
  gamma 3 * W + INR (count_notna rs) * eta /\
  Rsum (map Rabs (map B2R (squared_deviations avg rs))) <=
  (1 + gamma 3) * W + INR (count_notna rs) * eta.
Proof.
  unfold squared_deviations, numbers, count_notna, notna.
  induction rs as [|x rs IH]; intros HF; cbn [map filter].
  - cbn [Rsum fold_right List.length INR].
    rewrite Rminus_0_r, Rabs_R0, !Rmult_0_r, Rmult_0_l.
    repeat split; try lra; [constructor | lia].
  - cbn [map] in HF. inversion HF as [|? ? Hx Hrs]; subst.
    destruct (IH Hrs) as (Hn & Ha & HW & E1 & E2). clear IH.
    pose proof (gamma_nonneg 3) as Hg. pose proof Rounding.eta_pos as He.
    destruct (is_nan x) eqn:Ex; cbn [negb map filter].
    + rewrite !Rsum_cons, B2R_0, Rabs_R0, !Rplus_0_l.
      repeat split; try assumption.
      constructor; [now left | assumption].
    + destruct (squared_deviation_error avg x Hx) as (Hfa & Hfx & E).
      set (D := B2R avg - B2R x) in *.
      set (q := B2R ((avg - x) * (avg - x))) in *.
      assert (HD : 0 <= D * D) by nra.
      assert (Eq : Rabs q <= (1 + gamma 3) * (D * D) + eta).
      { replace q with ((q - D * D) + D * D) by lra.
        eapply Rle_trans; [apply Rabs_triang|].
        rewrite (Rabs_pos_eq (D * D)) by exact HD. lra. }
      cbn [List.length]. rewrite S_INR, !Rsum_cons.
      repeat split.
      * constructor; [now right | assumption].
      * intros _. exact Hfa.
      * lra.
      * match goal with
        | |- Rabs (q + ?S - (D * D + ?W)) <= _ =>
            replace (q + S - (D * D + W)) with ((q - D * D) + (S - W)) by lra
        end.
        eapply Rle_trans; [apply Rabs_triang|]. lra.
      * lra.
Qed.

(** The square of the computed standard deviation is the sample variance of
    the values that are numbers about the computed mean, up to the roundings
    of the deviations, their squares, the sum, the division and the square
    root, and up to the underflow of the squares and of the quotient. *)
Lemma Series_std_error (rs : list float) :
  (Z.of_nat (List.length rs) < 2 ^ 53)%Z ->
  is_finite (Series_std rs) = true ->
  (2 <= count_notna rs)%nat /\
  Forall number_or_nan rs /\
  is_finite (Series_mean rs) = true /\
  0 <= B2R (Series_std rs) /\
  Rabs (B2R (Series_std rs) * B2R (Series_std rs) -
        Rvar (B2R (Series_mean rs)) (numbers rs)) <=
  gamma (List.length rs + 7) * Rvar (B2R (Series_mean rs)) (numbers rs) +
  3 * (1 + u) ^ (List.length rs + 4) * eta.
Proof.
  intros Hlen Hf. unfold Series_std in *.
  destruct (Nat.leb (count_notna rs) 1) eqn:Ec; [discriminate Hf|].
  apply Nat.leb_gt in Ec.
  pose proof (count_notna_le rs) as Hle.
  set (avg := Series_mean rs) in *.
  set (sqr := squared_deviations avg rs) in *.
  set (c := count_notna rs) in *.
  set (n := List.length rs) in *.
  pose proof Rounding.u_pos as Hu. pose proof Rounding.eta_pos as He.
  pose proof u_le_1 as Hu1.
  (* the square root *)
  destruct (Rounding.sqrt_error _ Hf) as (Hvf & Hv0 & Esq).
  set (v := B2R (np_sum sqr / (F.of_nat c - 1))) in *.
  set (sigma := B2R (PrimFloat.sqrt (np_sum sqr / (F.of_nat c - 1)))) in *.
  pose proof (sqrt_pos v) as Hs0. pose proof (sqrt_sqrt v Hv0) as Hss.
  assert (Hsig0 : 0 <= sigma).
  { pose proof (Rle_abs (- (sigma - sqrt v))) as Hl.
    rewrite Rabs_Ropp in Hl. nra. }
  (* the division by N - 1 *)
  destruct (Rounding.of_nat_pred_exact c ltac:(lia)) as [Hmf Hmv].
  assert (Hc2 : 2 <= INR c) by (apply (le_INR 2); lia).
  destruct (Rounding.div_error _ _ Hmf ltac:(rewrite Hmv; lra) Hvf) as [HQf Ev].
  fold v in Ev. rewrite Hmv in Ev.
  (* the sum *)
  destruct (tree_error _ _ _ (np_sum_tree sqr) HQf) as [HF EQ].
  assert (Hlen' : List.length sqr = n)
    by (unfold sqr, squared_deviations; apply length_map).
  rewrite Hlen' in EQ.
  (* the squared deviations *)
  destruct (squared_deviations_error avg rs HF) as (Hn & Ha & HW & E1 & E2).
  fold sqr c in E1, E2, Ha.
  set (W := Rsum (map (fun x => (B2R avg - x) * (B2R avg - x)) (numbers rs))) in *.
  split; [lia|]. split; [exact Hn|]. split; [apply Ha; lia|].
  split; [exact Hsig0|].
  unfold Rvar. rewrite numbers_length. fold c W.
  set (m := INR c - 1) in *.
  assert (Hm : 1 <= m) by (unfold m; lra).
  set (Q := B2R (np_sum sqr)) in *.
  pose proof (gamma_nonneg (S n)) as Hg1. pose proof (gamma_nonneg 3) as Hg3.
  (* Q against W *)
  assert (HQ : Rabs (Q - W) <= gamma (n + 4) * W + (1 + gamma (S n)) * (INR c * eta)).
  { replace (Q - W)
      with ((Q - Rsum (map B2R sqr)) + (Rsum (map B2R sqr) - W)) by lra.
    eapply Rle_trans; [apply Rabs_triang|].
    assert (Hp : gamma (S n) * Rsum (map Rabs (map B2R sqr)) <=
                 gamma (S n) * ((1 + gamma 3) * W + INR c * eta))
      by (apply Rmult_le_compat_l; lra).
    replace (gamma (n + 4)) with ((1 + gamma (S n)) * (1 + gamma 3) - 1)
      by (rewrite <- gamma_add; replace (S n + 3)%nat with (n + 4)%nat by lia; lra).
    replace (((1 + gamma (S n)) * (1 + gamma 3) - 1) * W +
             (1 + gamma (S n)) * (INR c * eta))
      with (gamma (S n) * ((1 + gamma 3) * W + INR c * eta) +
            (gamma 3 * W + INR c * eta)) by ring.
    lra. }
  (* the quotient against the variance *)
  assert (HV0 : 0 <= W / m).
  { apply Rmult_le_pos; [exact HW|].
    apply Rlt_le, Rinv_0_lt_compat. lra. }
  assert (Hq : Rabs (Q / m - W / m) <=
               gamma (n + 4) * (W / m) + 2 * (1 + gamma (S n)) * eta).
  { replace (Q / m - W / m) with ((Q - W) / m) by (field; lra).
    rewrite Rabs_div_pos by lra.
    apply Rle_trans
      with ((gamma (n + 4) * W + (1 + gamma (S n)) * (INR c * eta)) / m).
    - apply div_le_compat; [lra | exact HQ].
    - replace ((gamma (n + 4) * W + (1 + gamma (S n)) * (INR c * eta)) / m)
        with (gamma (n + 4) * (W / m) + (INR c / m) * ((1 + gamma (S n)) * eta))
        by (field; lra).
      assert (Hcm : INR c / m <= 2).
      { apply Rmult_le_reg_r with m; [lra|].
        replace (INR c / m * m) with (INR c) by (field; lra).
        unfold m. lra. }
      assert (0 <= (1 + gamma (S n)) * eta) by (apply Rmult_le_pos; lra).
      assert (INR c / m * ((1 + gamma (S n)) * eta) <=
              2 * ((1 + gamma (S n)) * eta))
        by (apply Rmult_le_compat_r; assumption).
      lra. }
  assert (Hv : Rabs (v - W / m) <=
               gamma (n + 5) * (W / m) +
               (1 + u) * (2 * (1 + gamma (S n)) * eta) + eta).
  { replace (gamma (n + 5)) with ((1 + u) * (1 + gamma (n + 4)) - 1)
      by (rewrite <- gamma_S; f_equal; lia).
    apply compose_error with (s := Q / m);
      [lra | apply gamma_nonneg | exact Hq | rewrite Rabs_pos_eq; lra | exact Ev]. }
  (* the square root *)
  assert (Hsq : Rabs (sigma * sigma - v) <= gamma 2 * Rabs v + 0).
  { rewrite (Rabs_pos_eq v Hv0), Rplus_0_r.
    replace (sigma * sigma - v) with (sigma * sigma - sqrt v * sqrt v)
      by (rewrite Hss; reflexivity).
    replace (gamma 2 * v) with (gamma 2 * (sqrt v * sqrt v))
      by (rewrite Hss; reflexivity).
    apply square_close.
    rewrite (Rabs_pos_eq _ Hs0). exact Esq. }
  pose proof (compose_error (gamma 2) (gamma (n + 5)) (sigma * sigma) v
                (W / m) (W / m)
                ((1 + u) * (2 * (1 + gamma (S n)) * eta) + eta) 0
                (gamma_nonneg 2) (gamma_nonneg _) ltac:(lra)
                ltac:(rewrite Rabs_pos_eq; lra) Hsq) as Hfin.
  eapply Rle_trans; [exact Hfin|].
  replace ((1 + gamma 2) * (1 + gamma (n + 5)) - 1) with (gamma (n + 7))
    by (rewrite <- gamma_add; replace (2 + (n + 5))%nat with (n + 7)%nat by lia; lra).
  assert (Hk : (1 + gamma 2) * ((1 + u) * (2 * (1 + gamma (S n)) * eta) + eta) <=
               3 * (1 + u) ^ (n + 4) * eta).
  { unfold gamma.
    replace (1 + ((1 + u) ^ 2 - 1)) with ((1 + u) ^ 2) by lra.
    replace (1 + ((1 + u) ^ S n - 1)) with ((1 + u) ^ S n) by lra.
    replace ((1 + u) ^ 2 * ((1 + u) * (2 * (1 + u) ^ S n * eta) + eta))
      with ((2 * (1 + u) ^ (n + 4) + (1 + u) ^ 2) * eta).
    2: { replace (n + 4)%nat with (2 + (1 + S n))%nat by lia.
         rewrite !pow_add. simpl. ring. }
    apply Rmult_le_compat_r; [lra|].
    assert ((1 + u) ^ 2 <= (1 + u) ^ (n + 4)) by (apply Rle_pow; [lra | lia]).
    lra. }
  lra.
Qed.

(** ** The variance about the computed mean *)

Lemma Rsum_sq (c : R) (xs : list R) :
  Rsum (map (fun x => (c - x) * (c - x)) xs) =
  INR (List.length xs) * (c * c) - 2 * c * Rsum xs +
  Rsum (map (fun x => x * x) xs).
Proof.
  induction xs as [|x xs IH].
  - cbn [map Rsum fold_right List.length INR]. ring.
  - cbn [map List.length]. rewrite S_INR, !Rsum_cons, IH. ring.
Qed.

(** The sample variance about a centre [c] is the sample variance about the
    mean, plus what the distance from [c] to the mean adds. *)
Lemma Rvar_shift (c : R) (xs : list R) :
  (2 <= List.length xs)%nat ->
  Rvar c xs =
  Rvar (Rmean xs) xs +
  INR (List.length xs) / (INR (List.length xs) - 1) *
  ((c - Rmean xs) * (c - Rmean xs)).
Proof.
  intros H. apply (le_INR 2) in H. change (INR 2) with 2 in H.
  unfold Rvar. rewrite !Rsum_sq. unfold Rmean. field. lra.
Qed.

(** ** The bounds *)

Lemma B2R_threshold : B2R 2.5 = 2.5.
Proof.
  unfold B2R.
  change (Prim2SF 2.5) with (S754_finite false 5629499534213120 (-51)).
  rewrite Rounding.SF2R_finite. unfold mag.
  change 5629499534213120%Z with (5 * 2 ^ 50)%Z.
  rewrite mult_IZR, <- Rounding.bpow_IZR, Rmult_assoc, <- Rounding.bpow_add by lia.
  change (50 + -51)%Z with (0 - 1)%Z. rewrite Rounding.bpow_pred.
  change (bpow 0) with 1. lra.
Qed.

(** Each bound against the formula in exact arithmetic: the product is one
    rounding away from the exact product, and the bound one rounding away
    from the exact sum or difference. *)
Lemma thresholds_real_error (k mu sigma : float) :
  let t := (k * sigma)%float in
  let exact := thresholds (B2R k) (B2R mu) (B2R sigma) in
  (is_finite (mu + t) = true ->
   Rabs (B2R (mu + t) - fst exact) <=
   u * (Rabs (B2R mu + B2R t) + Rabs (B2R k * B2R sigma)) + eta) /\
  (is_finite (mu - t) = true ->
   Rabs (B2R (mu - t) - snd exact) <=
   u * (Rabs (B2R mu - B2R t) + Rabs (B2R k * B2R sigma)) + eta).
Proof.
  intros t exact. unfold exact, thresholds. cbn [fst snd nadd nsub nmul Num_R].
  split; intros H.
  - destruct (Rounding.add_error mu t H) as (_ & Ht & E).
    destruct (Rounding.mul_error k sigma Ht) as (_ & _ & ET).
    replace (B2R (mu + t) - (B2R mu + B2R k * B2R sigma))
      with ((B2R (mu + t) - (B2R mu + B2R t)) + (B2R t - B2R k * B2R sigma))
      by lra.
    eapply Rle_trans; [apply Rabs_triang|]. fold t in ET. lra.
  - destruct (Rounding.sub_error mu t H) as (_ & Ht & E).
    destruct (Rounding.mul_error k sigma Ht) as (_ & _ & ET).
    replace (B2R (mu - t) - (B2R mu - B2R k * B2R sigma))
      with ((B2R (mu - t) - (B2R mu - B2R t)) - (B2R t - B2R k * B2R sigma))
      by lra.
    eapply Rle_trans; [apply Rabs_triang|]. rewrite Rabs_Ropp.
    fold t in ET. lra.
Qed.

End Accuracy.

(** * The residual analyzer *)

(** ** Lists *)

Lemma nth_error_combine {A B : Type} (l : list A) (l' : list B) (i : nat) :
  nth_error (combine l l') i =
  match nth_error l i, nth_error l' i with
  | Some a, Some b => Some (a, b)
  | _, _ => None
  end.
Proof.
  revert l' i. induction l as [|a l IH]; intros [|b l'] [|i]; simpl;
    try reflexivity.
  - destruct (nth_error l i); reflexivity.
  - apply IH.
Qed.

Lemma nth_error_series_sub (observed predicted : list float) (i : nat) (o p : float) :
  nth_error observed i = Some o ->
  nth_error predicted i = Some p ->
  nth_error (series_sub observed predicted) i = Some (o - p)%float.
Proof.
  intros Ho Hp. unfold series_sub.
  rewrite nth_error_map, nth_error_combine, Ho, Hp. reflexivity.
Qed.

Lemma count_true_all_false (flags : list bool) :
  (forall b, In b flags -> b = false) -> count_true flags = 0%nat.
Proof.
  unfold count_true. induction flags as [|b flags IH]; intros H; simpl.
  - reflexivity.
  - rewrite (H b (or_introl eq_refl)). apply IH.
    intros b' Hb'. apply H. now right.
Qed.

(** ** The classification rule *)

(** A residual that equals a bound does not pass that bound's test, and is
    not flagged at all when the bounds are in order. *)
Lemma flag_at_bound (upper lower r : float) :
  (F.eq r upper = true -> F.gt r upper = false) /\
  (F.eq r lower = true -> F.lt r lower = false) /\
  (F.le lower upper = true ->
   F.eq r upper = true \/ F.eq r lower = true ->
   flag upper lower r = false).
Proof.
  unfold flag, F.eq, F.gt, F.lt, F.le.
  assert (Hu : (r =? upper)%float = true -> (upper <? r)%float = false).
  { intros H. rewrite (FloatFacts.eqb_ltb_r r upper upper H).
    apply FloatFacts.ltb_irrefl. }
  assert (Hl : (r =? lower)%float = true -> (r <? lower)%float = false).
  { intros H. rewrite (FloatFacts.eqb_ltb_l r lower lower H).
    apply FloatFacts.ltb_irrefl. }
  repeat split; auto.
  intros Hle [H | H].
  - rewrite (Hu H). simpl.
    rewrite (FloatFacts.eqb_ltb_l r upper lower H).
    now apply FloatFacts.leb_not_gt.
  - rewrite (Hl H), orb_false_r.
    rewrite (FloatFacts.eqb_ltb_r r lower upper H).
    now apply FloatFacts.leb_not_gt.
Qed.

(** C1. For equal-length [observed] and [predicted] and every index [i] of
    the run, the residual is [observed[i] - predicted[i]], the flag is
    [residual[i] > upper or residual[i] < lower] with the bounds derived from
    the mean and standard deviation of the run's residuals, and a residual
    equal to a bound is not flagged (both comparisons are strict). *)
Theorem flag_rule (k : float) (observed predicted : list float) (i : nat) :
  List.length observed = List.length predicted ->
  (i < List.length observed)%nat ->
  let a := analyze k observed predicted in
  exists o p : float,
    nth_error observed i = Some o /\
    nth_error predicted i = Some p /\
    let r := (o - p)%float in
    nth_error (an_residual a) i = Some r /\
    upper_threshold a =
      (Series_mean (an_residual a) + k * Series_std (an_residual a))%float /\
    lower_threshold a =
      (Series_mean (an_residual a) - k * Series_std (an_residual a))%float /\
    nth_error (an_is_anomaly a) i =
      Some (F.gt r (upper_threshold a) || F.lt r (lower_threshold a)) /\
    (F.eq r (upper_threshold a) = true -> F.gt r (upper_threshold a) = false) /\
    (F.eq r (lower_threshold a) = true -> F.lt r (lower_threshold a) = false) /\
    (F.le (lower_threshold a) (upper_threshold a) = true ->
     F.eq r (upper_threshold a) = true \/ F.eq r (lower_threshold a) = true ->
     nth_error (an_is_anomaly a) i = Some false).
Proof.
  intros Hlen Hi a.
  destruct (nth_error observed i) as [o|] eqn:Ho.
  2: { apply nth_error_None in Ho. lia. }
  destruct (nth_error predicted i) as [p|] eqn:Hp.
  2: { apply nth_error_None in Hp. lia. }
  exists o, p. intros.
  pose proof (nth_error_series_sub observed predicted i o p Ho Hp) as Hr.
  assert (Hf : nth_error (an_is_anomaly a) i =
               Some (flag (upper_threshold a) (lower_threshold a) (o - p)%float)).
  { unfold a, analyze. simpl. now rewrite nth_error_map, Hr. }
  destruct (flag_at_bound (upper_threshold a) (lower_threshold a) (o - p)%float)
    as (Hu & Hl & Hb).
  repeat split; auto.
  intros Hle Heq. rewrite Hf. f_equal. now apply Hb.
Qed.

Lemma flag_rule_witness :
  let a := analyze 2.5 [1; 1; 1]%float [1; 1; 1]%float in
  exists o p : float,
    nth_error [1; 1; 1]%float 0 = Some o /\
    nth_error [1; 1; 1]%float 0 = Some p /\
    let r := (o - p)%float in
    nth_error (an_residual a) 0 = Some r /\
    upper_threshold a =
      (Series_mean (an_residual a) + 2.5 * Series_std (an_residual a))%float /\
    lower_threshold a =
      (Series_mean (an_residual a) - 2.5 * Series_std (an_residual a))%float /\
    nth_error (an_is_anomaly a) 0 =
      Some (F.gt r (upper_threshold a) || F.lt r (lower_threshold a)) /\
    (F.eq r (upper_threshold a) = true -> F.gt r (upper_threshold a) = false) /\
    (F.eq r (lower_threshold a) = true -> F.lt r (lower_threshold a) = false) /\
    (F.le (lower_threshold a) (upper_threshold a) = true ->
     F.eq r (upper_threshold a) = true \/ F.eq r (lower_threshold a) = true ->
     nth_error (an_is_anomaly a) 0 = Some false).
Proof.
  apply (flag_rule 2.5 [1; 1; 1]%float [1; 1; 1]%float 0).
  - reflexivity.
  - simpl. lia.
Defined.

(** ** The bounds *)

(** C2. The multiplier [k] is 2.5, and the bounds are [mu + k*sigma] and
    [mu - k*sigma] in binary64 arithmetic, where [mu] and [sigma] are
    computed once, from the whole residual column of the run.

    [mu] is the mean of all the residuals that are numbers, to within the
    roundings of the sum and of the division: a relative error of
    [(1 + 2^-53)^(n+2) - 1] of the mean magnitude, plus [2^-1075].

    [sigma] is their sample ([N - 1]) standard deviation: its square is the
    sample variance about [mu], to within a relative error of
    [(1 + 2^-53)^(n+7) - 1] plus three underflows, and the sample variance
    about [mu] is the sample variance about the exact mean plus
    [N/(N-1)] times the square of the error of [mu].

    Each bound is within two roundings of the same formula in exact
    arithmetic. *)
Theorem threshold_bounds (observed predicted : list float) :
  let a := residual_analyzer observed predicted in
  let rs := series_sub observed predicted in
  let n := List.length rs in
  let xs := numbers rs in
  let N := INR (List.length xs) in
  let k := Real.B2R (anomaly_threshold CONFIG) in
  let mu := Real.B2R (residual_mean a) in
  let sigma := Real.B2R (residual_std a) in
  let t := Real.B2R (2.5 * residual_std a) in
  let exact := thresholds k mu sigma in
  anomaly_threshold CONFIG = 2.5%float /\ k = 2.5%R /\
  an_residual a = rs /\
  residual_mean a = Series_mean rs /\
  residual_std a = Series_std rs /\
  upper_threshold a = (residual_mean a + 2.5 * residual_std a)%float /\
  lower_threshold a = (residual_mean a - 2.5 * residual_std a)%float /\
  ((Z.of_nat n < 2 ^ 53)%Z -> is_finite (residual_mean a) = true ->
   Forall number_or_nan rs /\ (1 <= List.length xs)%nat /\
   (Rabs (mu - Rmean xs) <=
    Real.gamma (n + 2) * (Rsum (map Rabs xs) / N) + Real.eta)%R) /\
  ((Z.of_nat n < 2 ^ 53)%Z -> is_finite (residual_std a) = true ->
   Forall number_or_nan rs /\ (2 <= List.length xs)%nat /\
   is_finite (residual_mean a) = true /\
   (0 <= sigma)%R /\
   (Rabs (sigma * sigma - Rvar mu xs) <=
    Real.gamma (n + 7) * Rvar mu xs +
    3 * (1 + Real.u) ^ (n + 4) * Real.eta)%R /\
   Rvar mu xs =
     (Rvar (Rmean xs) xs +
      N / (N - 1) * ((mu - Rmean xs) * (mu - Rmean xs)))%R) /\
  (is_finite (upper_threshold a) = true ->
   (Rabs (Real.B2R (upper_threshold a) - fst exact) <=
    Real.u * (Rabs (mu + t) + Rabs (k * sigma)) + Real.eta)%R) /\
  (is_finite (lower_threshold a) = true ->
   (Rabs (Real.B2R (lower_threshold a) - snd exact) <=
    Real.u * (Rabs (mu - t) + Rabs (k * sigma)) + Real.eta)%R).
Proof.
  intros a rs n xs N k mu sigma t exact.
  change (residual_mean a) with (Series_mean rs) in *.
  change (residual_std a) with (Series_std rs) in *.
  split; [reflexivity|]. split; [exact Accuracy.B2R_threshold|].
  do 5 (split; [reflexivity|]).
  split; [|split; [|split]].
  - intros Hn Hf.
    destruct (Accuracy.Series_mean_error rs Hn Hf) as (Hc & Hnum & E).
    unfold N, xs. rewrite Accuracy.numbers_length.
    split; [exact Hnum|]. split; [exact Hc|]. exact E.
  - intros Hn Hf.
    destruct (Accuracy.Series_std_error rs Hn Hf) as (Hc & Hnum & Hm & Hs & E).
    unfold N, xs. rewrite Accuracy.numbers_length.
    split; [exact Hnum|]. split; [exact Hc|]. split; [exact Hm|].
    split; [exact Hs|]. split; [exact E|].
    rewrite <- (Accuracy.numbers_length rs).
    apply Accuracy.Rvar_shift. rewrite Accuracy.numbers_length. exact Hc.
  - exact (proj1 (Accuracy.thresholds_real_error 2.5 (Series_mean rs) (Series_std rs))).
  - exact (proj2 (Accuracy.thresholds_real_error 2.5 (Series_mean rs) (Series_std rs))).
Qed.

Lemma threshold_bounds_witness :
  let a := residual_analyzer [2; 5]%float [0; 0]%float in
  let xs := numbers (an_residual a) in
  let mu := Real.B2R (residual_mean a) in
  let sigma := Real.B2R (residual_std a) in
  is_finite (residual_mean a) = true /\
  is_finite (residual_std a) = true /\
  (Rabs (mu - Rmean xs) <=
   Real.gamma 4 * (Rsum (map Rabs xs) / INR (List.length xs)) + Real.eta)%R /\
  (Rabs (sigma * sigma - Rvar mu xs) <=
   Real.gamma 9 * Rvar mu xs + 3 * (1 + Real.u) ^ 6 * Real.eta)%R.
Proof.
  pose proof (threshold_bounds [2; 5]%float [0; 0]%float) as H.
  destruct H as (_ & _ & _ & _ & _ & _ & _ & Hmean & Hstd & _).
  split; [reflexivity|]. split; [reflexivity|]. split.
  - apply Hmean; reflexivity.
  - apply Hstd; reflexivity.
Defined.

(** ** The scenario of the spec *)

(** C4, as stated, fails: index 4 is not flagged. *)
Lemma scenario_index_4_not_flagged :
  let a := residual_analyzer [10; 10; 10; 10; 100]%float
                             [10; 10; 10; 10; 10]%float in
  nth_error (an_is_anomaly a) 4 = Some false /\
  F.gt 90 (upper_threshold a) = false.
Proof. vm_compute. split; reflexivity. Qed.

(** C4, amended. For observed [10,10,10,10,100] and predicted
    [10,10,10,10,10] with [k = 2.5] the residuals are [0,0,0,0,90] with mean
    18 and sample standard deviation [sqrt 1620], about 40.25; the bounds are
    about 118.62 and -82.62, so the residual 90 stays inside them and no
    index is flagged. *)
Theorem scenario_no_flag :
  let a := residual_analyzer [10; 10; 10; 10; 100]%float
                             [10; 10; 10; 10; 10]%float in
  an_residual a = [0; 0; 0; 0; 90]%float /\
  residual_mean a = 18%float /\
  residual_std a = PrimFloat.sqrt 1620 /\
  residual_std a = 40.249223594996216%float /\
  upper_threshold a = 118.62305898749054%float /\
  lower_threshold a = (-82.623058987490538)%float /\
  an_is_anomaly a = [false; false; false; false; false] /\
  anomaly_count a = 0%nat.
Proof. vm_compute. repeat split. Qed.

(** With the population ([N]) standard deviation, 36 here, the upper bound
    would be 108: the residual 90 stays below it as well. *)
Example scenario_population_bound :
  PrimFloat.sqrt (6480 / 5) = 36%float /\
  F.gt 90 (18 + 2.5 * 36) = false.
Proof. vm_compute. split; reflexivity. Qed.

(** ** The width of the band *)

(** C5, as stated, fails: for the residuals [2, 5] the two sides differ in
    the last place. *)
Lemma width_not_exact :
  let a := residual_analyzer [2; 5]%float [0; 0]%float in
  an_residual a = [2; 5]%float /\
  (upper_threshold a - lower_threshold a)%float = 10.606601717798213%float /\
  (2 * 2.5 * residual_std a)%float = 10.606601717798211%float /\
  F.eq (upper_threshold a - lower_threshold a) (2 * 2.5 * residual_std a) = false /\
  F.eq (upper_threshold a - lower_threshold a) (2 * (2.5 * residual_std a)) = false.
Proof. vm_compute. repeat split. Qed.

(** The two bounds, for any multiplier: each is one rounding away from the
    exact sum or difference, and the product one rounding away from the
    exact product. *)
Lemma thresholds_error (k mu sigma : float) :
  let t := (k * sigma)%float in
  is_finite (mu + t) = true -> is_finite (mu - t) = true ->
  is_finite mu = true /\ is_finite sigma = true /\
  (Rabs (Real.B2R (mu + t) - Real.B2R (mu - t) - 2 * Real.B2R t) <=
   Real.u * (Rabs (Real.B2R mu + Real.B2R t) +
             Rabs (Real.B2R mu - Real.B2R t)))%R /\
  (Rabs (Real.B2R t - Real.B2R k * Real.B2R sigma) <=
   Real.u * Rabs (Real.B2R k * Real.B2R sigma) + Real.eta)%R.
Proof.
  intros t HU HL.
  destruct (Rounding.add_error mu t HU) as (Hmu & Ht & EU).
  destruct (Rounding.sub_error mu t HL) as (_ & _ & EL).
  destruct (Rounding.mul_error k sigma Ht) as (_ & Hs & ET).
  repeat split; try assumption.
  replace (Real.B2R (mu + t) - Real.B2R (mu - t) - 2 * Real.B2R t)%R
    with ((Real.B2R (mu + t) - (Real.B2R mu + Real.B2R t)) -
          (Real.B2R (mu - t) - (Real.B2R mu - Real.B2R t)))%R by lra.
  eapply Rle_trans; [apply Rabs_triang|].
  rewrite Rabs_Ropp. lra.
Qed.

(** C5, amended. The bounds are the binary64 values of [mu + k*sigma] and
    [mu - k*sigma].  When both are finite, [upper - lower] differs from
    twice the computed product [k*sigma] by at most the rounding of the two
    bounds, [2^-53 * (|mu + k*sigma| + |mu - k*sigma|)], and from the exact
    [2*k*sigma] by at most that plus twice the rounding of the product,
    [2^-53 * k*sigma + 2^-1075]; it need not be equal.  Subtracting the
    bounds in binary64 rounds once more. *)
Theorem threshold_width (observed predicted : list float) :
  let a := residual_analyzer observed predicted in
  let mu := residual_mean a in
  let sigma := residual_std a in
  let t := (2.5 * sigma)%float in
  is_finite (upper_threshold a) = true ->
  is_finite (lower_threshold a) = true ->
  upper_threshold a = (mu + t)%float /\
  lower_threshold a = (mu - t)%float /\
  is_finite mu = true /\ is_finite sigma = true /\
  (Rabs (Real.B2R (upper_threshold a) - Real.B2R (lower_threshold a) -
         2 * Real.B2R t) <=
   Real.u * (Rabs (Real.B2R mu + Real.B2R t) +
             Rabs (Real.B2R mu - Real.B2R t)))%R /\
  (Rabs (Real.B2R (upper_threshold a) - Real.B2R (lower_threshold a) -
         2 * 2.5 * Real.B2R sigma) <=
   Real.u * (Rabs (Real.B2R mu + Real.B2R t) +
             Rabs (Real.B2R mu - Real.B2R t) +
             2 * Rabs (2.5 * Real.B2R sigma)) + 2 * Real.eta)%R /\
  (is_finite (upper_threshold a - lower_threshold a) = true ->
   (Rabs (Real.B2R (upper_threshold a - lower_threshold a) -
          (Real.B2R (upper_threshold a) - Real.B2R (lower_threshold a))) <=
    Real.u * Rabs (Real.B2R (upper_threshold a) -
                   Real.B2R (lower_threshold a)))%R).
Proof.
  intros a mu sigma t HU HL.
  change (upper_threshold a) with (mu + t)%float in *.
  change (lower_threshold a) with (mu - t)%float in *.
  destruct (thresholds_error 2.5 mu sigma HU HL) as (Hmu & Hs & EW & ET).
  fold t in EW, ET. rewrite Accuracy.B2R_threshold in ET.
  do 5 (split; [reflexivity || assumption|]). split.
  - replace (Real.B2R (mu + t) - Real.B2R (mu - t) - 2 * 2.5 * Real.B2R sigma)%R
      with ((Real.B2R (mu + t) - Real.B2R (mu - t) - 2 * Real.B2R t) +
            2 * (Real.B2R t - 2.5 * Real.B2R sigma))%R by lra.
    eapply Rle_trans; [apply Rabs_triang|].
    rewrite Rabs_mult, (Rabs_pos_eq 2) by lra. lra.
  - intros HD. exact (proj2 (proj2 (Rounding.sub_error _ _ HD))).
Qed.

Lemma threshold_width_witness :
  let a := residual_analyzer [2; 5]%float [0; 0]%float in
  let mu := residual_mean a in
  let sigma := residual_std a in
  let t := (2.5 * sigma)%float in
  upper_threshold a = (mu + t)%float /\
  lower_threshold a = (mu - t)%float /\
  is_finite mu = true /\ is_finite sigma = true /\
  (Rabs (Real.B2R (upper_threshold a) - Real.B2R (lower_threshold a) -
         2 * Real.B2R t) <=
   Real.u * (Rabs (Real.B2R mu + Real.B2R t) +
             Rabs (Real.B2R mu - Real.B2R t)))%R /\
  (Rabs (Real.B2R (upper_threshold a) - Real.B2R (lower_threshold a) -
         2 * 2.5 * Real.B2R sigma) <=
   Real.u * (Rabs (Real.B2R mu + Real.B2R t) +
             Rabs (Real.B2R mu - Real.B2R t) +
             2 * Rabs (2.5 * Real.B2R sigma)) + 2 * Real.eta)%R /\
  (is_finite (upper_threshold a - lower_threshold a) = true ->
   (Rabs (Real.B2R (upper_threshold a - lower_threshold a) -
          (Real.B2R (upper_threshold a) - Real.B2R (lower_threshold a))) <=
    Real.u * Rabs (Real.B2R (upper_threshold a) -
                   Real.B2R (lower_threshold a)))%R).
Proof.
  apply (threshold_width [2; 5]%float [0; 0]%float); reflexivity.
Defined.

(** ** A single residual *)

(** C10. With exactly one residual the sample standard deviation is NaN, both
    bounds are NaN, and the point is not flagged. *)
Theorem single_residual_nan (k o p : float) :
  let a := analyze k [o] [p] in
  an_residual a = [(o - p)%float] /\
  residual_std a = nan /\
  upper_threshold a = nan /\
  lower_threshold a = nan /\
  an_is_anomaly a = [false] /\
  anomaly_count a = 0%nat.
Proof.
  intros a.
  assert (Hs : residual_std a = nan).
  { change (residual_std a) with (Series_std [(o - p)%float]).
    unfold Series_std, count_notna. cbn [filter].
    destruct (notna (o - p)); reflexivity. }
  assert (Hk : Prim2SF (k * nan)%float = S754_nan)
    by (apply FloatFacts.mul_nan_r; reflexivity).
  assert (Hu : Prim2SF (upper_threshold a) = S754_nan).
  { change (upper_threshold a)
      with (residual_mean a + k * residual_std a)%float.
    rewrite Hs. now apply FloatFacts.add_nan_r. }
  assert (Hl : Prim2SF (lower_threshold a) = S754_nan).
  { change (lower_threshold a)
      with (residual_mean a - k * residual_std a)%float.
    rewrite Hs. now apply FloatFacts.sub_nan_r. }
  assert (Hf : an_is_anomaly a = [false]).
  { change (an_is_anomaly a)
      with [flag (upper_threshold a) (lower_threshold a) (o - p)%float].
    unfold flag, F.gt, F.lt.
    rewrite (FloatFacts.ltb_nan_l _ _ Hu), (FloatFacts.ltb_nan_r _ _ Hl).
    reflexivity. }
  repeat split; auto using FloatFacts.eq_nan.
  change (anomaly_count a) with (count_true (an_is_anomaly a)).
  now rewrite Hf.
Qed.

(** ** The degenerate case [sigma = 0] *)

Lemma eqb_zero (x : float) :
  F.eq x 0 = true -> exists s, Prim2SF x = S754_zero s.
Proof.
  unfold F.eq. rewrite eqb_spec. unfold SFeqb.
  change (Prim2SF 0) with (S754_zero false).
  destruct (Prim2SF x) as [s|s| |s m e]; simpl; try discriminate.
  - eauto.
  - destruct s; discriminate.
  - destruct s; discriminate.
Qed.

Lemma eqb_refl_number (x : float) : is_nan x = false -> F.eq x x = true.
Proof.
  unfold is_nan, F.eq. now destruct (x =? x)%float.
Qed.

(** Adding or subtracting a zero leaves a number as it is (up to the sign of
    a zero result). *)
Lemma add_zero_eq (x z : float) (s : bool) :
  Prim2SF z = S754_zero s -> is_nan x = false ->
  is_nan (x + z) = false /\ F.eq (x + z) x = true.
Proof.
  intros Hz Hx. pose proof (eqb_refl_number x Hx) as Hxx.
  apply FloatFacts.is_nan_false in Hx.
  rewrite FloatFacts.is_nan_false. unfold F.eq in *.
  rewrite eqb_spec in *. rewrite add_spec, Hz.
  destruct (Prim2SF x) as [sx|sx| |sx mx ex]; simpl; try congruence.
  - destruct sx, s; split; (discriminate || reflexivity).
  - split; [discriminate | exact Hxx].
  - split; [discriminate | exact Hxx].
Qed.

Lemma sub_zero_eq (x z : float) (s : bool) :
  Prim2SF z = S754_zero s -> is_nan x = false ->
  is_nan (x - z) = false /\ F.eq (x - z) x = true.
Proof.
  intros Hz Hx. pose proof (eqb_refl_number x Hx) as Hxx.
  apply FloatFacts.is_nan_false in Hx.
  rewrite FloatFacts.is_nan_false. unfold F.eq in *.
  rewrite eqb_spec in *. rewrite sub_spec, Hz.
  destruct (Prim2SF x) as [sx|sx| |sx mx ex]; simpl; try congruence.
  - destruct sx, s; split; (discriminate || reflexivity).
  - split; [discriminate | exact Hxx].
  - split; [discriminate | exact Hxx].
Qed.

(** What holds of zeros, of the values and of a sum of two, holds of the
    sum of the column. *)
Lemma addition_tree_closed (P : float -> Prop) :
  P 0%float -> P neg_zero ->
  (forall a b, P a -> P b -> P (a + b)%float) ->
  forall (d : nat) (l : list float) (s : float),
    addition_tree d l s -> Forall P l -> P s.
Proof.
  intros H0 Hn Hadd d l s T.
  induction T as [d z Hz|d x|d l1 l2 s1 s2 T1 IH1 T2 IH2|d l l' s Hp T IH];
    intros HF.
  - destruct Hz; subst; assumption.
  - now inversion HF.
  - apply Forall_app in HF. destruct HF. auto.
  - apply IH. apply Permutation_Forall with (1 := Permutation_sym Hp). exact HF.
Qed.

(** What a sum can only have when both its terms have it, every value of the
    column has when the sum does. *)
Lemma addition_tree_reflect (Q : float -> Prop) :
  (forall a b, Q (a + b)%float -> Q a /\ Q b) ->
  forall (d : nat) (l : list float) (s : float),
    addition_tree d l s -> Q s -> Forall Q l.
Proof.
  intros Hadd d l s T.
  induction T as [d z Hz|d x|d l1 l2 s1 s2 T1 IH1 T2 IH2|d l l' s Hp T IH];
    intros HQ.
  - constructor.
  - now repeat constructor.
  - destruct (Hadd _ _ HQ). apply Forall_app. auto.
  - apply Permutation_Forall with (1 := Hp). auto.
Qed.

(** A sum that is a number has only numbers as terms. *)
Lemma np_sum_number (l : list float) :
  is_nan (np_sum l) = false -> forall x, In x l -> is_nan x = false.
Proof.
  intros H. apply Forall_forall.
  apply (addition_tree_reflect (fun x => is_nan x = false))
    with (2 := np_sum_tree l); [|exact H].
  intros a b Hab. rewrite !FloatFacts.is_nan_false in *.
  split; intros E; apply Hab.
  - now apply FloatFacts.add_nan_l.
  - now apply FloatFacts.add_nan_r.
Qed.

Lemma count_notna_In (rs : list float) :
  (1 <= count_notna rs)%nat -> exists x, In x rs /\ is_nan x = false.
Proof.
  unfold count_notna. intros H.
  destruct (filter notna rs) as [|x l] eqn:E; [simpl in H; lia|].
  assert (Hx : In x (filter notna rs)) by (rewrite E; now left).
  apply filter_In in Hx. destruct Hx as [Hi Hn].
  exists x. split; [exact Hi|]. unfold notna in Hn.
  now destruct (is_nan x).
Qed.

(** When the standard deviation is a zero, the series has at least two
    values that are numbers, and its mean is a number. *)
Lemma std_zero_numbers (rs : list float) :
  F.eq (Series_std rs) 0 = true ->
  (2 <= count_notna rs)%nat /\
  is_nan (Series_mean rs) = false.
Proof.
  intros H. unfold Series_std in H.
  destruct (Nat.leb (count_notna rs) 1) eqn:E; [discriminate H|].
  apply Nat.leb_gt in E.
  destruct (eqb_zero _ H) as [s Hs].
  set (avg := Series_mean rs) in *.
  set (sqr := squared_deviations avg rs) in *.
  assert (Hq : is_nan (np_sum sqr / (F.of_nat (count_notna rs) - 1)) = false).
  { apply FloatFacts.is_nan_false. intros N.
    rewrite (FloatFacts.sqrt_nan _ N) in Hs. discriminate. }
  assert (Hsum : is_nan (np_sum sqr) = false).
  { apply FloatFacts.is_nan_false. intros N.
    apply FloatFacts.is_nan_false in Hq. apply Hq.
    now apply FloatFacts.div_nan_l. }
  pose proof (np_sum_number _ Hsum) as Hall.
  split; [lia|].
  destruct (count_notna_In rs ltac:(lia)) as (r & Hr & Hn).
  assert (Hin : In ((avg - r) * (avg - r))%float sqr).
  { unfold sqr, squared_deviations. apply in_map_iff. exists r.
    rewrite Hn. now split. }
  specialize (Hall _ Hin). apply FloatFacts.is_nan_false in Hall.
  apply FloatFacts.is_nan_false. intros N. apply Hall.
  apply FloatFacts.mul_nan_l. now apply FloatFacts.sub_nan_l.
Qed.

Lemma mul_zero_r (x : float) (s : bool) :
  Prim2SF x = S754_zero s -> exists s', Prim2SF (2.5 * x) = S754_zero s'.
Proof.
  intros H. rewrite mul_spec, H.
  change (Prim2SF 2.5) with (S754_finite false 5629499534213120 (-51)).
  simpl. eauto.
Qed.

(** ** A run whose prediction equals the observation *)

Lemma zn_neg_zero : F.zero_or_nan neg_zero.
Proof. right. now exists true. Qed.

Lemma zn_np_sum (l : list float) :
  Forall F.zero_or_nan l -> F.zero_or_nan (np_sum l).
Proof.
  apply (addition_tree_closed F.zero_or_nan) with (4 := np_sum_tree l).
  - apply FloatFacts.zn_zero.
  - apply zn_neg_zero.
  - apply FloatFacts.zn_add.
Qed.

Lemma zn_fillna (l : list float) :
  Forall F.zero_or_nan l -> Forall F.zero_or_nan (fillna l).
Proof.
  intros H. apply Forall_map. apply Forall_impl with (2 := H).
  intros x Hx. destruct (is_nan x); [apply FloatFacts.zn_zero | exact Hx].
Qed.

Lemma zn_mean (l : list float) :
  Forall F.zero_or_nan l -> F.zero_or_nan (Series_mean l).
Proof.
  intros H. unfold Series_mean.
  destruct (Nat.eqb (count_notna l) 0); [now left|].
  apply FloatFacts.zn_div_l, zn_np_sum, zn_fillna, H.
Qed.

Lemma zn_std (l : list float) :
  Forall F.zero_or_nan l -> F.zero_or_nan (Series_std l).
Proof.
  intros H. unfold Series_std.
  destruct (Nat.leb (count_notna l) 1).
  - left. reflexivity.
  - apply FloatFacts.zn_sqrt, FloatFacts.zn_div_l, zn_np_sum.
    apply Forall_map. apply Forall_impl with (2 := H).
    intros x Hx. destruct (is_nan x); [apply FloatFacts.zn_zero|].
    apply FloatFacts.zn_mul_r, FloatFacts.zn_sub; [now apply zn_mean | exact Hx].
Qed.

Lemma series_sub_self (observed : list float) :
  Forall F.zero_or_nan (series_sub observed observed).
Proof.
  unfold series_sub. induction observed as [|x l IH]; simpl; constructor.
  - apply FloatFacts.zn_sub_diag.
  - exact IH.
Qed.

(** Whenever all residuals are zeros, nothing is flagged. *)
Lemma zero_residuals_no_flag (k : float) (observed predicted : list float) :
  Forall F.zero_or_nan (series_sub observed predicted) ->
  let a := analyze k observed predicted in
  an_is_anomaly a = repeat false (List.length (series_sub observed predicted)) /\
  anomaly_count a = 0%nat.
Proof.
  intros Hrs a.
  set (rs := series_sub observed predicted) in *.
  assert (Hu : F.zero_or_nan (upper_threshold a)).
  { unfold a, analyze. simpl. fold rs.
    apply FloatFacts.zn_add; [now apply zn_mean|].
    apply FloatFacts.zn_mul_r. now apply zn_std. }
  assert (Hl : F.zero_or_nan (lower_threshold a)).
  { unfold a, analyze. simpl. fold rs.
    apply FloatFacts.zn_sub; [now apply zn_mean|].
    apply FloatFacts.zn_mul_r. now apply zn_std. }
  assert (Hf : an_is_anomaly a = repeat false (List.length rs)).
  { change (an_is_anomaly a)
      with (map (flag (upper_threshold a) (lower_threshold a)) rs).
    clearbody a. clear - Hrs Hu Hl.
    induction Hrs as [|r l Hr Hrs IH]; simpl; [reflexivity|].
    rewrite IH. f_equal. unfold flag, F.gt, F.lt.
    now rewrite (FloatFacts.zn_ltb _ _ Hu Hr), (FloatFacts.zn_ltb _ _ Hr Hl). }
  split; [exact Hf|].
  change (anomaly_count a) with (count_true (an_is_anomaly a)).
  rewrite Hf. apply count_true_all_false.
  intros b Hb. now apply repeat_spec in Hb.
Qed.

(** C3, as stated, fails: three equal residuals, [0.1 * 2^-600] each, have
    a mean one unit in the last place above them (the sum [3x] is rounded
    up), squared deviations that underflow to [0], so [sigma = 0] and both
    bounds at that mean; the three equal residuals lie below the lower bound
    and are all flagged. *)
Lemma equal_residuals_flagged :
  let x := 0x1.999999999999ap-604%float in
  let a := residual_analyzer [x; x; x] [0; 0; 0]%float in
  an_residual a = [x; x; x] /\
  F.eq (residual_std a) 0 = true /\
  F.lt x (residual_mean a) = true /\
  F.eq (lower_threshold a) (residual_mean a) = true /\
  an_is_anomaly a = [true; true; true] /\
  anomaly_count a = 3%nat.
Proof. vm_compute. repeat split. Qed.

(** C3, amended. If sigma is 0, there are at least two residuals that are
    numbers (the divisors [N] and [N - 1] are not zero), neither the mean
    nor a bound is NaN, both bounds equal the mean, and the analyzer flags
    exactly the indices whose residual is a number different from the
    computed mean: none when every residual is NaN or equals the computed
    mean (equal residuals need not: their mean is a rounded sum).  In
    particular a constant observed series equal to the predicted one yields
    no anomaly, at every length. *)
Theorem zero_sigma_flags :
  (forall observed predicted : list float,
     let a := residual_analyzer observed predicted in
     F.eq (residual_std a) 0 = true ->
     (2 <= count_notna (an_residual a))%nat /\
     is_nan (residual_mean a) = false /\
     is_nan (upper_threshold a) = false /\
     is_nan (lower_threshold a) = false /\
     F.eq (upper_threshold a) (residual_mean a) = true /\
     F.eq (lower_threshold a) (residual_mean a) = true /\
     (forall (i : nat) (r : float),
        nth_error (an_residual a) i = Some r ->
        nth_error (an_is_anomaly a) i =
          Some (notna r && negb (F.eq r (residual_mean a)))) /\
     ((forall r, In r (an_residual a) ->
                 is_nan r = true \/ F.eq r (residual_mean a) = true) ->
      anomaly_count a = 0%nat)) /\
  (forall (c : float) (n : nat),
     let a := residual_analyzer (repeat c n) (repeat c n) in
     an_is_anomaly a = repeat false n /\ anomaly_count a = 0%nat).
Proof.
  split.
  - intros observed predicted a Hs.
    set (rs := series_sub observed predicted).
    change (residual_std a) with (Series_std rs) in Hs.
    destruct (std_zero_numbers rs Hs) as (Hn & Hmu).
    destruct (eqb_zero _ Hs) as [s Hz].
    destruct (mul_zero_r _ _ Hz) as [s' Hk].
    destruct (add_zero_eq (Series_mean rs) _ _ Hk Hmu) as [Hun Hue].
    destruct (sub_zero_eq (Series_mean rs) _ _ Hk Hmu) as [Hln Hle].
    change (upper_threshold a)
      with (Series_mean rs + 2.5 * Series_std rs)%float.
    change (lower_threshold a)
      with (Series_mean rs - 2.5 * Series_std rs)%float.
    change (residual_mean a) with (Series_mean rs).
    change (an_residual a) with rs.
    assert (Hflag : forall r,
              flag (Series_mean rs + 2.5 * Series_std rs)%float
                   (Series_mean rs - 2.5 * Series_std rs)%float r =
              notna r && negb (F.eq r (Series_mean rs))).
    { intros r. unfold flag, F.gt, F.lt, F.eq, notna in *.
      destruct (is_nan r) eqn:Hr.
      - apply FloatFacts.is_nan_true in Hr.
        now rewrite (FloatFacts.ltb_nan_r _ _ Hr), (FloatFacts.ltb_nan_l _ _ Hr).
      - rewrite (FloatFacts.eqb_ltb_l _ _ r Hue), (FloatFacts.eqb_ltb_r _ _ r Hle).
        now apply FloatFacts.ltb_or_ltb. }
    change (an_is_anomaly a)
      with (map (flag (Series_mean rs + 2.5 * Series_std rs)%float
                      (Series_mean rs - 2.5 * Series_std rs)%float) rs).
    change (anomaly_count a)
      with (count_true
              (map (flag (Series_mean rs + 2.5 * Series_std rs)%float
                         (Series_mean rs - 2.5 * Series_std rs)%float) rs)).
    repeat apply conj; auto.
    + intros i r Hr. rewrite nth_error_map, Hr. simpl. f_equal.
      apply Hflag.
    + intros Hall. apply count_true_all_false.
      intros b Hb. apply in_map_iff in Hb. destruct Hb as (r & <- & Hr).
      rewrite (Hflag r). unfold notna.
      destruct (Hall r Hr) as [E | E]; rewrite E;
        [reflexivity | apply andb_false_r].
  - intros c n a.
    destruct (zero_residuals_no_flag (anomaly_threshold CONFIG)
                (repeat c n) (repeat c n) (series_sub_self _)) as [Hf Hc].
    split; [|exact Hc].
    fold residual_analyzer in Hf. fold a in Hf. rewrite Hf. f_equal.
    unfold series_sub.
    now rewrite length_map, length_combine, repeat_length, Nat.min_id.
Qed.

Lemma zero_sigma_flags_witness :
  let a := residual_analyzer [3; 3; 3]%float [1; 1; 1]%float in
  F.eq (residual_std a) 0 = true /\
  (2 <= count_notna (an_residual a))%nat /\
  is_nan (residual_mean a) = false /\
  is_nan (upper_threshold a) = false /\
  is_nan (lower_threshold a) = false /\
  F.eq (upper_threshold a) (residual_mean a) = true /\
  F.eq (lower_threshold a) (residual_mean a) = true /\
  (forall (i : nat) (r : float),
     nth_error (an_residual a) i = Some r ->
     nth_error (an_is_anomaly a) i =
       Some (notna r && negb (F.eq r (residual_mean a)))) /\
  ((forall r, In r (an_residual a) ->
              is_nan r = true \/ F.eq r (residual_mean a) = true) ->
   anomaly_count a = 0%nat).
Proof.
  split.
  - reflexivity.
  - apply (proj1 zero_sigma_flags [3; 3; 3]%float [1; 1; 1]%float).
    reflexivity.
Defined.

(** The hypothesis [sigma = 0] takes two residuals: a run of one point has
    a single residual, no sample standard deviation and NaN bounds. *)
Example constant_singleton_nan_bounds :
  let a := residual_analyzer [5]%float [5]%float in
  an_residual a = [0]%float /\
  residual_mean a = 0%float /\
  is_nan (residual_std a) = true /\
  is_nan (upper_threshold a) = true /\
  is_nan (lower_threshold a) = true /\
  anomaly_count a = 0%nat.
Proof. vm_compute. repeat split. Qed.

(** * The report *)

Lemma mask_select_combine {A B : Type} (l : list A) (l' : list B) (mask : list bool) :
  mask_select (combine l l') mask =
  combine (mask_select l mask) (mask_select l' mask).
Proof.
  revert l' mask. induction l as [|x l IH]; intros l' mask.
  - reflexivity.
  - destruct l' as [|y l'].
    + simpl. now rewrite combine_nil.
    + destruct mask as [|b mask]; [reflexivity|].
      simpl. destruct b; simpl; now rewrite IH.
Qed.

(** Selecting by a mask that agrees with a predicate is filtering. *)
Lemma mask_select_filter {A : Type} (g : A -> bool) (l : list A) (mask : list bool) :
  (forall i x, nth_error l i = Some x -> nth_error mask i = Some (g x)) ->
  mask_select l mask = filter g l.
Proof.
  revert mask. induction l as [|x l IH]; intros mask H.
  - reflexivity.
  - destruct mask as [|b mask].
    + specialize (H 0%nat x eq_refl). discriminate.
    + pose proof (H 0%nat x eq_refl) as H0. injection H0 as ->.
      simpl. rewrite (IH mask); [reflexivity|].
      intros i y Hy. exact (H (S i) y Hy).
Qed.

Lemma length_filter_count {A : Type} (g : A -> bool) (l : list A) :
  List.length (filter g l) = count_true (map g l).
Proof.
  unfold count_true. induction l as [|x l IH]; simpl; [reflexivity|].
  destruct (g x); simpl; now rewrite IH.
Qed.

Lemma map_snd_combine {A B : Type} (l : list A) (l' : list B) :
  List.length l = List.length l' -> map snd (combine l l') = l'.
Proof.
  revert l'. induction l as [|x l IH]; intros [|y l'] H; simpl in *;
    try reflexivity; try discriminate.
  f_equal. apply IH. now injection H.
Qed.

(** The rows of the selected frame are the flagged rows of the frame. *)
Lemma records_select (ts : list Z) (cpu : list float) (a : AnalysisColumns) :
  let mask := is_anomaly a in
  records (mask_select ts mask) (mask_select cpu mask)
    {| predicted := mask_select (predicted a) mask;
       residual := mask_select (residual a) mask;
       is_anomaly := mask_select (is_anomaly a) mask |} =
  filter r_is_anomaly (records ts cpu a).
Proof.
  intros mask. unfold records. simpl.
  rewrite filter_map_swap. f_equal.
  rewrite <- !mask_select_combine.
  apply mask_select_filter.
  intros i x Hx. simpl.
  rewrite !nth_error_combine in Hx. fold mask in Hx.
  destruct (nth_error ts i), (nth_error cpu i), (nth_error (predicted a) i),
    (nth_error (residual a) i), (nth_error mask i); try discriminate.
  now injection Hx as <-.
Qed.

Lemma records_flags (df : DataFrame) (a : AnalysisColumns) :
  frame_wf df a ->
  map r_is_anomaly (records (timestamp df) (cpu_percent df) a) = is_anomaly a.
Proof.
  intros (Hc & Hp & Hr & Hf). unfold records.
  rewrite map_map. simpl.
  rewrite <- (map_map snd (fun r => snd (snd (snd r)))).
  rewrite map_snd_combine
    by (rewrite !length_combine; lia).
  rewrite <- (map_map snd (fun r => snd (snd r))).
  rewrite map_snd_combine
    by (rewrite !length_combine; lia).
  rewrite <- (map_map snd snd).
  rewrite map_snd_combine
    by (rewrite !length_combine; lia).
  apply map_snd_combine. lia.
Qed.

Lemma sorted_map_fst_combine {A : Type} (l : list Z) (l' : list A) :
  StronglySorted Z.lt l -> StronglySorted Z.lt (map fst (combine l l')).
Proof.
  intros H. revert l'. induction H as [|t l Hs IH Hall]; intros l'.
  - constructor.
  - destruct l' as [|y l']; simpl; constructor.
    + apply IH.
    + apply Forall_forall. intros t' Ht'.
      apply in_map_iff in Ht'. destruct Ht' as ([t'' y'] & <- & Hin).
      apply in_combine_l in Hin.
      revert t'' Hin. now apply Forall_forall.
Qed.

Lemma sorted_map_filter {A : Type} (f : A -> Z) (g : A -> bool) (l : list A) :
  StronglySorted Z.lt (map f l) -> StronglySorted Z.lt (map f (filter g l)).
Proof.
  induction l as [|x l IH]; simpl; intros H.
  - constructor.
  - apply StronglySorted_inv in H. destruct H as [Hs Hall].
    destruct (g x); simpl; [|now apply IH].
    constructor; [now apply IH|].
    apply Forall_forall. intros t Ht.
    apply in_map_iff in Ht. destruct Ht as (y & <- & Hy).
    apply filter_In in Hy. destruct Hy as [Hy _].
    assert (Hin : In (f y) (map f l)) by now apply in_map.
    revert Hin. now apply Forall_forall.
Qed.

Section Reporting.

Variable np : Numpy.

Lemma save_report_file (cfg : Config) (df : DataFrame) (a : AnalysisColumns)
  (w : World np) :
  analysis df = Some a ->
  report_of cfg (snd (save_report cfg df w)) =
  Some (filter r_is_anomaly (records (timestamp df) (cpu_percent df) a)).
Proof.
  intros Ha. unfold save_report, bind, lift, select_anomalies, report_of.
  rewrite Ha. simpl. rewrite String.eqb_refl.
  unfold to_csv. simpl. now rewrite records_select.
Qed.

(** Drawing the plot leaves every other file as it is. *)
Lemma visualize_results_files (cfg : Config) (df : DataFrame) (w : World np)
  (path : string) :
  path <> plot_path cfg ->
  files (snd (visualize_results cfg df w)) path = files w path.
Proof.
  intros Hp. unfold visualize_results.
  destruct (analysis df) as [a|] eqn:Ha; [|reflexivity].
  unfold bind, lift, select_anomalies. rewrite Ha. simpl.
  apply String.eqb_neq in Hp. now rewrite Hp.
Qed.

(** C9. The report holds exactly the rows of the frame whose flag is true,
    with all five fields as they are in the frame, in the order of the frame
    (ascending timestamps); it has as many rows as there are true flags; and
    drawing the plot, before or after, does not change it. *)
Theorem report_contents (cfg : Config) (df : DataFrame) (a : AnalysisColumns)
  (w : World np) :
  analysis df = Some a ->
  plot_path cfg <> report_path cfg ->
  let full := records (timestamp df) (cpu_percent df) a in
  let report := filter r_is_anomaly full in
  let w_plot := snd (visualize_results cfg df w) in
  let w_report := snd (save_report cfg df w) in
  report_of cfg w_report = Some report /\
  report_of cfg (snd (save_report cfg df w_plot)) = Some report /\
  report_of cfg (snd (visualize_results cfg df w_report)) = Some report /\
  List.length report = count_true (map r_is_anomaly full) /\
  (frame_wf df a -> List.length report = count_true (is_anomaly a)) /\
  (forall r, In r report <-> In r full /\ r_is_anomaly r = true) /\
  (StronglySorted Z.lt (timestamp df) ->
   StronglySorted Z.lt (map r_timestamp report)).
Proof.
  intros Ha Hpaths full report w_plot w_report.
  assert (H1 : report_of cfg w_report = Some report)
    by now apply save_report_file.
  repeat apply conj.
  - exact H1.
  - now apply save_report_file.
  - unfold report_of in *.
    rewrite visualize_results_files by congruence. exact H1.
  - apply length_filter_count.
  - intros Hwf. unfold report. rewrite length_filter_count.
    unfold full. now rewrite records_flags.
  - intros r. unfold report. rewrite filter_In. reflexivity.
  - intros Hs. apply sorted_map_filter.
    unfold full, records. rewrite map_map. simpl.
    change (fun x : Z * (float * (float * (float * bool))) => fst x)
      with (@fst Z (float * (float * (float * bool)))).
    now apply sorted_map_fst_combine.
Qed.

End Reporting.

(** * The series generator *)

Lemma zero_lt_hundred : (0 <? 100)%float = true.
Proof. reflexivity. Qed.

(** A clipped value that is a number lies between the two limits. *)
Lemma np_clip_range (x : float) :
  is_nan (np_clip 0 100 x) = false ->
  F.le 0 (np_clip 0 100 x) = true /\ F.le (np_clip 0 100 x) 100 = true.
Proof.
  unfold np_clip, F.le, F.gt, F.lt.
  destruct (is_nan x) eqn:Hx; [congruence|]. intros _.
  destruct (0 <? x)%float eqn:H0.
  - destruct (x <? 100)%float eqn:H1.
    + split; now apply FloatFacts.ltb_leb.
    + split; reflexivity.
  - rewrite zero_lt_hundred. split; reflexivity.
Qed.

Lemma is_nan_np_clip (x : float) : is_nan (np_clip 0 100 x) = is_nan x.
Proof.
  unfold np_clip, F.gt, F.lt.
  destruct (is_nan x) eqn:Hx; [exact Hx|].
  destruct (0 <? x)%float.
  - destruct (x <? 100)%float; [exact Hx | reflexivity].
  - rewrite zero_lt_hundred. reflexivity.
Qed.

Lemma list_set_length {A : Type} (l : list A) (idx : nat) (v : A) :
  List.length (list_set l idx v) = List.length l.
Proof.
  revert idx. induction l as [|x l IH]; intros [|i]; simpl; auto.
Qed.

Lemma np_arange_length (n : Z) : List.length (np_arange n) = Z.to_nat n.
Proof. unfold np_arange. now rewrite length_map, length_seq. Qed.

Lemma np_arange_sorted (n : Z) : StronglySorted Z.lt (np_arange n).
Proof.
  unfold np_arange. generalize 0%nat as start.
  induction (Z.to_nat n) as [|k IH]; intros start; simpl; constructor.
  - apply IH.
  - apply Forall_forall. intros t Ht.
    apply in_map_iff in Ht. destruct Ht as (j & <- & Hj).
    apply in_seq in Hj. lia.
Qed.

Section GeneratorValues.

Variable np : Numpy.

Lemma bind_ok {A B : Type} (c : IO np A) (k : A -> IO np B) (w w' : World np) (b : B) :
  bind c k w = (Ok b, w') ->
  exists a w1, c w = (Ok a, w1) /\ k a w1 = (Ok b, w').
Proof.
  unfold bind. destruct (c w) as [[a|e] w1]; intros H.
  - now exists a, w1.
  - discriminate.
Qed.

(** ** Success and shape *)

Lemma normal_draws_ok (loc scale : float) (n : nat) (w : World np) :
  exists xs w', normal_draws loc scale n w = (Ok xs, w') /\ List.length xs = n.
Proof.
  revert w. induction n as [|n IH]; intros w; simpl.
  - now exists [], w.
  - unfold bind at 1. unfold draw at 1.
    destruct (random_gauss np loc scale (np_random w)) as [x g].
    set (w1 := {| np_random := g; files := files w |}).
    destruct (IH w1) as (xs & w' & E & Hn).
    unfold bind. rewrite E. exists (x :: xs), w'. simpl. now rewrite Hn.
Qed.

Lemma inject_anomalies_inv (indices : list nat) (cpu cpu' : list float)
  (w w' : World np) :
  inject_anomalies indices cpu w = (Ok cpu', w') ->
  List.length cpu' = List.length cpu /\
  forall idx, In idx indices -> (idx < List.length cpu)%nat.
Proof.
  revert cpu w. induction indices as [|idx rest IH]; intros cpu w H; simpl in H.
  - injection H as <- _. split; [reflexivity | contradiction].
  - destruct (nth_error cpu idx) as [x|] eqn:Hx; [|discriminate H].
    apply bind_ok in H. destruct H as (c & w1 & _ & H).
    apply IH in H. rewrite list_set_length in H. destruct H as [Hl Hall].
    split; [exact Hl|]. intros i [<- | Hi]; [|now apply Hall].
    apply nth_error_Some. congruence.
Qed.

Lemma inject_anomalies_ok (indices : list nat) (cpu : list float) (w : World np) :
  (forall idx, In idx indices -> (idx < List.length cpu)%nat) ->
  exists cpu' w', inject_anomalies indices cpu w = (Ok cpu', w').
Proof.
  revert cpu w. induction indices as [|idx rest IH]; intros cpu w H; simpl.
  - now exists cpu, w.
  - destruct (nth_error cpu idx) as [x|] eqn:Hx.
    2: { apply nth_error_None in Hx.
         specialize (H idx (or_introl eq_refl)). lia. }
    unfold bind, draw.
    destruct (random_choice np [30; -25]%Z (np_random w)) as [c g].
    apply IH. intros i Hi. rewrite list_set_length. apply H. now right.
Qed.

Lemma unclipped_signal_inv (cfg : Config) (w w' : World np) (cpu : list float) :
  unclipped_signal cfg w = (Ok cpu, w') ->
  (680 < days cfg * hours_per_day cfg)%Z /\
  List.length cpu = Z.to_nat (days cfg * hours_per_day cfg).
Proof.
  unfold unclipped_signal. intros H.
  apply bind_ok in H. destruct H as ([] & w1 & _ & H).
  apply bind_ok in H. destruct H as (noise & w2 & Hn & H).
  unfold random_normal in Hn.
  destruct (days cfg * hours_per_day cfg <? 0)%Z eqn:Hneg; [discriminate Hn|].
  apply Z.ltb_ge in Hneg.
  destruct (normal_draws_ok 0 2 (Z.to_nat (days cfg * hours_per_day cfg)) w1)
    as (xs & w2' & E & Hlen).
  rewrite E in Hn. injection Hn as <- _.
  apply inject_anomalies_inv in H. destruct H as [Hl Hall].
  rewrite length_map, length_combine, np_arange_length, Hlen, Nat.min_id in Hl, Hall.
  split; [|exact Hl].
  specialize (Hall 680%nat). unfold anomalies_indices in Hall.
  simpl in Hall. assert (680 < Z.to_nat (days cfg * hours_per_day cfg))%nat by tauto.
  lia.
Qed.

Lemma unclipped_signal_ok (cfg : Config) (w : World np) :
  (680 < days cfg * hours_per_day cfg)%Z ->
  exists cpu w', unclipped_signal cfg w = (Ok cpu, w').
Proof.
  intros Ht. unfold unclipped_signal, bind at 1, seed.
  set (w1 := {| np_random := random_seed np 42; files := files w |}).
  unfold bind at 1, random_normal.
  destruct (days cfg * hours_per_day cfg <? 0)%Z eqn:Hneg.
  { apply Z.ltb_lt in Hneg. lia. }
  destruct (normal_draws_ok 0 2 (Z.to_nat (days cfg * hours_per_day cfg)) w1)
    as (xs & w2 & E & Hlen).
  rewrite E. apply inject_anomalies_ok.
  intros idx Hidx.
  rewrite length_map, length_combine, np_arange_length, Hlen, Nat.min_id.
  unfold anomalies_indices in Hidx. simpl in Hidx.
  assert (idx <= 680)%nat by (intuition lia). lia.
Qed.

(** ** Values *)

Hypothesis contract : NumpyContract np.

(** The signal of line 61 is a number whenever the noise is finite. *)
Lemma base_signal_number (t : Z) (noise : float) :
  is_finite noise = true -> is_nan (base_signal np t noise) = false.
Proof.
  intros Hn. unfold base_signal.
  assert (Ht : F.within 64 (Prim2SF (F.of_Z t)))
    by apply Magnitude.of_Z_within.
  assert (Hpi : F.within 3 (Prim2SF (2 * np_pi)))
    by (vm_compute; discriminate).
  assert (Harg : is_finite (2 * np_pi * F.of_Z t / 24) = true).
  { apply Magnitude.is_finite_within.
    apply (Magnitude.within_le 117); [lia|].
    apply (Magnitude.div_within 68 _ 24 false 6755399441055744 (-48));
      [|reflexivity|lia].
    apply (Magnitude.mul_within 3 64); [exact Hpi | exact Ht | lia]. }
  destruct (sin_range np contract _ Harg) as [Hlo Hhi].
  assert (Hs : F.within 6
                 (Prim2SF (10 * np_sin np (2 * np_pi * F.of_Z t / 24)))).
  { apply (Magnitude.mul_within 4 1); [|now apply Magnitude.range_within|lia].
    vm_compute. discriminate. }
  assert (Htr : F.within 61 (Prim2SF (0.05 * F.of_Z t))).
  { apply (Magnitude.mul_within (-4) 64); [|exact Ht|lia].
    vm_compute. discriminate. }
  apply (Magnitude.add_number 1024);
    [|now apply Magnitude.is_finite_within].
  apply (Magnitude.add_number 61); [|exact Htr].
  apply (Magnitude.add_number 6); [reflexivity | exact Hs].
Qed.

Lemma normal_draws_finite (n : nat) (w w' : World np) (xs : list float) :
  normal_draws 0 2 n w = (Ok xs, w') ->
  Forall (fun x => is_finite x = true) xs.
Proof.
  revert w w' xs. induction n as [|n IH]; intros w w' xs H; simpl in H.
  - injection H as <- _. constructor.
  - apply bind_ok in H. destruct H as (x & w1 & Hx & H).
    apply bind_ok in H. destruct H as (xs' & w2 & Hxs & H).
    unfold ret in H. injection H as <- _. constructor.
    + unfold draw in Hx.
      pose proof (normal_finite np contract (np_random w)) as Hf.
      destruct (random_gauss np 0 2 (np_random w)) as [y g].
      injection Hx as <- _. exact Hf.
    + eapply IH, Hxs.
Qed.

Lemma list_set_Forall {A : Type} (P : A -> Prop) (l : list A) (idx : nat) (v : A) :
  Forall P l -> P v -> Forall P (list_set l idx v).
Proof.
  intros Hl Hv. revert idx.
  induction Hl as [|x l Hx Hl IH]; intros [|i]; simpl; constructor; auto.
Qed.

Lemma inject_anomalies_numbers (indices : list nat) (cpu cpu' : list float)
  (w w' : World np) :
  inject_anomalies indices cpu w = (Ok cpu', w') ->
  Forall (fun x => is_nan x = false) cpu ->
  Forall (fun x => is_nan x = false) cpu'.
Proof.
  revert cpu w. induction indices as [|idx rest IH]; intros cpu w H Hc;
    simpl in H.
  - now injection H as <- _.
  - destruct (nth_error cpu idx) as [x|] eqn:Hx; [|discriminate H].
    apply bind_ok in H. destruct H as (c & w1 & _ & H).
    apply IH in H; [exact H|].
    apply list_set_Forall; [exact Hc|].
    apply (Magnitude.add_number 64); [|apply Magnitude.of_int_within].
    apply nth_error_In in Hx. exact (proj1 (Forall_forall _ _) Hc x Hx).
Qed.

Lemma unclipped_signal_numbers (cfg : Config) (w w' : World np) (cpu : list float) :
  unclipped_signal cfg w = (Ok cpu, w') ->
  Forall (fun x => is_nan x = false) cpu.
Proof.
  unfold unclipped_signal. intros H.
  apply bind_ok in H. destruct H as ([] & w1 & _ & H).
  apply bind_ok in H. destruct H as (noise & w2 & Hn & H).
  apply inject_anomalies_numbers in H; [exact H|].
  unfold random_normal in Hn.
  destruct (days cfg * hours_per_day cfg <? 0)%Z; [discriminate Hn|].
  apply normal_draws_finite in Hn.
  apply Forall_forall. intros x Hx.
  apply in_map_iff in Hx. destruct Hx as ([t n] & <- & Hin).
  apply in_combine_r in Hin. apply base_signal_number.
  revert n Hin. now apply Forall_forall.
Qed.

(** C7. The generator returns a series as soon as the configured length
    exceeds the last anomaly index (as with the default 30 days of 24 hours);
    the series it returns has exactly [days * hours_per_day] rows, with
    ascending timestamps, and every value of it lies in the closed interval
    [0, 100]. *)
Theorem generated_series_shape (cfg : Config) (w : World np) :
  ((680 < days cfg * hours_per_day cfg)%Z ->
   exists df w', generate_synthetic_data cfg w = (Ok df, w')) /\
  (forall df w',
     generate_synthetic_data cfg w = (Ok df, w') ->
     (680 < days cfg * hours_per_day cfg)%Z /\
     Z.of_nat (List.length (cpu_percent df)) = (days cfg * hours_per_day cfg)%Z /\
     List.length (timestamp df) = List.length (cpu_percent df) /\
     StronglySorted Z.lt (timestamp df) /\
     forall v, In v (cpu_percent df) ->
       F.le 0 v = true /\ F.le v 100 = true).
Proof.
  split.
  - intros Ht. destruct (unclipped_signal_ok cfg w Ht) as (cpu & w1 & E).
    unfold generate_synthetic_data, bind at 1. rewrite E.
    unfold bind, write_file, ret. eauto.
  - intros df w' H. unfold generate_synthetic_data in H.
    apply bind_ok in H. destruct H as (cpu & w1 & Hc & H).
    apply bind_ok in H. destruct H as ([] & w2 & _ & H).
    injection H as <- _. simpl.
    pose proof (unclipped_signal_numbers cfg w w1 cpu Hc) as Hnum.
    apply unclipped_signal_inv in Hc. destruct Hc as [Ht Hl].
    rewrite length_map, np_arange_length, Hl.
    repeat apply conj.
    + exact Ht.
    + lia.
    + reflexivity.
    + apply np_arange_sorted.
    + intros v Hv. apply in_map_iff in Hv. destruct Hv as (x & <- & Hx).
      apply np_clip_range. rewrite is_nan_np_clip.
      revert x Hx. now apply Forall_forall.
Qed.

End GeneratorValues.

Section Generator.

Variable np : Numpy.

(** ** Determinism *)

Lemma rng_only_ret {A : Type} (a : A) : rng_only np (@ret np A a).
Proof. intros w1 w2 H. now split. Qed.

Lemma rng_only_raise {A : Type} (e : error) : rng_only np (@raise np A e).
Proof. intros w1 w2 H. now split. Qed.

Lemma rng_only_bind {A B : Type} (c : IO np A) (k : A -> IO np B) :
  rng_only np c -> (forall a, rng_only np (k a)) -> rng_only np (bind c k).
Proof.
  intros Hc Hk w1 w2 H. unfold bind.
  destruct (Hc w1 w2 H) as [Hr Hg].
  destruct (c w1) as [[a1|e1] w1'], (c w2) as [[a2|e2] w2']; simpl in *;
    try discriminate.
  - injection Hr as <-. now apply Hk.
  - injection Hr as <-. now split.
Qed.

Lemma rng_only_draw {A : Type} (f : rng np -> A * rng np) : rng_only np (draw f).
Proof.
  intros w1 w2 H. unfold draw. rewrite H.
  destruct (f (np_random w2)) as [a g]. now split.
Qed.

Lemma rng_only_write_file (path : string) (f : File) :
  rng_only np (@write_file np path f).
Proof. intros w1 w2 H. now split. Qed.

Lemma rng_only_normal_draws (loc scale : float) (n : nat) :
  rng_only np (normal_draws loc scale n).
Proof.
  induction n as [|n IH]; simpl.
  - apply rng_only_ret.
  - apply rng_only_bind; [apply rng_only_draw|]. intros x.
    apply rng_only_bind; [exact IH|]. intros xs. apply rng_only_ret.
Qed.

Lemma rng_only_inject_anomalies (indices : list nat) (cpu : list float) :
  rng_only np (inject_anomalies indices cpu).
Proof.
  revert cpu. induction indices as [|idx rest IH]; intros cpu; simpl.
  - apply rng_only_ret.
  - destruct (nth_error cpu idx); [|apply rng_only_raise].
    apply rng_only_bind; [apply rng_only_draw|]. intros c. apply IH.
Qed.

(** After [np.random.seed(42)] nothing of the incoming world is left to
    read. *)
Lemma seeded_same {A : Type} (k : IO np A) (w1 w2 : World np) :
  rng_only np k ->
  fst (bind (seed 42) (fun _ => k) w1) = fst (bind (seed 42) (fun _ => k) w2) /\
  np_random (snd (bind (seed 42) (fun _ => k) w1)) =
  np_random (snd (bind (seed 42) (fun _ => k) w2)).
Proof.
  intros Hk. unfold bind, seed. apply Hk. reflexivity.
Qed.

(** C8. Two runs of the generator with the same configuration return the
    same result, value for value, whatever state numpy's global generator
    and the files were in before: the seed is set first, and the noise and
    the anomaly magnitudes are drawn from the seeded generator.  The two runs
    also leave the generator in the same state and the same data file. *)
Theorem same_seed_same_series (cfg : Config) (w1 w2 : World np) :
  fst (generate_synthetic_data cfg w1) = fst (generate_synthetic_data cfg w2) /\
  np_random (snd (generate_synthetic_data cfg w1)) =
  np_random (snd (generate_synthetic_data cfg w2)) /\
  forall df,
    fst (generate_synthetic_data cfg w1) = Ok df ->
    files (snd (generate_synthetic_data cfg w1)) (data_path cfg) =
      Some (DataCsv (combine (timestamp df) (cpu_percent df))) /\
    files (snd (generate_synthetic_data cfg w2)) (data_path cfg) =
      Some (DataCsv (combine (timestamp df) (cpu_percent df))).
Proof.
  assert (Hu : fst (unclipped_signal cfg w1) = fst (unclipped_signal cfg w2) /\
               np_random (snd (unclipped_signal cfg w1)) =
               np_random (snd (unclipped_signal cfg w2))).
  { unfold unclipped_signal. apply seeded_same.
    apply rng_only_bind.
    - unfold random_normal. destruct (_ <? 0)%Z.
      + apply rng_only_raise.
      + apply rng_only_normal_draws.
    - intros noise. apply rng_only_inject_anomalies. }
  destruct Hu as [Hr Hg].
  unfold generate_synthetic_data, bind, write_file, ret.
  destruct (unclipped_signal cfg w1) as [[cpu1|e1] w1'],
           (unclipped_signal cfg w2) as [[cpu2|e2] w2']; simpl in *;
    try discriminate.
  - injection Hr as <-. split; [reflexivity|]. split; [exact Hg|].
    intros df Hdf. injection Hdf as <-. simpl.
    rewrite String.eqb_refl. now split.
  - injection Hr as <-. split; [reflexivity|]. split; [exact Hg|].
    intros df Hdf. discriminate Hdf.
Qed.

End Generator.

(** * Running the analysis again *)

Section TrainAndDetect.

Variable ar : Arima.

Lemma train_and_detect_inv (cfg : Config) (df df1 : DataFrame)
  (m1 : FittedModel ar) :
  train_and_detect ar cfg df = Ok (df1, m1) ->
  arima_fit ar (cpu_percent df) (arima_order cfg) = Some m1 /\
  let pred :=
    arima_predict ar m1 0 (Z.of_nat (List.length (timestamp df)) - 1) in
  let a := analyze (anomaly_threshold cfg) (cpu_percent df) pred in
  df1 = {| timestamp := timestamp df;
           cpu_percent := cpu_percent df;
           analysis := Some {| predicted := pred;
                               residual := an_residual a;
                               is_anomaly := an_is_anomaly a |} |}.
Proof.
  unfold train_and_detect.
  destruct (arima_fit ar (cpu_percent df) (arima_order cfg)) as [m|];
    [|discriminate].
  intros H. injection H as <- <-. now split.
Qed.

(** The result depends on the timestamps and the observations of the frame
    only, not on the analysis columns it may already carry. *)
Lemma train_and_detect_ext (cfg : Config) (df df' : DataFrame) :
  timestamp df' = timestamp df ->
  cpu_percent df' = cpu_percent df ->
  train_and_detect ar cfg df' = train_and_detect ar cfg df.
Proof.
  intros Ht Hc. unfold train_and_detect. now rewrite Ht, Hc.
Qed.

(** C6. Running the analysis a second time, on the frame the first run
    returned (or on any frame with the same observations), yields the same
    frame, hence the same flags; the second run works on the same (observed,
    predicted) pair and its analysis, bounds included, is the one of the
    first run. *)
Theorem analysis_rerun (cfg : Config) (df df1 : DataFrame) (m1 : FittedModel ar) :
  train_and_detect ar cfg df = Ok (df1, m1) ->
  train_and_detect ar cfg df1 = Ok (df1, m1) /\
  (forall df',
     timestamp df' = timestamp df -> cpu_percent df' = cpu_percent df ->
     train_and_detect ar cfg df' = Ok (df1, m1)) /\
  exists cols,
    analysis df1 = Some cols /\
    let first := analyze (anomaly_threshold cfg) (cpu_percent df) (predicted cols) in
    let second := analyze (anomaly_threshold cfg) (cpu_percent df1) (predicted cols) in
    second = first /\
    is_anomaly cols = an_is_anomaly first /\
    residual cols = an_residual first /\
    upper_threshold second = upper_threshold first /\
    lower_threshold second = lower_threshold first.
Proof.
  intros H. pose proof (train_and_detect_inv cfg df df1 m1 H) as [Hfit Hdf1].
  cbv zeta in Hdf1.
  assert (Ht : timestamp df1 = timestamp df) by (rewrite Hdf1; reflexivity).
  assert (Hc : cpu_percent df1 = cpu_percent df) by (rewrite Hdf1; reflexivity).
  split; [|split].
  - now rewrite (train_and_detect_ext cfg df df1 Ht Hc).
  - intros df' Ht' Hc'. now rewrite (train_and_detect_ext cfg df df' Ht' Hc').
  - eexists. split; [rewrite Hdf1; reflexivity|].
    simpl. rewrite Hc. repeat split.
Qed.

End TrainAndDetect.

(** * Concrete runs *)

Example toy_train_and_detect :
  train_and_detect toy_arima CONFIG toy_frame =
  Ok (toy_analysed, cpu_percent toy_frame).
Proof. vm_compute. reflexivity. Qed.

Lemma analysis_rerun_witness :
  train_and_detect toy_arima CONFIG toy_frame =
    Ok (toy_analysed, cpu_percent toy_frame) /\
  train_and_detect toy_arima CONFIG toy_analysed =
    Ok (toy_analysed, cpu_percent toy_frame).
Proof.
  assert (H : train_and_detect toy_arima CONFIG toy_frame =
              Ok (toy_analysed, cpu_percent toy_frame))
    by (vm_compute; reflexivity).
  split.
  - exact H.
  - exact (proj1 (analysis_rerun toy_arima CONFIG toy_frame toy_analysed
                    (cpu_percent toy_frame) H)).
Defined.

Lemma config_paths_differ : plot_path CONFIG <> report_path CONFIG.
Proof. apply String.eqb_neq. reflexivity. Qed.

Lemma report_contents_witness :
  report_of CONFIG
    (snd (save_report CONFIG toy_analysed
            (snd (visualize_results CONFIG toy_analysed toy_world)))) =
  Some [ {| r_timestamp := 9; r_cpu_percent := 100; r_predicted := 10;
            r_residual := 90; r_is_anomaly := true |} ].
Proof.
  exact (proj1 (proj2 (report_contents toy_numpy CONFIG toy_analysed
                         toy_columns toy_world eq_refl config_paths_differ))).
Defined.

Lemma toy_numpy_contract : NumpyContract toy_numpy.
Proof.
  split.
  - intros x _. split; reflexivity.
  - intros g. simpl.
    pose proof (Z.mod_pos_bound g 5 eq_refl) as Hg.
    assert (H : (g mod 5 = 0 \/ g mod 5 = 1 \/ g mod 5 = 2 \/
                 g mod 5 = 3 \/ g mod 5 = 4)%Z) by lia.
    destruct H as [-> | [-> | [-> | [-> | ->]]]]; reflexivity.
Qed.

Lemma generated_series_shape_witness :
  exists df w',
    generate_synthetic_data CONFIG toy_world = (Ok df, w') /\
    Z.of_nat (List.length (cpu_percent df)) = 720%Z /\
    forall v, In v (cpu_percent df) -> F.le 0 v = true /\ F.le v 100 = true.
Proof.
  destruct (proj1 (generated_series_shape toy_numpy toy_numpy_contract
                     CONFIG toy_world))
    as (df & w' & E); [reflexivity|].
  exists df, w'. split; [exact E|].
  destruct (proj2 (generated_series_shape toy_numpy toy_numpy_contract
                     CONFIG toy_world) df w' E)
    as (_ & H1 & _ & _ & H4).
  split; [exact H1 | exact H4].
Defined.

(** The default pipeline length, with a constant load predicted exactly:
    the standard deviation is 0 and so are both bounds. *)
Example constant_run_720 :
  let a := residual_analyzer (repeat 10%float 720) (repeat 10%float 720) in
  residual_mean a = 0%float /\
  residual_std a = 0%float /\
  upper_threshold a = 0%float /\
  lower_threshold a = 0%float /\
  anomaly_count a = 0%nat.
Proof. vm_compute. repeat split. Qed.


(** * Further properties of the stages *)

(** ** The generator: failures and values *)

Lemma nth_error_list_set_eq {A : Type} (l : list A) (idx : nat) (v : A) :
  (idx < List.length l)%nat -> nth_error (list_set l idx v) idx = Some v.
Proof.
  revert idx. induction l as [|x l IH]; intros [|i] H; simpl in *;
    try lia; auto. apply IH. lia.
Qed.

Lemma nth_error_list_set_neq {A : Type} (l : list A) (idx i : nat) (v : A) :
  i <> idx -> nth_error (list_set l idx v) i = nth_error l i.
Proof.
  revert idx i. induction l as [|x l IH]; intros [|idx] [|i] H; simpl;
    try reflexivity; try congruence. apply IH. congruence.
Qed.

Lemma nth_error_np_arange (n : Z) (i : nat) :
  (i < Z.to_nat n)%nat -> nth_error (np_arange n) i = Some (Z.of_nat i).
Proof.
  intros H. unfold np_arange.
  rewrite nth_error_map, (nth_error_nth' _ 0%nat) by (rewrite length_seq; lia).
  rewrite seq_nth by lia. reflexivity.
Qed.

Section GeneratorMore.

Variable np : Numpy.

Lemma keeps_files_bind {A B : Type} (c : IO np A) (k : A -> IO np B) :
  keeps_files np c -> (forall a, keeps_files np (k a)) ->
  keeps_files np (bind c k).
Proof.
  intros Hc Hk w. unfold bind. specialize (Hc w).
  destruct (c w) as [[a|e] w1]; simpl in *.
  - now rewrite Hk.
  - exact Hc.
Qed.

Lemma keeps_files_normal_draws (loc scale : float) (n : nat) :
  keeps_files np (normal_draws loc scale n).
Proof.
  induction n as [|n IH]; simpl.
  - intros w. reflexivity.
  - apply keeps_files_bind.
    + intros w. unfold draw. now destruct (random_gauss np loc scale _).
    + intros x. apply keeps_files_bind; [exact IH|]. intros xs w. reflexivity.
Qed.

Lemma keeps_files_inject_anomalies (indices : list nat) (cpu : list float) :
  keeps_files np (inject_anomalies indices cpu).
Proof.
  revert cpu. induction indices as [|idx rest IH]; intros cpu; simpl.
  - intros w. reflexivity.
  - destruct (nth_error cpu idx); [|intros w; reflexivity].
    apply keeps_files_bind; [|intros c; apply IH].
    intros w. unfold draw. now destruct (random_choice np _ _).
Qed.

Lemma keeps_files_unclipped_signal (cfg : Config) :
  keeps_files np (unclipped_signal cfg).
Proof.
  unfold unclipped_signal. apply keeps_files_bind.
  - intros w. reflexivity.
  - intros _. apply keeps_files_bind.
    + unfold random_normal. destruct (_ <? 0)%Z.
      * intros w. reflexivity.
      * apply keeps_files_normal_draws.
    + intros noise. apply keeps_files_inject_anomalies.
Qed.

Lemma inject_anomalies_out_of_bounds (indices : list nat) (cpu : list float)
  (w : World np) :
  (exists idx, In idx indices /\ (List.length cpu <= idx)%nat) ->
  fst (inject_anomalies indices cpu w) = Err IndexError.
Proof.
  revert cpu w. induction indices as [|idx rest IH]; intros cpu w (i & Hi & Hb).
  - contradiction.
  - simpl. destruct (nth_error cpu idx) as [x|] eqn:Hx; [|reflexivity].
    unfold bind, draw.
    destruct (random_choice np [30; -25]%Z (np_random w)) as [c g].
    apply IH. exists i. rewrite list_set_length. split; [|exact Hb].
    destruct Hi as [<- | Hi]; [|exact Hi].
    apply nth_error_None in Hb. congruence.
Qed.

Lemma unclipped_signal_errors (cfg : Config) (w : World np) :
  ((days cfg * hours_per_day cfg < 0)%Z ->
   fst (unclipped_signal cfg w) = Err ValueError) /\
  ((0 <= days cfg * hours_per_day cfg <= 680)%Z ->
   fst (unclipped_signal cfg w) = Err IndexError).
Proof.
  split; intros Ht; unfold unclipped_signal, bind at 1, seed;
    set (w1 := {| np_random := random_seed np 42; files := files w |});
    unfold bind at 1, random_normal.
  - apply Z.ltb_lt in Ht. now rewrite Ht.
  - destruct (days cfg * hours_per_day cfg <? 0)%Z eqn:Hneg.
    { apply Z.ltb_lt in Hneg. lia. }
    destruct (normal_draws_ok np 0 2 (Z.to_nat (days cfg * hours_per_day cfg)) w1)
      as (xs & w2 & E & Hlen).
    rewrite E. apply inject_anomalies_out_of_bounds.
    exists 680%nat. split; [unfold anomalies_indices; simpl; tauto|].
    rewrite length_map, length_combine, np_arange_length, Hlen, Nat.min_id.
    lia.
Qed.

Lemma generate_synthetic_data_err (cfg : Config) (w w1 : World np) (e : error) :
  unclipped_signal cfg w = (Err e, w1) ->
  generate_synthetic_data cfg w = (Err e, w1).
Proof.
  intros E. unfold generate_synthetic_data, bind at 1. now rewrite E.
Qed.

(** X1. A configured length below zero makes the generator fail with
    [ValueError] (numpy refuses a negative size); a length from 0 to 680
    makes it fail with [IndexError] (an anomaly index is outside the array).
    In both cases no file is written. *)
Theorem generator_errors (cfg : Config) (w : World np) :
  ((days cfg * hours_per_day cfg < 0)%Z ->
   fst (generate_synthetic_data cfg w) = Err ValueError) /\
  ((0 <= days cfg * hours_per_day cfg <= 680)%Z ->
   fst (generate_synthetic_data cfg w) = Err IndexError) /\
  ((days cfg * hours_per_day cfg <= 680)%Z ->
   files (snd (generate_synthetic_data cfg w)) = files w).
Proof.
  destruct (unclipped_signal_errors cfg w) as [Hv Hi].
  pose proof (keeps_files_unclipped_signal cfg w) as Hf.
  destruct (unclipped_signal cfg w) as [[cpu|e] w1] eqn:E; simpl in *.
  - repeat apply conj; intros Ht.
    + specialize (Hv Ht). discriminate.
    + specialize (Hi Ht). discriminate.
    + destruct (Z.ltb_spec (days cfg * hours_per_day cfg) 0) as [Hn|Hn].
      * specialize (Hv Hn). discriminate.
      * specialize (Hi (conj Hn Ht)). discriminate.
  - rewrite (generate_synthetic_data_err cfg w w1 e E). simpl.
    repeat apply conj; intros Ht.
    + specialize (Hv Ht). now injection Hv as ->.
    + specialize (Hi Ht). now injection Hi as ->.
    + exact Hf.
Qed.

Lemma generate_synthetic_data_ok (cfg : Config) (w : World np) :
  (680 < days cfg * hours_per_day cfg)%Z ->
  exists df w', generate_synthetic_data cfg w = (Ok df, w').
Proof.
  intros Ht. destruct (unclipped_signal_ok np cfg w Ht) as (cpu & w1 & E).
  unfold generate_synthetic_data, bind at 1. rewrite E.
  unfold bind, write_file, ret. eauto.
Qed.

Lemma anomalies_indices_NoDup : NoDup anomalies_indices.
Proof.
  unfold anomalies_indices.
  repeat (constructor; [simpl; intuition lia|]). constructor.
Qed.

(** What the injection loop does to each position. *)
Lemma inject_anomalies_values (indices : list nat) (cpu cpu' : list float)
  (w w' : World np) :
  NoDup indices ->
  inject_anomalies indices cpu w = (Ok cpu', w') ->
  forall i : nat,
    (~ In i indices -> nth_error cpu' i = nth_error cpu i) /\
    (In i indices ->
     exists (x : float) (g : rng np),
       nth_error cpu i = Some x /\
       nth_error cpu' i =
         Some (x + F.of_int (fst (random_choice np [30; -25]%Z g)))%float).
Proof.
  revert cpu w. induction indices as [|idx rest IH]; intros cpu w Hnd H i;
    simpl in H.
  - injection H as <- _. split; [reflexivity | contradiction].
  - apply NoDup_cons_iff in Hnd. destruct Hnd as [Hnot Hnd].
    destruct (nth_error cpu idx) as [x|] eqn:Hx; [|discriminate H].
    apply bind_ok in H. destruct H as (c & w1 & Hd & H).
    assert (Hc : c = fst (random_choice np [30; -25]%Z (np_random w))).
    { unfold draw in Hd.
      destruct (random_choice np [30; -25]%Z (np_random w)) as [c0 g].
      now injection Hd as <- _. }
    destruct (IH _ _ Hnd H i) as [Hout Hin].
    assert (Hlt : (idx < List.length cpu)%nat)
      by (apply nth_error_Some; congruence).
    split.
    + intros Hi. rewrite Hout by (intros Hr; apply Hi; now right).
      apply nth_error_list_set_neq. intros ->. apply Hi. now left.
    + intros [<- | Hi].
      * exists x, (np_random w). split; [exact Hx|].
        rewrite (proj1 (IH _ _ Hnd H idx) Hnot), <- Hc.
        now apply nth_error_list_set_eq.
      * destruct (Hin Hi) as (x' & g & Hx' & Hv).
        exists x', g. split; [|exact Hv].
        rewrite <- Hx'. symmetry. apply nth_error_list_set_neq.
        intros ->. contradiction.
Qed.

(** X2. In a series the generator returns, row [i] carries timestamp [i]
    (hours since the start) and the clipped value of
    [40 + seasonality + trend + noise[i]], where [noise] is the array drawn
    from the seeded generator; at the five configured indices, and only
    there, 30 or -25 is added before clipping. *)
Theorem generated_values (cfg : Config) (w w' : World np) (df : DataFrame) :
  ChoiceContract np ->
  generate_synthetic_data cfg w = (Ok df, w') ->
  exists noise : list float,
    fst (random_normal 0 2 (days cfg * hours_per_day cfg) (snd (seed 42 w))) =
      Ok noise /\
    List.length noise = List.length (cpu_percent df) /\
    forall (i : nat) (x : float),
      nth_error noise i = Some x ->
      nth_error (timestamp df) i = Some (Z.of_nat i) /\
      (~ In i anomalies_indices ->
       nth_error (cpu_percent df) i =
         Some (np_clip 0 100 (base_signal np (Z.of_nat i) x))) /\
      (In i anomalies_indices ->
       nth_error (cpu_percent df) i =
         Some (np_clip 0 100 (base_signal np (Z.of_nat i) x + 30)) \/
       nth_error (cpu_percent df) i =
         Some (np_clip 0 100 (base_signal np (Z.of_nat i) x + -25))).
Proof.
  intros Hchoice H. unfold generate_synthetic_data in H.
  apply bind_ok in H. destruct H as (cpu & w1 & Hc & H).
  apply bind_ok in H. destruct H as ([] & w2 & _ & H).
  injection H as <- _. cbn [cpu_percent timestamp].
  pose proof (unclipped_signal_inv np cfg w w1 cpu Hc) as [Ht Hl].
  unfold unclipped_signal in Hc.
  apply bind_ok in Hc. destruct Hc as ([] & ws & Hs & Hc).
  assert (Hws : ws = snd (seed 42 w)) by (unfold seed in *; now injection Hs as <-).
  subst ws.
  apply bind_ok in Hc. destruct Hc as (noise & wn & Hn & Hc).
  exists noise. rewrite Hn. split; [reflexivity|].
  assert (Hlen : List.length noise = Z.to_nat (days cfg * hours_per_day cfg)).
  { unfold random_normal in Hn.
    destruct (days cfg * hours_per_day cfg <? 0)%Z; [discriminate Hn|].
    destruct (normal_draws_ok np 0 2 (Z.to_nat (days cfg * hours_per_day cfg))
                (snd (seed 42 w))) as (xs & w3 & E & Hxs).
    rewrite E in Hn. now injection Hn as <- _. }
  split; [now rewrite length_map, Hl|].
  intros i x Hx.
  assert (Hi : (i < Z.to_nat (days cfg * hours_per_day cfg))%nat).
  { rewrite <- Hlen. apply nth_error_Some. congruence. }
  pose proof (nth_error_np_arange _ i Hi) as Hti.
  split; [exact Hti|].
  set (signal := map (fun tn => base_signal np (fst tn) (snd tn))
                     (combine (np_arange (days cfg * hours_per_day cfg)) noise))
    in *.
  assert (Hbase : nth_error signal i = Some (base_signal np (Z.of_nat i) x)).
  { unfold signal. now rewrite nth_error_map, nth_error_combine, Hti, Hx. }
  destruct (inject_anomalies_values _ _ _ _ _ anomalies_indices_NoDup Hc i)
    as [Hout Hin].
  split.
  - intros Hno. now rewrite nth_error_map, (Hout Hno), Hbase.
  - intros Hyes. destruct (Hin Hyes) as (x0 & g & Hx0 & Hv).
    rewrite Hbase in Hx0. injection Hx0 as <-.
    rewrite nth_error_map, Hv. simpl.
    assert (Hopt : In (fst (random_choice np [30; -25]%Z g)) [30; -25]%Z)
      by (apply Hchoice; discriminate).
    destruct Hopt as [<- | [<- | []]]; [left | right]; reflexivity.
Qed.

End GeneratorMore.

(** ** The analysis: NaN, and the frame it returns *)

(** X3. A point whose observation or prediction is NaN is never flagged,
    whatever the other points are: both comparisons of lines 110-111 are
    false on a NaN residual. *)
Theorem nan_residual_not_flagged (k : float) (observed predicted : list float)
  (i : nat) (o p : float) :
  nth_error observed i = Some o ->
  nth_error predicted i = Some p ->
  is_nan o = true \/ is_nan p = true ->
  nth_error (an_residual (analyze k observed predicted)) i = Some nan /\
  nth_error (an_is_anomaly (analyze k observed predicted)) i = Some false.
Proof.
  intros Ho Hp Hnan.
  assert (Hr : Prim2SF (o - p) = S754_nan).
  { destruct Hnan as [H | H]; apply FloatFacts.is_nan_true in H.
    - now apply FloatFacts.sub_nan_l.
    - now apply FloatFacts.sub_nan_r. }
  pose proof (nth_error_series_sub observed predicted i o p Ho Hp) as Hs.
  split.
  - change (an_residual (analyze k observed predicted))
      with (series_sub observed predicted).
    rewrite Hs. f_equal. now apply FloatFacts.eq_nan.
  - unfold analyze. simpl. rewrite nth_error_map, Hs. simpl. f_equal.
    unfold flag, F.gt, F.lt.
    now rewrite (FloatFacts.ltb_nan_r _ _ Hr), (FloatFacts.ltb_nan_l _ _ Hr).
Qed.

Lemma nan_residual_not_flagged_witness :
  nth_error (an_residual (analyze 2.5 [1; nan; 3; 50]%float [1; 2; 3; 4]%float)) 1
    = Some nan /\
  nth_error (an_is_anomaly (analyze 2.5 [1; nan; 3; 50]%float [1; 2; 3; 4]%float)) 1
    = Some false.
Proof.
  apply (nan_residual_not_flagged 2.5 [1; nan; 3; 50]%float [1; 2; 3; 4]%float
           1 nan 2); [reflexivity | reflexivity | left; reflexivity].
Defined.

Lemma count_true_le (flags : list bool) :
  (count_true flags <= List.length flags)%nat.
Proof. unfold count_true. apply filter_length_le. Qed.

Lemma series_sub_length (observed predicted : list float) :
  List.length (series_sub observed predicted) =
  Nat.min (List.length observed) (List.length predicted).
Proof. unfold series_sub. now rewrite length_map, length_combine. Qed.

Section TrainAndDetectMore.

Variable ar : Arima.
Hypothesis contract : ArimaContract ar.

Lemma train_and_detect_wf (cfg : Config) (df df1 : DataFrame)
  (m1 : FittedModel ar) :
  List.length (timestamp df) = List.length (cpu_percent df) ->
  train_and_detect ar cfg df = Ok (df1, m1) ->
  exists a, analysis df1 = Some a /\ frame_wf df1 a /\
            timestamp df1 = timestamp df /\ cpu_percent df1 = cpu_percent df.
Proof.
  intros Hlen H.
  destruct (train_and_detect_inv ar cfg df df1 m1 H) as [Hfit Hdf1].
  cbv zeta in Hdf1. subst df1. eexists. split; [reflexivity|].
  pose proof (predict_length ar contract _ _ _ Hfit) as Hp.
  rewrite <- Hlen in Hp.
  unfold frame_wf, analyze. simpl.
  rewrite length_map, !series_sub_length, Hp. repeat split; lia.
Qed.

(** X4. [train_and_detect] either fails with [ModelFitError], exactly when
    the fit fails, or returns the frame with its timestamps and observations
    unchanged and the three new columns, each with one entry per row; the
    number of flagged rows is at most the number of rows. *)
Theorem train_and_detect_frame (cfg : Config) (df : DataFrame) :
  List.length (timestamp df) = List.length (cpu_percent df) ->
  match train_and_detect ar cfg df with
  | Ok (df1, m1) =>
      arima_fit ar (cpu_percent df) (arima_order cfg) = Some m1 /\
      timestamp df1 = timestamp df /\
      cpu_percent df1 = cpu_percent df /\
      exists a, analysis df1 = Some a /\ frame_wf df1 a /\
                (count_true (is_anomaly a) <= List.length (timestamp df))%nat
  | Err e =>
      e = ModelFitError /\
      arima_fit ar (cpu_percent df) (arima_order cfg) = None
  end.
Proof.
  intros Hlen.
  destruct (train_and_detect ar cfg df) as [[df1 m1]|e] eqn:H.
  - destruct (train_and_detect_wf cfg df df1 m1 Hlen H)
      as (a & Ha & Hwf & Ht & Hc).
    destruct (train_and_detect_inv ar cfg df df1 m1 H) as [Hfit _].
    split; [exact Hfit|]. split; [exact Ht|]. split; [exact Hc|].
    exists a. split; [exact Ha|]. split; [exact Hwf|].
    destruct Hwf as (_ & _ & _ & Hf). rewrite <- Ht, <- Hf.
    apply count_true_le.
  - unfold train_and_detect in H.
    destruct (arima_fit ar (cpu_percent df) (arima_order cfg)); [discriminate|].
    injection H as <-. now split.
Qed.

End TrainAndDetectMore.

Lemma toy_arima_contract : ArimaContract toy_arima.
Proof.
  split. intros series order m H. simpl in *.
  destruct series as [|x l]; [discriminate|]. injection H as <-.
  rewrite length_firstn. simpl List.length. lia.
Qed.

Lemma train_and_detect_frame_witness :
  match train_and_detect toy_arima CONFIG toy_frame with
  | Ok (df1, m1) =>
      arima_fit toy_arima (cpu_percent toy_frame) (arima_order CONFIG) = Some m1 /\
      timestamp df1 = timestamp toy_frame /\
      cpu_percent df1 = cpu_percent toy_frame /\
      exists a, analysis df1 = Some a /\ frame_wf df1 a /\
                (count_true (is_anomaly a) <= List.length (timestamp toy_frame))%nat
  | Err e =>
      e = ModelFitError /\
      arima_fit toy_arima (cpu_percent toy_frame) (arima_order CONFIG) = None
  end.
Proof.
  apply (train_and_detect_frame toy_arima toy_arima_contract CONFIG toy_frame).
  reflexivity.
Defined.

(** ** The two sinks *)





Section ReportingMore.

Variable np : Numpy.

Lemma visualize_results_run (cfg : Config) (df : DataFrame) (a : AnalysisColumns)
  (w : World np) :
  analysis df = Some a ->
  visualize_results cfg df w =
  (Ok tt,
   {| np_random := np_random w;
      files := fun p =>
        if String.eqb p (plot_path cfg) then
          Some (PlotPng
            {| actual_curve := combine (timestamp df) (cpu_percent df);
               predicted_curve := combine (timestamp df) (predicted a);
               anomaly_markers :=
                 combine (mask_select (timestamp df) (is_anomaly a))
                         (mask_select (cpu_percent df) (is_anomaly a));
               title_threshold := anomaly_threshold cfg;
               title_count :=
                 List.length (mask_select (timestamp df) (is_anomaly a)) |})
        else files w p |}).
Proof.
  intros Ha. unfold visualize_results, bind, lift, select_anomalies, write_file.
  now rewrite Ha.
Qed.

Lemma save_report_run (cfg : Config) (df : DataFrame) (a : AnalysisColumns)
  (w : World np) :
  analysis df = Some a ->
  save_report cfg df w =
  (Ok tt,
   {| np_random := np_random w;
      files := fun p =>
        if String.eqb p (report_path cfg) then
          Some (ReportCsv
                  (filter r_is_anomaly
                     (records (timestamp df) (cpu_percent df) a)))
        else files w p |}).
Proof.
  intros Ha. unfold save_report, bind, lift, select_anomalies, write_file.
  rewrite Ha. unfold to_csv. simpl. now rewrite records_select.
Qed.


(** X6. On a frame without the analysis columns, as the generator returns
    it, both [visualize_results] and [save_report] fail with [KeyError] and
    write nothing. *)
Theorem reporting_needs_analysis (cfg cfg' : Config) (w w' wr : World np)
  (df : DataFrame) :
  generate_synthetic_data cfg w = (Ok df, w') ->
  visualize_results cfg' df wr = (Err KeyError, wr) /\
  save_report cfg' df wr = (Err KeyError, wr).
Proof.
  intros H. unfold generate_synthetic_data in H.
  apply bind_ok in H. destruct H as (cpu & w1 & _ & H).
  apply bind_ok in H. destruct H as ([] & w2 & _ & H).
  injection H as <- _. split; reflexivity.
Qed.

(** X7. The two sinks do not interfere: with distinct plot and report paths,
    plotting then reporting and reporting then plotting leave the same
    files, on any frame; and doing either a second time changes nothing. *)
Theorem sinks_commute (cfg : Config) (df : DataFrame) (w : World np) :
  plot_path cfg <> report_path cfg ->
  forall p : string,
    files (snd (save_report cfg df (snd (visualize_results cfg df w)))) p =
    files (snd (visualize_results cfg df (snd (save_report cfg df w)))) p /\
    files (snd (save_report cfg df (snd (save_report cfg df w)))) p =
    files (snd (save_report cfg df w)) p /\
    files (snd (visualize_results cfg df (snd (visualize_results cfg df w)))) p =
    files (snd (visualize_results cfg df w)) p.
Proof.
  intros Hpaths p.
  destruct (analysis df) as [a|] eqn:Ha.
  - rewrite !(visualize_results_run cfg df a _ Ha),
            !(save_report_run cfg df a _ Ha). simpl.
    destruct (String.eqb_spec p (report_path cfg)) as [E1|E1];
      destruct (String.eqb_spec p (plot_path cfg)) as [E2|E2];
      try (repeat split; reflexivity).
    congruence.
  - unfold save_report, visualize_results, bind, lift, select_anomalies, raise.
    rewrite Ha. simpl. rewrite ?Ha. repeat split; reflexivity.
Qed.

End ReportingMore.

(** ** The pipeline as a whole *)

Section Pipeline.

Variable np : Numpy.
Variable ar : Arima.










End Pipeline.

(** ** The folders *)

Lemma makedirs_exist_ok_spec (name : string) (tree : string -> option entry) :
  match makedirs_exist_ok name tree with
  | inl tree' =>
      tree name <> Some RegularFile /\
      tree' name = Some Directory /\
      (forall p, p <> name -> tree' p = tree p) /\
      (forall p e, tree p = Some e -> tree' p = Some e)
  | inr FileExistsError => tree name = Some RegularFile
  end.
Proof.
  unfold makedirs_exist_ok. destruct (tree name) as [[|]|] eqn:H.
  - repeat apply conj; auto. discriminate.
  - reflexivity.
  - rewrite String.eqb_refl. repeat apply conj; auto.
    + discriminate.
    + intros p Hp. apply String.eqb_neq in Hp. now rewrite Hp.
    + intros p e Hp. destruct (String.eqb_spec p name); congruence.
Qed.

Lemma makedirs_exist_ok_directory (name : string) (tree : string -> option entry) :
  tree name = Some Directory -> makedirs_exist_ok name tree = inl tree.
Proof. intros H. unfold makedirs_exist_ok. now rewrite H. Qed.

(** X10. [ensure_directories] fails exactly when [data] or [outputs] exists
    as a regular file.  When it succeeds both are folders, every other name
    is as it was, names that existed are unchanged, and calling it again
    changes nothing. *)
Theorem ensure_directories_outcome (tree : string -> option entry) :
  match ensure_directories tree with
  | inl tree' =>
      tree "data"%string <> Some RegularFile /\
      tree "outputs"%string <> Some RegularFile /\
      tree' "data"%string = Some Directory /\
      tree' "outputs"%string = Some Directory /\
      (forall p, p <> "data"%string -> p <> "outputs"%string ->
                 tree' p = tree p) /\
      (forall p e, tree p = Some e -> tree' p = Some e) /\
      ensure_directories tree' = inl tree'
  | inr FileExistsError =>
      tree "data"%string = Some RegularFile \/
      tree "outputs"%string = Some RegularFile
  end.
Proof.
  unfold ensure_directories at 1.
  pose proof (makedirs_exist_ok_spec "data" tree) as H1.
  destruct (makedirs_exist_ok "data" tree) as [t1|[]]; [|now left].
  destruct H1 as (Hd & Hd1 & Hother1 & Hkeep1).
  pose proof (makedirs_exist_ok_spec "outputs" t1) as H2.
  destruct (makedirs_exist_ok "outputs" t1) as [t2|[]].
  - destruct H2 as (Ho & Ho2 & Hother2 & Hkeep2).
    assert (Hdo : "outputs"%string <> "data"%string) by discriminate.
    repeat apply conj.
    + exact Hd.
    + rewrite <- (Hother1 _ Hdo). exact Ho.
    + now apply Hkeep2.
    + exact Ho2.
    + intros p Hp1 Hp2. now rewrite Hother2, Hother1.
    + intros p e Hp. now apply Hkeep2, Hkeep1.
    + unfold ensure_directories.
      rewrite (makedirs_exist_ok_directory "data" t2) by now apply Hkeep2.
      now apply makedirs_exist_ok_directory.
  - right. rewrite <- (Hother1 "outputs"%string) by discriminate. exact H2.
Qed.

(** ** Concrete runs of the further properties *)

Lemma toy_choice_contract : ChoiceContract toy_numpy.
Proof.
  intros options g Hne. simpl. apply nth_In.
  destruct options as [|o l]; [congruence|].
  pose proof (Z.mod_pos_bound g (Z.of_nat (List.length (o :: l)))) as Hb.
  simpl List.length in *. lia.
Qed.

Lemma generated_values_witness :
  exists df w',
    generate_synthetic_data CONFIG toy_world = (Ok df, w') /\
    exists noise : list float,
      fst (random_normal 0 2 (days CONFIG * hours_per_day CONFIG)
             (snd (seed 42 toy_world))) = Ok noise /\
      List.length noise = List.length (cpu_percent df) /\
      forall (i : nat) (x : float),
        nth_error noise i = Some x ->
        nth_error (timestamp df) i = Some (Z.of_nat i) /\
        (~ In i anomalies_indices ->
         nth_error (cpu_percent df) i =
           Some (np_clip 0 100 (base_signal toy_numpy (Z.of_nat i) x))) /\
        (In i anomalies_indices ->
         nth_error (cpu_percent df) i =
           Some (np_clip 0 100 (base_signal toy_numpy (Z.of_nat i) x + 30)) \/
         nth_error (cpu_percent df) i =
           Some (np_clip 0 100 (base_signal toy_numpy (Z.of_nat i) x + -25))).
Proof.
  destruct (generate_synthetic_data_ok toy_numpy CONFIG toy_world eq_refl)
    as (df & w' & E).
  exists df, w'. split; [exact E|].
  exact (generated_values toy_numpy CONFIG toy_world w' df toy_choice_contract E).
Defined.



Lemma reporting_needs_analysis_witness :
  exists df w',
    generate_synthetic_data CONFIG toy_world = (Ok df, w') /\
    visualize_results CONFIG df w' = (Err KeyError, w') /\
    save_report CONFIG df w' = (Err KeyError, w').
Proof.
  destruct (generate_synthetic_data_ok toy_numpy CONFIG toy_world eq_refl)
    as (df & w' & E).
  exists df, w'. split; [exact E|].
  exact (reporting_needs_analysis toy_numpy CONFIG CONFIG toy_world w' w' df E).
Defined.

Lemma sinks_commute_witness :
  files (snd (save_report CONFIG toy_analysed
                (snd (visualize_results CONFIG toy_analysed toy_world))))
        (plot_path CONFIG) =
  files (snd (visualize_results CONFIG toy_analysed
                (snd (save_report CONFIG toy_analysed toy_world))))
        (plot_path CONFIG).
Proof.
  exact (proj1 (sinks_commute toy_numpy CONFIG toy_analysed toy_world
                  config_paths_differ (plot_path CONFIG))).
Defined.


(** ** The flagged residuals form two tails *)

Ltac cmp_cases :=
  repeat match goal with
  | H : context [Z.compare ?x ?y] |- _ =>
      destruct (Z.compare_spec x y); try subst
  | |- context [Z.compare ?x ?y] =>
      destruct (Z.compare_spec x y); try subst
  | H : context [Pos.compare_cont Eq ?x ?y] |- _ =>
      change (Pos.compare_cont Eq x y) with (Pos.compare x y) in *;
      destruct (Pos.compare_spec x y); try subst
  | |- context [Pos.compare_cont Eq ?x ?y] =>
      change (Pos.compare_cont Eq x y) with (Pos.compare x y) in *;
      destruct (Pos.compare_spec x y); try subst
  end.

Lemma SFltb_leb_trans (a b c : spec_float) :
  SFltb a b = true -> SFleb b c = true -> SFltb a c = true.
Proof.
  unfold SFltb, SFleb.
  destruct a as [sa|sa| |sa ma ea], b as [sb|sb| |sb mb eb],
           c as [sc|sc| |sc mc ec]; cbn [SFcompare];
    try destruct sa; try destruct sb; try destruct sc;
    try discriminate; try reflexivity;
    intros H1 H2; cmp_cases; simpl in *;
    try discriminate; try reflexivity; try lia.
Qed.

Lemma SFleb_ltb_trans (a b c : spec_float) :
  SFleb a b = true -> SFltb b c = true -> SFltb a c = true.
Proof.
  unfold SFltb, SFleb.
  destruct a as [sa|sa| |sa ma ea], b as [sb|sb| |sb mb eb],
           c as [sc|sc| |sc mc ec]; cbn [SFcompare];
    try destruct sa; try destruct sb; try destruct sc;
    try discriminate; try reflexivity;
    intros H1 H2; cmp_cases; simpl in *;
    try discriminate; try reflexivity; try lia.
Qed.

(** X11. Within a run, a residual at least as large as a value above the
    upper bound is flagged, and so is a residual at most as small as a value
    below the lower bound: the flagged residuals are an upper and a lower
    tail. *)
Theorem flag_monotone (k : float) (observed predicted : list float)
  (j : nat) (rj r : float) :
  let a := analyze k observed predicted in
  nth_error (an_residual a) j = Some rj ->
  (F.gt r (upper_threshold a) = true /\ F.le r rj = true) \/
  (F.lt r (lower_threshold a) = true /\ F.le rj r = true) ->
  nth_error (an_is_anomaly a) j = Some true.
Proof.
  intros a Hj H.
  assert (Hf : nth_error (an_is_anomaly a) j =
               Some (flag (upper_threshold a) (lower_threshold a) rj)).
  { unfold a, analyze. simpl. unfold a, analyze in Hj. simpl in Hj.
    now rewrite nth_error_map, Hj. }
  rewrite Hf. f_equal. unfold flag, F.gt, F.lt, F.le in *.
  destruct H as [[H1 H2] | [H1 H2]];
    rewrite ltb_spec in H1; rewrite leb_spec in H2; rewrite !ltb_spec.
  - now rewrite (SFltb_leb_trans _ _ _ H1 H2).
  - rewrite (SFleb_ltb_trans _ _ _ H2 H1). apply orb_true_r.
Qed.

Lemma flag_monotone_witness :
  nth_error
    (an_is_anomaly
       (analyze 2.5 (cpu_percent toy_frame) (predicted toy_columns))) 9 =
  Some true.
Proof.
  apply (flag_monotone 2.5 (cpu_percent toy_frame) (predicted toy_columns)
           9 90 85).
  - reflexivity.
  - left. split; reflexivity.
Defined.
